(** * paderbox.database.database: dataset resolution, weak cache, Kaldi scan

    A shallow embedding of [src/paderbox/database/database.py].

    Python objects that the code mutates and shares (the example records,
    the lazy dataset wrappers) live in an explicit store and are named by
    their address; everything else is a value.  Python [dict]s are
    insertion-ordered association lists with unique keys; exceptions are
    values of the type [exn], and a computation returns either a result or
    the exception it raised, together with the store it left behind. *)

From Stdlib Require Import ZArith Ascii String.
From stdpp Require Import base tactics option list strings sorting.

Open Scope string_scope.
Open Scope list_scope.
Open Scope nat_scope.
Open Scope stdpp_scope.

(** ** Python dictionaries *)

Module PyDict.

(** A [dict] with [str] keys: the items in insertion order. *)
Abbreviation dict V := (list (string * V)) (only parsing).

(** [d[k]], [None] standing for the [KeyError]. *)
Fixpoint dict_get {V} (k : string) (d : dict V) : option V :=
  match d with
  | [] => None
  | (k', v) :: d' => if decide (k = k') then Some v else dict_get k d'
  end.

(** [d[k] = v]: an existing key keeps its position, a new key goes last. *)
Fixpoint dict_set {V} (k : string) (v : V) (d : dict V) : dict V :=
  match d with
  | [] => [(k, v)]
  | (k', v') :: d' =>
      if decide (k = k') then (k', v) :: d' else (k', v') :: dict_set k v d'
  end.

(** [d.keys()] and [d.values()], in iteration order. *)
Definition dict_keys {V} (d : dict V) : list string := d.*1.
Definition dict_values {V} (d : dict V) : list V := d.*2.

(** [{**d1, **d2}]: a new dict holding the items of [d1], then those of [d2]. *)
Definition dict_merge {V} (d1 d2 : dict V) : dict V :=
  fold_left (fun acc kv => dict_set kv.1 kv.2 acc) d2 d1.

(** [set.intersection(set(d1.keys()), set(d2.keys()))], listed in the order
    of [d1]; only its emptiness and its members are ever looked at. *)
Definition keys_intersection {V} (d1 d2 : dict V) : list string :=
  filter (fun k => k ∈ dict_keys d2) (dict_keys d1).

(** What every Python [dict] satisfies: no key twice. *)
Definition dict_wf {V} (d : dict V) : Prop := NoDup (dict_keys d).

End PyDict.
Export PyDict.

(** ** Values stored in example records (what JSON can hold) *)

#[local] Unset Elimination Schemes.
Inductive value : Type :=
| VStr (s : string)
| VNum (n : Z)
| VList (l : list value)
| VDict (d : list (string * value)).
#[local] Set Elimination Schemes.

(** An example record: a [dict] from field names to values. *)
Abbreviation record := (dict value) (only parsing).

(** The constants of [paderbox.database.keys] used by the code.  The module
    is not part of the sources, so its constants are parameters. *)
Class Keys : Type := {
  EXAMPLE_ID : string;
  DATASET_NAME : string;
  NUM_SAMPLES : string;
  OBSERVATION : string;
  AUDIO_PATH : string;
  SPEAKER_ID : string;
  GENDER : string;
  KALDI_TRANSCRIPTION : string;
}.

(** ** The database document and the object store *)

(** Address of an example record (a mutable Python [dict]) in the store. *)
Abbreviation ref := nat (only parsing).
(** Address of a lazy dataset wrapper built by [lazy_dataset.from_dict]. *)
Abbreviation wid := nat (only parsing).

(** The object [self.database_dict]: the section [DATASETS] (dataset name
    -> example id -> record object) and the optional section [ALIAS]
    (alias name -> list of underlying dataset names). *)
Record database_doc : Type := {
  datasets : dict (dict ref);
  alias : option (dict (list string));
}.

(** Exceptions raised by the module. *)
Inductive exn : Type :=
| TypeError (valid_names : list string)
    (* TypeError(f'Missing dataset_names, use e.g.: {self.dataset_names}') *)
| KeyError (key : string)
    (* a failed lookup d[key] *)
| KeyErrorCloseMatches (name : string) (similar : list string) (self : database_doc)
    (* KeyError(name, f'close_matches: {similar}', self) *)
| AssertionError (payload : value)
| RuntimeError (name : string)
    (* RuntimeError(f'The requested dataset {name!r} is empty. ') *)
| NotImplementedError
| MalformedDatasetError (example_id : string) (dataset_path : string)
| FileNotFoundError (path : string)
| IndexError
| ValueError (detail : string)
    (* the literal that a conversion rejected; empty when the call that
       raises has no argument to report *).

(** The store: the example records of the document, the wrappers built so
    far (a wrapper is never changed after it is built; it holds its own
    copies of the records, under their keys), and the
    [WeakValueDictionary] that maps a dataset name to the wrapper last
    built for it. *)
Record state : Type := {
  heap : list record;
  wrappers : list (dict record);
  cache : dict wid;
}.

(** Outcome of a call: the value returned or the exception raised, and the
    store as the call left it. *)
Inductive outcome (A : Type) : Type :=
| Ok (a : A) (st : state)
| Raise (e : exn) (st : state).
Arguments Ok {A} a st.
Arguments Raise {A} e st.

(** Result of a computation that does not change the store. *)
Inductive result (A : Type) : Type :=
| Val (a : A)
| Exc (e : exn).
Arguments Val {A} a.
Arguments Exc {A} e.

Definition final_state {A} (o : outcome A) : state :=
  match o with Ok _ st => st | Raise _ st => st end.

(** Computations over the store that may raise. *)
Definition M (A : Type) : Type := state -> outcome A.

Definition ret {A} (a : A) : M A := fun st => Ok a st.
Definition raise {A} (e : exn) : M A := fun st => Raise e st.
Definition bind {A B} (m : M A) (f : A -> M B) : M B :=
  fun st => match m st with
            | Ok a st' => f a st'
            | Raise e st' => Raise e st'
            end.

(** A computation that only reads the store. *)
Definition lift {A} (f : state -> result A) : M A :=
  fun st => match f st with
            | Val a => Ok a st
            | Exc e => Raise e st
            end.

Declare Scope py_scope.
Delimit Scope py_scope with py.
Notation "x <- m ;; k" := (bind m (fun x => k))
  (at level 100, m at next level, right associativity) : py_scope.

(** ** [difflib.get_close_matches] (Python standard library)

    [SequenceMatcher] as CPython implements it, with [isjunk=None] and
    [autojunk=True] (the defaults [get_close_matches] uses).  Sequences are
    strings, read character by character.  A similarity ratio
    [2.0 * matches / length] is kept as the exact fraction: for the lengths
    of dataset names two different fractions never round to the same
    float, so comparing fractions orders them as Python does. *)

Module difflib.

Definition chars (s : string) : list ascii := list_ascii_of_string s.

(** A fraction [num / den]; [den] is never zero. *)
Definition frac : Type := (nat * nat)%type.
Definition frac_le (x y : frac) : bool := x.1 * y.2 <=? y.1 * x.2.
Definition frac_lt (x y : frac) : bool := x.1 * y.2 <? y.1 * x.2.
Definition frac_eq (x y : frac) : bool := x.1 * y.2 =? y.1 * x.2.

(** [_calculate_ratio(matches, length)]. *)
Definition _calculate_ratio (matches length : nat) : frac :=
  if length =? 0 then (1, 1) else (2 * matches, length).

(** [__chain_b]: with [autojunk], once [b] has 200 elements or more, an
    element occurring more than [len(b) // 100 + 1] times is "popular"
    and no match is started on it. *)
Definition popular (b : list ascii) (c : ascii) : bool :=
  (200 <=? length b) && (length b / 100 + 1 <? length (filter (fun x => x = c) b)).

(** Length of the common run of matching elements at the head of [a] and
    [b]; [skip] marks the elements of [b] no match may use. *)
Fixpoint run (skip : ascii -> bool) (a b : list ascii) : nat :=
  match a, b with
  | x :: a', y :: b' =>
      if bool_decide (x = y) && negb (skip y) then S (run skip a' b') else 0
  | _, _ => 0
  end.

(** The inner loops of [find_longest_match]: over the start positions
    [(i, j)] in increasing [i], then increasing [j], keep the first run
    that is strictly longer than the best one so far. *)
Fixpoint scan_b (skip : ascii -> bool) (a b : list ascii) (i j : nat)
    (best : nat * nat * nat) : nat * nat * nat :=
  match b with
  | [] => best
  | _ :: b' =>
      let k := run skip a b in
      scan_b skip a b' i (S j) (if best.2 <? k then (i, j, k) else best)
  end.

Fixpoint scan_a (skip : ascii -> bool) (a b : list ascii) (i : nat)
    (best : nat * nat * nat) : nat * nat * nat :=
  match a with
  | [] => best
  | _ :: a' => scan_a skip a' b (S i) (scan_b skip a b i 0 best)
  end.

(** [find_longest_match] on the windows [a = a[alo:ahi]] and
    [b = b[blo:bhi]], positions relative to the windows: the longest block
    of matching non-popular elements, earliest in [a], then earliest in
    [b], extended on both sides by matching elements of any kind. *)
Definition find_longest_match (pop : ascii -> bool) (a b : list ascii)
    : nat * nat * nat :=
  let '(i, j, k) := scan_a pop a b 0 (0, 0, 0) in
  let left := run (fun _ => false) (rev (take i a)) (rev (take j b)) in
  let right := run (fun _ => false) (drop (i + k) a) (drop (j + k) b) in
  (i - left, j - left, left + k + right).

(** [sum(triple[-1] for triple in self.get_matching_blocks())]: the block
    found in the window, then the blocks to its left and to its right.
    Every recursive call is on a strictly shorter [a]; [fuel] bounds the
    depth and [S (length a)] is always enough. *)
Fixpoint matches_in (fuel : nat) (pop : ascii -> bool) (a b : list ascii) : nat :=
  match fuel with
  | 0 => 0
  | S fuel' =>
      let '(i, j, k) := find_longest_match pop a b in
      if k =? 0 then 0
      else k + matches_in fuel' pop (take i a) (take j b)
             + matches_in fuel' pop (drop (i + k) a) (drop (j + k) b)
  end.

(** [SequenceMatcher(a=x, b=word).ratio()]. *)
Definition ratio (x word : string) : frac :=
  let a := chars x in
  let b := chars word in
  _calculate_ratio (matches_in (S (length a)) (popular b) a b) (length a + length b).

(** [real_quick_ratio()]: an upper bound from the lengths alone. *)
Definition real_quick_ratio (x word : string) : frac :=
  let la := length (chars x) in
  let lb := length (chars word) in
  _calculate_ratio (la `min` lb) (la + lb).

(** [quick_ratio()]: an upper bound from the multisets of elements; every
    element of [a] uses up one equal element of [b], while there is one. *)
Fixpoint use_one (c : ascii) (avail : list ascii) : option (list ascii) :=
  match avail with
  | [] => None
  | y :: avail' =>
      if bool_decide (c = y) then Some avail'
      else match use_one c avail' with
           | Some rest => Some (y :: rest)
           | None => None
           end
  end.

Fixpoint multiset_matches (a avail : list ascii) : nat :=
  match a with
  | [] => 0
  | c :: a' =>
      match use_one c avail with
      | Some rest => S (multiset_matches a' rest)
      | None => multiset_matches a' avail
      end
  end.

Definition quick_ratio (x word : string) : frac :=
  let a := chars x in
  let b := chars word in
  _calculate_ratio (multiset_matches a b) (length a + length b).

(** Order on the pairs [(score, x)] that [heapq.nlargest] sorts: by score,
    then by the string (by code point). *)
Definition scored_le (p q : frac * string) : bool :=
  frac_lt p.1 q.1 || (frac_eq p.1 q.1 && String.leb p.2 q.2).

(** [sorted(result, reverse=True)]: insertion into a descending list. *)
Fixpoint insert_desc (p : frac * string) (l : list (frac * string))
    : list (frac * string) :=
  match l with
  | [] => [p]
  | q :: l' => if scored_le q p then p :: l else q :: insert_desc p l'
  end.

Definition sort_desc (l : list (frac * string)) : list (frac * string) :=
  foldr insert_desc [] l.

(** [heapq.nlargest(n, result)], which is [sorted(result, reverse=True)[:n]]. *)
Definition _nlargest (n : nat) (l : list (frac * string)) : list (frac * string) :=
  take n (sort_desc l).

(** [get_close_matches(word, possibilities, n, cutoff)], for [n > 0] and a
    cutoff in [[0, 1]] (the function raises [ValueError] otherwise; the
    database calls it with [n=5] and [cutoff=0]). *)
Definition get_close_matches (word : string) (possibilities : list string)
    (n : nat) (cutoff : frac) : list string :=
  let result :=
    omap (fun x =>
            if frac_le cutoff (real_quick_ratio x word)
               && frac_le cutoff (quick_ratio x word)
               && frac_le cutoff (ratio x word)
            then Some (ratio x word, x) else None)
         possibilities in
  (_nlargest n result).*2.

End difflib.

(** ** [lazy_dataset]: the lazy sequence wrappers

    The package is not part of the sources; its three operations used by
    [Database.get_dataset] are modelled from the specification. *)

Module lazy_dataset.

(** Modelled from the spec: the sequence that [lazy_dataset.concatenate]
    returns for the wrappers it is given, which "yields all elements of
    sequence_1 in order, then all of sequence_2, etc."; it refers to its
    constituent wrappers and does not copy them, so two results with the
    same constituents are the same sequence. *)
Inductive dataset : Type :=
| Concatenate (parts : list wid).

(** Modelled from the spec: what a wrapper keeps of the mapping it is
    built from.  The wrapper is "immutable" and "once constructed ... it
    must not mutate" (the code relies on this: "Resulting dataset is
    immutable anyway due to pickle"), so it holds the records as they are
    at that moment, not the record objects of the document. *)
Definition snapshot (h : list record) (examples : dict ref) : dict record :=
  (fun kv => (kv.1, default [] (h !! kv.2))) <$> examples.

(** Modelled from the spec: [lazy_dataset.from_dict(examples)], "a
    restartable, finite, order-preserving lazy sequence over the mapping's
    values"; the new wrapper object gets the next free address. *)
Definition from_dict (examples : dict ref) : M wid :=
  fun st =>
    Ok (length (wrappers st))
       {| heap := heap st;
          wrappers := wrappers st ++ [snapshot (heap st) examples];
          cache := cache st |}.

(** Modelled from the spec: [lazy_dataset.concatenate(sequence_1, ...,
    sequence_n)], applied to the wrappers in the order they are passed;
    called with no sequence at all it raises [ValueError]. *)
Definition concatenate (datasets : list wid) : result dataset :=
  match datasets with
  | [] => Exc (ValueError EmptyString)
  | _ => Val (Concatenate datasets)
  end.

(** Modelled from the spec: an iterator over a dataset, as the records
    still to be yielded, one list per constituent not exhausted yet. *)
Definition iterator : Type := list (list record).

(** Modelled from the spec: [iter(ds)] starts every constituent "from its
    beginning", in "the mapping's iteration order". *)
Definition iter (st : state) (ds : dataset) : iterator :=
  match ds with
  | Concatenate parts =>
      (fun w => dict_values (default [] (wrappers st !! w))) <$> parts
  end.

(** Modelled from the spec: [next(it)], which yields the next record of
    the first constituent that is not exhausted.  [None] is
    [StopIteration]. *)
Fixpoint next (it : iterator) : option (record * iterator) :=
  match it with
  | [] => None
  | [] :: rest => next rest
  | (example :: examples) :: rest => Some (example, examples :: rest)
  end.

(** Modelled from the spec: [list(it)], that is [next] called until
    [StopIteration]. *)
Definition drain (it : iterator) : list record := concat it.

(** Modelled from the spec: [list(ds)], one full pass over the dataset. *)
Definition list_of (st : state) (ds : dataset) : list record :=
  drain (iter st ds).

(** Modelled from the spec: one full iteration as the caller runs it; it
    leaves the dataset and the store as they are, so the dataset is
    "restartable". *)
Definition iterate (ds : dataset) : M (list record) :=
  fun st => Ok (list_of st ds) st.

End lazy_dataset.

(** ** class Database *)

Module Database.
Import lazy_dataset.

(** The [names] argument of [get_dataset]: [None], a [str], or a list (or
    tuple) of [str]. *)
Inductive names_arg : Type :=
| NoneArg
| StrArg (name : string)
| ListArg (names : list string).

(** [to_list(names, item_type=str)] for an argument that is not [None]. *)
Definition to_list (x : names_arg) : list string :=
  match x with
  | NoneArg => []
  | StrArg name => [name]
  | ListArg names => names
  end.

(** [cutoff=0] *)
Definition cutoff_0 : difflib.frac := (0, 1).

(** The keys of the dictionary that [Database.get_lengths] builds: the
    identifier read from a record, a [str] or a number. *)
Inductive hashable : Type :=
| HStr (s : string)
| HNum (n : Z).

#[export] Instance hashable_eq_dec : EqDecision hashable.
Proof. solve_decision. Defined.

(** [lengths[k] = v] on a dictionary with such keys. *)
Fixpoint lengths_set (k : hashable) (v : value) (lengths : list (hashable * value))
    : list (hashable * value) :=
  match lengths with
  | [] => [(k, v)]
  | (k', v') :: rest =>
      if decide (k = k') then (k', v) :: rest else (k', v') :: lengths_set k v rest
  end.

Section Database.
Context `{K : Keys}.

(** Property [dataset_names]. *)
Definition dataset_names (D : database_doc) : list string :=
  dict_keys (datasets D) ++ dict_keys (default [] (alias D)).

(** The loop of [_get_dataset_from_database_dict] over the names of an
    alias, [examples] being the mapping accumulated so far. *)
Fixpoint merge_alias (D : database_doc) (dataset_names : list string)
    (examples : dict ref) : result (dict ref) :=
  match dataset_names with
  | [] => Val examples
  | name :: rest =>
      match dict_get name (datasets D) with
      | None => Exc (KeyError name)
      | Some examples_new =>
          let intersection := keys_intersection examples examples_new in
          if length intersection =? 0
          then merge_alias D rest (dict_merge examples examples_new)
          else Exc (AssertionError (VList (VStr <$> intersection)))
      end
  end.

(** [_get_dataset_from_database_dict(dataset_name)]: the first [match] is
    the test [dataset_name in self.database_dict.get('alias', [])]
    together with the lookup [self.database_dict['alias'][dataset_name]]. *)
Definition _get_dataset_from_database_dict (D : database_doc)
    (dataset_name : string) : result (dict ref) :=
  match dict_get dataset_name (default [] (alias D)) with
  | Some dataset_names => merge_alias D dataset_names []
  | None =>
      match dict_get dataset_name (datasets D) with
      | Some examples => Val examples
      | None => Exc (KeyError dataset_name)
      end
  end.

(** Lines 241-242 on one record:
    [example[EXAMPLE_ID] = example_id; example[DATASET_NAME] = name]. *)
Definition set_example_fields (example_id name : string) (example : record) : record :=
  dict_set DATASET_NAME (VStr name) (dict_set EXAMPLE_ID (VStr example_id) example).

(** The loop of lines 240-242: every record of [examples] is updated in
    place, in the store.  A key of a Python [dict] occurs once, so the loop
    over [examples.keys()] with the lookup [examples[example_id]] is the
    loop over the items.  Every value of [examples] is an object, so its
    address is in the store ([alter] outside the store, which cannot
    occur, would change nothing). *)
Definition augment (name : string) (examples : dict ref) (h : list record)
    : list record :=
  fold_left (fun h kv => alter (set_example_fields kv.1 name) kv.2 h) examples h.

Definition set_heap (h : list record) : M unit :=
  fun st => Ok tt {| heap := h; wrappers := wrappers st; cache := cache st |}.

Definition set_cache (name : string) (ds : wid) : M unit :=
  fun st =>
    Ok tt {| heap := heap st; wrappers := wrappers st;
             cache := dict_set name ds (cache st) |}.

(** Lines 222-246: what [get_dataset] does for a name that the weak
    dictionary does not hold. *)
Definition build (D : database_doc) (name : string) : M wid :=
  (fun st =>
     match _get_dataset_from_database_dict D name with
     | Exc (KeyError _) =>
         let similar :=
           difflib.get_close_matches name (dataset_names D) 5 cutoff_0 in
         Raise (KeyErrorCloseMatches name similar D) st
     | Exc e => Raise e st
     | Val examples =>
         if length examples =? 0 then Raise (RuntimeError name) st
         else
           (_ <- set_heap (augment name examples (heap st));;
            ds <- from_dict examples;;
            _ <- set_cache name ds;;
            ret ds)%py st
     end).

(** Lines 214-248: one turn of the loop over [names].  The weak dictionary
    answers with a wrapper that is still alive, or raises [KeyError]. *)
Definition fetch (D : database_doc) (name : string) : M wid :=
  fun st =>
    match dict_get name (cache st) with
    | Some ds => Ok ds st
    | None => build D name st
    end.

Fixpoint fetch_all (D : database_doc) (names : list string) (datasets : list wid)
    : M (list wid) :=
  match names with
  | [] => ret datasets
  | name :: rest =>
      (ds <- fetch D name;; fetch_all D rest (datasets ++ [ds]))%py
  end.

(** [Database.get_dataset(names)]. *)
Definition get_dataset (D : database_doc) (names : names_arg) : M dataset :=
  match names with
  | NoneArg => raise (TypeError (dataset_names D))
  | _ =>
      (datasets <- fetch_all D (to_list names) [];;
       lift (fun _ => concatenate datasets))%py
  end.

(** [get_iterator_by_names]: "Alias of get_dataset_by_names". *)
Definition get_iterator_by_names (D : database_doc) (dataset_names : names_arg)
    : M dataset :=
  get_dataset D dataset_names.

(** [Database.get_bucket_boundaries(datasets, num_buckets,
    length_transform_fn)].  [self.get_lengths] is the method of the class
    of [self]; [np_percentile lengths_list num_buckets] stands for the two
    numpy calls [np.percentile(lengths_list, np.linspace(0, 100,
    num_buckets + 1, endpoint=True)[1:-1], interpolation='higher')]. *)
Definition get_bucket_boundaries
    (self_get_lengths : names_arg -> (value -> value) -> M (dict value))
    (np_percentile : list value -> nat -> result (list value))
    (datasets : names_arg) (num_buckets : nat)
    (length_transform_fn : value -> value) : M (list value) :=
  fun st =>
    let body :=
      (lengths <- self_get_lengths datasets length_transform_fn;;
       lift (fun _ => np_percentile (dict_values lengths) num_buckets))%py in
    match body st with
    | Raise NotImplementedError st' =>
        if num_buckets =? 1 then Ok [] st'
        else Raise (AssertionError (VNum (Z.of_nat num_buckets))) st'
    | o => o
    end.

(** The garbage collector: the entries of the weak dictionary whose wrapper
    nothing else refers to any more disappear; [alive] tells which
    wrappers are still referenced from outside.  Collections happen
    between the calls of [get_dataset]: during a call the list [datasets]
    refers to every wrapper fetched so far. *)
Definition collect (alive : wid -> bool) (st : state) : state :=
  {| heap := heap st;
     wrappers := wrappers st;
     cache := filter (fun kv => alive kv.2 = true) (cache st) |}.

(** The stores a database object can be in: it starts with the records of
    its document and an empty weak dictionary; then come calls of
    [get_dataset] (returning or raising) and collections. *)
Inductive reachable (D : database_doc) : state -> Prop :=
| reachable_init h :
    reachable D {| heap := h; wrappers := []; cache := [] |}
| reachable_call st names :
    reachable D st -> reachable D (final_state (get_dataset D names st))
| reachable_collect st alive :
    reachable D st -> reachable D (collect alive st).

(** The Python objects of a document whose records are plain values:
    every record gets an address of its own, in document order. *)
Fixpoint load_examples (examples : dict record) (h : list record)
    : dict ref * list record :=
  match examples with
  | [] => ([], h)
  | (example_id, example) :: rest =>
      let '(refs, h') := load_examples rest (h ++ [example]) in
      ((example_id, length h) :: refs, h')
  end.

Fixpoint load_datasets (doc : dict (dict record)) (h : list record)
    : dict (dict ref) * list record :=
  match doc with
  | [] => ([], h)
  | (name, examples) :: rest =>
      let '(refs, h') := load_examples examples h in
      let '(rest', h'') := load_datasets rest h' in
      ((name, refs) :: rest', h'')
  end.

Definition load_document (doc : dict (dict record))
    (aliases : option (dict (list string))) : database_doc * state :=
  let '(ds, h) := load_datasets doc [] in
  ({| datasets := ds; alias := aliases |},
   {| heap := h; wrappers := []; cache := [] |}).

(** [lengths[example_id] = ...] hashes its key: a [str] or a number is a
    key, a [list] or a [dict] raises [TypeError] (carrying its message). *)
Definition hash_key (example_id : value) : result hashable :=
  match example_id with
  | VStr s => Val (HStr s)
  | VNum n => Val (HNum n)
  | VList _ => Exc (TypeError ["unhashable type: 'list'"])
  | VDict _ => Exc (TypeError ["unhashable type: 'dict'"])
  end.

(** Lines 282-284: [example[NUM_SAMPLES]], and its entry [OBSERVATION] if
    it is a [dict]. *)
Definition num_samples_of (example : record) : result value :=
  match dict_get NUM_SAMPLES example with
  | None => Exc (KeyError NUM_SAMPLES)
  | Some (VDict d) =>
      match dict_get OBSERVATION d with
      | Some n => Val n
      | None => Exc (KeyError OBSERVATION)
      end
  | Some num_samples => Val num_samples
  end.

(** The loop of [Database.get_lengths] over the examples the dataset
    yields. *)
Fixpoint lengths_loop (length_transform_fn : value -> value) (it : list record)
    (lengths : list (hashable * value)) : result (list (hashable * value)) :=
  match it with
  | [] => Val lengths
  | example :: rest =>
      match num_samples_of example with
      | Exc e => Exc e
      | Val num_samples =>
          match dict_get EXAMPLE_ID example with
          | None => Exc (KeyError EXAMPLE_ID)
          | Some example_id =>
              match hash_key example_id with
              | Exc e => Exc e
              | Val k =>
                  lengths_loop length_transform_fn rest
                    (lengths_set k (length_transform_fn num_samples) lengths)
              end
          end
      end
  end.

(** [Database.get_lengths(datasets, length_transform_fn)]: the method of
    the base class, which [DictDatabase] and [JsonDatabase] inherit. *)
Definition get_lengths (D : database_doc) (datasets : names_arg)
    (length_transform_fn : value -> value) : M (list (hashable * value)) :=
  (it <- get_iterator_by_names D datasets;;
   examples <- iterate it;;
   lift (fun _ => lengths_loop length_transform_fn examples []))%py.

End Database.
End Database.

(** ** class KaldiDatabase *)

Module KaldiDatabase.
Import Database.

(** One directory [<egs>/data/<dataset>/] that holds a [wav.scp]: its
    keyed-line files as [kaldi.io.load_keyed_lines] returns them ([None]
    for a file that does not exist, on which the loader raises
    [FileNotFoundError]).  [wav.scp] is read with [to_list=True]: the
    tokens after the identifier. *)
Record dataset_dir : Type := {
  wav_scp : dict (list string);
  utt2spk : option (dict string);
  text : option (dict value);
  spk2gender : option (dict string);
  utt2dur : option (dict string);
}.

(** The recipe directory: what [glob(egs_path / 'data' / '*' / 'wav.scp')]
    finds, as pairs of the directory's name and its content, in the order
    of the glob. *)
Definition egs : Type := list (string * dataset_dir).

(** A database document whose records are plain values: what the scan
    builds before anything refers to its records. *)
Definition document : Type := dict (dict record).

(** What the module writes to [LOG]. *)
Inductive log_record : Type :=
| Warning (args : exn).

Definition load_keyed_lines {V} (file : option (dict V)) (path : string)
    : result (dict V) :=
  match file with
  | Some lines => Val lines
  | None => Exc (FileNotFoundError path)
  end.

Section KaldiDatabase.
Context `{K : Keys}.

(** Python's [float] on a [str]: the number, or [None] for its
    [ValueError]. *)
Variable float : string -> option value.

(** [_audio_path(s)]: [s[0]] for one token, [s[-2]] otherwise. *)
Definition _audio_path (s : list string) : result string :=
  if length s =? 1 then
    match s with
    | p :: _ => Val p
    | [] => Exc IndexError
    end
  else
    match rev s with
    | _ :: p :: _ => Val p
    | _ => Exc IndexError
    end.

(** The loop of [get_examples_from_dataset] over [scp.keys()]. *)
Fixpoint examples_loop (dataset_path : string) (utt2spk : dict string)
    (text : dict value) (spk2gender : option (dict string))
    (scp : dict (list string)) (examples : dict record) : result (dict record) :=
  match scp with
  | [] => Val examples
  | (example_id, s) :: rest =>
      match _audio_path s with
      | Exc e => Exc e
      | Val p =>
          let example : record :=
            dict_set AUDIO_PATH (VDict (dict_set OBSERVATION (VStr p) [])) [] in
          match dict_get example_id utt2spk with
          | None => Exc (MalformedDatasetError example_id dataset_path)
          | Some spk =>
              let example := dict_set SPEAKER_ID (VStr spk) example in
              let with_gender :=
                match spk2gender with
                | None => Val example
                | Some table =>
                    match dict_get spk table with
                    | Some g => Val (dict_set GENDER (VStr g) example)
                    | None => Exc (KeyError spk)
                    end
                end in
              match with_gender with
              | Exc e => Exc e
              | Val example =>
                  match dict_get example_id text with
                  | None => Exc (KeyError example_id)
                  | Some t =>
                      let example := dict_set KALDI_TRANSCRIPTION t example in
                      examples_loop dataset_path utt2spk text spk2gender rest
                        (dict_set example_id example examples)
                  end
              end
          end
      end
  end.

(** [get_examples_from_dataset(dataset_path)]. *)
Definition get_examples_from_dataset (dataset_path : string) (dir : dataset_dir)
    : result (dict record) :=
  match load_keyed_lines (utt2spk dir) (dataset_path +:+ "/utt2spk") with
  | Exc e => Exc e
  | Val utt2spk =>
      match load_keyed_lines (text dir) (dataset_path +:+ "/text") with
      | Exc e => Exc e
      | Val text =>
          examples_loop dataset_path utt2spk text (spk2gender dir) (wav_scp dir) []
      end
  end.

(** The loop of [get_dataset_dict_from_kaldi] over [scp_paths]; it returns
    what the call returns or raises, and what it logged. *)
Fixpoint scan_loop (scp_paths : egs) (dataset_dict : document) (log : list log_record)
    : result document * list log_record :=
  match scp_paths with
  | [] => (Val dataset_dict, log)
  | (dataset_name, dir) :: rest =>
      match get_examples_from_dataset dataset_name dir with
      | Exc (MalformedDatasetError example_id path) =>
          scan_loop rest dataset_dict
            (log ++ [Warning (MalformedDatasetError example_id path)])
      | Exc e => (Exc e, log)
      | Val examples =>
          scan_loop rest (dict_set dataset_name examples dataset_dict) log
      end
  end.

(** [get_dataset_dict_from_kaldi(egs_path)]. *)
Definition get_dataset_dict_from_kaldi (egs_path : egs)
    : result document * list log_record :=
  scan_loop egs_path [] [].

(** The dict comprehension of [_get_lengths_from_kaldi] over one [utt2dur]
    table, [{k: self.length_transform_fn(float(v)) for k, v in ...}]: the
    argument [float(v)] is evaluated before the method is called.
    [length_transform_fn] is the class method; [None] is the method of
    [KaldiDatabase] itself, which raises [NotImplementedError]. *)
Fixpoint durations_loop (length_transform_fn : option (value -> value))
    (utt2dur : dict string) (dataset_lengths : dict value) : result (dict value) :=
  match utt2dur with
  | [] => Val dataset_lengths
  | (k, v) :: rest =>
      match float v with
      | None => Exc (ValueError v)
      | Some seconds =>
          match length_transform_fn with
          | None => Exc NotImplementedError
          | Some f =>
              durations_loop length_transform_fn rest
                (dict_set k (f seconds) dataset_lengths)
          end
      end
  end.

(** [_get_lengths_from_kaldi(database_dict)], the loop over the names of
    the datasets. *)
Fixpoint _get_lengths_from_kaldi (egs_path : egs)
    (length_transform_fn : option (value -> value))
    (dataset_names : list string) (lengths : dict value) : result (dict value) :=
  match dataset_names with
  | [] => Val lengths
  | dataset :: rest =>
      match dict_get dataset egs_path ≫= utt2dur with
      | None => Exc NotImplementedError
      | Some table =>
          match durations_loop length_transform_fn table [] with
          | Exc e => Exc e
          | Val dataset_lengths =>
              _get_lengths_from_kaldi egs_path length_transform_fn rest
                (dict_merge lengths dataset_lengths)
          end
      end
  end.

(** The two nested loops of [_add_num_samples_to_database_dict]. *)
Fixpoint add_to_examples (num_samples_dict : dict value) (examples : dict record)
    : result (dict record) :=
  match examples with
  | [] => Val []
  | (key, example) :: rest =>
      match dict_get key num_samples_dict with
      | None => Exc (KeyError key)
      | Some n =>
          match add_to_examples num_samples_dict rest with
          | Exc e => Exc e
          | Val rest' => Val ((key, dict_set NUM_SAMPLES n example) :: rest')
          end
      end
  end.

Fixpoint add_to_datasets (num_samples_dict : dict value) (doc : document)
    : result document :=
  match doc with
  | [] => Val []
  | (name, examples) :: rest =>
      match add_to_examples num_samples_dict examples with
      | Exc e => Exc e
      | Val examples' =>
          match add_to_datasets num_samples_dict rest with
          | Exc e => Exc e
          | Val rest' => Val ((name, examples') :: rest')
          end
      end
  end.

(** [_add_num_samples_to_database_dict(database_dict)]. *)
Definition _add_num_samples_to_database_dict (egs_path : egs)
    (length_transform_fn : option (value -> value)) (database_dict : document)
    (log : list log_record) : result document * list log_record :=
  match _get_lengths_from_kaldi egs_path length_transform_fn
          (dict_keys database_dict) [] with
  | Exc NotImplementedError => (Val database_dict, log ++ [Warning NotImplementedError])
  | Exc e => (Exc e, log)
  | Val num_samples_dict => (add_to_datasets num_samples_dict database_dict, log)
  end.

(** Property [KaldiDatabase.database_dict], for an [egs_path] that is a
    directory. *)
Definition database_dict (egs_path : egs)
    (length_transform_fn : option (value -> value))
    : result document * list log_record :=
  match get_dataset_dict_from_kaldi egs_path with
  | (Exc e, log) => (Exc e, log)
  | (Val database_dict, log) =>
      _add_num_samples_to_database_dict egs_path length_transform_fn database_dict log
  end.

(** The dict comprehension of [KaldiDatabase.get_lengths],
    [{k: length_transform_fn(v[NUM_SAMPLES]) for k, v in ...items()}]. *)
Fixpoint lengths_of (length_transform_fn : value -> value)
    (items : dict record) (dataset_lengths : dict value) : result (dict value) :=
  match items with
  | [] => Val dataset_lengths
  | (k, v) :: rest =>
      match dict_get NUM_SAMPLES v with
      | None => Exc (KeyError NUM_SAMPLES)
      | Some n =>
          lengths_of length_transform_fn rest
            (dict_set k (length_transform_fn n) dataset_lengths)
      end
  end.

(** The loop of [KaldiDatabase.get_lengths] over [datasets]; a name that is
    [None] is no key of the document. *)
Fixpoint get_lengths_loop (database_dict : document)
    (length_transform_fn : value -> value) (datasets : list (option string))
    (lengths : dict value) : result (dict value) :=
  match datasets with
  | [] => Val lengths
  | dataset :: rest =>
      let attempt :=
        match dataset ≫= (fun name => dict_get name database_dict) with
        | None => Exc (KeyError (default "None" dataset))
        | Some items => lengths_of length_transform_fn items []
        end in
      match attempt with
      | Exc (KeyError _) => Exc NotImplementedError
      | Exc e => Exc e
      | Val dataset_lengths =>
          get_lengths_loop database_dict length_transform_fn rest
            (dict_merge lengths dataset_lengths)
      end
  end.

(** [KaldiDatabase.get_lengths(datasets, length_transform_fn)]. *)
Definition get_lengths (database_dict : document) (datasets : names_arg)
    (length_transform_fn : value -> value) : result (dict value) :=
  let datasets :=
    match datasets with
    | ListArg names => Some <$> names
    | StrArg name => [Some name]
    | NoneArg => [None]
    end in
  get_lengths_loop database_dict length_transform_fn datasets [].

End KaldiDatabase.
End KaldiDatabase.

(** ** Concrete documents used to run the definitions *)

Module Examples.
Import Database KaldiDatabase lazy_dataset.

(** Values for the constants of [paderbox.database.keys], as paderbox
    spells them; only the concrete examples below depend on them. *)
#[export] Instance paderbox_keys : Keys := {|
  EXAMPLE_ID := "example_id";
  DATASET_NAME := "dataset";
  NUM_SAMPLES := "num_samples";
  OBSERVATION := "observation";
  AUDIO_PATH := "audio_path";
  SPEAKER_ID := "speaker_id";
  GENDER := "gender";
  KALDI_TRANSCRIPTION := "kaldi_transcription";
|}.

(** The scenario document of the specification: two datasets and the alias
    [all] of both. *)
Definition scenario_doc : dict (dict record) :=
  [("train", [("u1", [("speaker_id", VStr "s1")])]);
   ("test", [("u2", [("speaker_id", VStr "s2")])])].

Definition scenario_alias : option (dict (list string)) :=
  Some [("all", ["train"; "test"])].

Definition scenario : database_doc * state :=
  Eval vm_compute in load_document scenario_doc scenario_alias.

Definition scenario_db : database_doc := scenario.1.
Definition scenario_st : state := scenario.2.

(** A recipe directory with a dataset whose [wav.scp] names [u3], which
    [utt2spk] lacks, and a well-formed sibling; neither has a [utt2dur]. *)
Definition dir_bad : dataset_dir :=
  {| wav_scp := [("u1", ["/a/u1.wav"]); ("u3", ["/a/u3.wav"])];
     utt2spk := Some [("u1", "s1")];
     text := Some [("u1", VStr "hello"); ("u3", VStr "world")];
     spk2gender := None;
     utt2dur := None |}.

Definition dir_good : dataset_dir :=
  {| wav_scp := [("u2", ["sph2pipe"; "-f"; "wav"; "/a/u2.sph"; "|"])];
     utt2spk := Some [("u2", "s2")];
     text := Some [("u2", VStr "good")];
     spk2gender := Some [("s2", "f")];
     utt2dur := None |}.

Definition egs_mixed : egs := [("bad", dir_bad); ("good", dir_good)].

(** The same malformed dataset, whose [text] also lacks the line of [u1]. *)
Definition dir_bad_text : dataset_dir :=
  {| wav_scp := wav_scp dir_bad;
     utt2spk := utt2spk dir_bad;
     text := Some [("u3", VStr "world")];
     spk2gender := None;
     utt2dur := None |}.

Definition egs_abort : egs := [("bad", dir_bad_text); ("good", dir_good)].

(** Two datasets that share the identifier [u2], and their alias. *)
Definition conflict_db : database_doc :=
  {| datasets := [("A", [("u1", 0); ("u2", 1)]); ("B", [("u2", 2); ("u3", 3)])];
     alias := Some [("both", ["A"; "B"])] |}.

(** A document with an empty dataset. *)
Definition empty_db : database_doc :=
  {| datasets := [("train", [("u1", 0)]); ("empty", [])]; alias := None |}.

Definition empty_st : state :=
  {| heap := [[("speaker_id", VStr "s1")]]; wrappers := []; cache := [] |}.

(** Six datasets whose names differ from [dev] by one character each. *)
Definition six_db : database_doc :=
  {| datasets := [("dev1", [("u1", 0)]); ("dev2", [("u2", 1)]); ("dev3", [("u3", 2)]);
                  ("dev4", [("u4", 3)]); ("dev5", [("u5", 4)]); ("dev6", [("u6", 5)])];
     alias := None |}.

Definition six_st : state :=
  {| heap := [[]; []; []; []; []; []]; wrappers := []; cache := [] |}.

(** The store of the scenario after [get_dataset('train')], and after
    [get_dataset('all')] called next. *)
Definition after_train : state :=
  Eval vm_compute in final_state (get_dataset scenario_db (StrArg "train") scenario_st).

Definition after_all : state :=
  Eval vm_compute in final_state (get_dataset scenario_db (StrArg "all") after_train).



End Examples.

(** ** Notions used to state the properties *)

Module Spec.
Import Database lazy_dataset.

(** Some identifier is a key of two of the dictionaries [ds] (at two
    different positions of the list). *)
Definition shared_id (ds : list (dict ref)) : Prop :=
  exists i j di dj k,
    i < j /\ ds !! i = Some di /\ ds !! j = Some dj /\
    k ∈ dict_keys di /\ k ∈ dict_keys dj.

(** Some key of [acc] is a key of one of the dictionaries [ds]. *)
Definition touches (acc : dict ref) (ds : list (dict ref)) : Prop :=
  exists k dj, dj ∈ ds /\ k ∈ dict_keys acc /\ k ∈ dict_keys dj.

(** What the weak dictionary promises about the document [D]: a cached
    name resolves to a non-empty mapping, and its wrapper holds the
    records of that mapping as they were in some store [h]. *)
Definition cache_ok (D : database_doc) (st : state) : Prop :=
  forall name w,
    (name, w) ∈ cache st ->
    exists examples h,
      _get_dataset_from_database_dict D name = Val examples /\
      examples <> [] /\ wrappers st !! w = Some (snapshot h examples).

(** [st'] comes after [st] through calls of [get_dataset] and collections
    during which the wrapper [w] stays referenced from outside. *)
Inductive survives `{K : Keys} (D : database_doc) (w : wid) : state -> state -> Prop :=
| survives_refl st : survives D w st st
| survives_call st st' names :
    survives D w st st' ->
    survives D w st (final_state (get_dataset D names st'))
| survives_collect st st' alive :
    survives D w st st' -> alive w = true ->
    survives D w st (collect alive st').

(** [example'] agrees with [example] on every field other than the two
    that [get_dataset] writes. *)
Definition same_other_fields `{K : Keys} (example example' : record) : Prop :=
  forall k, k <> EXAMPLE_ID -> k <> DATASET_NAME ->
    dict_get k example' = dict_get k example.

(** Every record of [h] is still there in [h'], at the same address, with
    its other fields unchanged; no record was added or removed. *)
Definition heap_frame `{K : Keys} (h h' : list record) : Prop :=
  length h' = length h /\
  forall r example, h !! r = Some example ->
    exists example', h' !! r = Some example' /\ same_other_fields example example'.

(** No record object is stored under two different keys of [examples]. *)
Definition one_key_per_record (examples : dict ref) : Prop :=
  forall example_id example_id' r,
    (example_id, r) ∈ examples -> (example_id', r) ∈ examples ->
    example_id = example_id'.

(** What the scans of [find_longest_match] keep: the initial triple, or a
    block that lies inside the first [n] elements. *)
Definition block_within (n : nat) (best : nat * nat * nat) : Prop :=
  best = (0, 0, 0) \/ (0 < best.2 /\ best.1.1 + best.2 <= n).

(** Scores with a denominator that is not zero. *)
Definition proper (p : difflib.frac * string) : Prop := 0 < p.1.2.

(** Descending order of the scored pairs. *)
Definition desc (p q : difflib.frac * string) : Prop := difflib.scored_le q p = true.

(** The score [get_close_matches] sorts by: the similarity ratio of the
    valid name [x] to the queried [name], then [x] itself. *)
Definition score (name x : string) : difflib.frac * string :=
  (difflib.ratio x name, x).

(** [x] ranks at least as high as [valid] among the suggestions for [name]. *)
Definition ranks_at_least (name valid x : string) : Prop :=
  difflib.scored_le (score name valid) (score name x) = true.

#[export] Instance ranks_at_least_dec name valid x : Decision (ranks_at_least name valid x).
Proof. unfold ranks_at_least. apply _. Defined.

(** [b] is [a] with one character replaced, left out or added. *)
Fixpoint one_edit (a b : list ascii) : bool :=
  match a, b with
  | x :: a', y :: b' =>
      if bool_decide (x = y) then one_edit a' b'
      else bool_decide (a' = b') || bool_decide (a' = b) || bool_decide (a = b')
  | [_], [] | [], [_] => true
  | _, _ => false
  end.

Definition single_character_typo (name valid : string) : bool :=
  one_edit (difflib.chars name) (difflib.chars valid).

(** *** Kaldi recipe directories *)

Section KaldiSpec.
Import KaldiDatabase.
Context `{K : Keys}.

(** One line of [wav.scp] from which a whole record can be built: it has
    a path, a speaker, a gender when there is a gender table, and a
    transcription. *)
Definition complete_entry (u : dict string) (t : dict value)
    (g : option (dict string)) (entry : string * list string) : Prop :=
  (exists p, _audio_path entry.2 = Val p) /\
  (exists spk, dict_get entry.1 u = Some spk /\
     match g with
     | None => True
     | Some table => is_Some (dict_get spk table)
     end) /\
  is_Some (dict_get entry.1 t).

(** The directory would load but for [example_id]: its [utt2spk] and
    [text] exist, [wav.scp] lists [example_id] with a usable path after
    complete lines only, and [utt2spk] has no line for [example_id]. *)
Definition lacks_speaker (dir : dataset_dir) (example_id : string) : Prop :=
  exists u t pre s post,
    utt2spk dir = Some u /\ text dir = Some t /\
    wav_scp dir = pre ++ (example_id, s) :: post /\
    Forall (complete_entry u t (spk2gender dir)) pre /\
    (exists p, _audio_path s = Val p) /\
    dict_get example_id u = None.

(** The directory loads, or is skipped as malformed. *)
Definition loads_or_malformed (e : string * dataset_dir) : Prop :=
  match get_examples_from_dataset e.1 e.2 with
  | Val _ => True
  | Exc (MalformedDatasetError _ _) => True
  | Exc _ => False
  end.

Definition loaded_entry (e : string * dataset_dir) : option (string * dict record) :=
  match get_examples_from_dataset e.1 e.2 with
  | Val examples => Some (e.1, examples)
  | Exc _ => None
  end.

Definition skipped_entry (e : string * dataset_dir) : option log_record :=
  match get_examples_from_dataset e.1 e.2 with
  | Exc (MalformedDatasetError example_id path) =>
      Some (Warning (MalformedDatasetError example_id path))
  | _ => None
  end.


(** Every duration that a [utt2dur] table of the recipe lists is the
    literal of a number: [float] converts it. *)
Definition durations_convert (float : string -> option value) (egs_path : egs)
    : Prop :=
  forall name table k v,
    dict_get name egs_path ≫= utt2dur = Some table ->
    (k, v) ∈ table -> is_Some (float v).


End KaldiSpec.

End Spec.

(** ** The module-level function [to_list] *)

Module ToList.
Import Database.

(** The Python objects [to_list] is applied to: an [int], a [str], a
    [list], a [tuple], and a view [dict.keys()] as an example of an
    iterable that is neither a list nor a tuple. *)
#[local] Unset Elimination Schemes.
Inductive object : Type :=
| OInt (n : Z)
| OStr (s : string)
| OList (items : list object)
| OTuple (items : list object)
| ODictKeys (items : list object).
#[local] Set Elimination Schemes.

(** The classes of these objects, and the classes they inherit from or
    are registered with: [object], and the abstract base classes
    [Sequence] and [Iterable] of [collections.abc], which the docstring of
    [to_list] mentions. *)
Inductive class : Type :=
| Cobject | Cint | Cstr | Clist | Ctuple | Cdict_keys | CSequence | CIterable.

#[export] Instance class_eq_dec : EqDecision class.
Proof. solve_decision. Defined.

Definition type (x : object) : class :=
  match x with
  | OInt _ => Cint
  | OStr _ => Cstr
  | OList _ => Clist
  | OTuple _ => Ctuple
  | ODictKeys _ => Cdict_keys
  end.

(** [issubclass(c, d)]: every class is a subclass of itself and of
    [object]; [str], [list] and [tuple] are sequences; a sequence is
    iterable, and so is a view [dict.keys()]. *)
Definition issubclass (c d : class) : bool :=
  match d with
  | Cobject => true
  | CSequence =>
      match c with
      | Cstr | Clist | Ctuple | CSequence => true
      | _ => false
      end
  | CIterable =>
      match c with
      | Cstr | Clist | Ctuple | Cdict_keys | CSequence | CIterable => true
      | _ => false
      end
  | _ => bool_decide (c = d)
  end.

(** [isinstance(x, classes)], [classes] being a class (a list of one
    class here) or a tuple of classes. *)
Definition isinstance (x : object) (classes : list class) : bool :=
  existsb (issubclass (type x)) classes.

(** [list(x)]: the elements [x] yields ([str] yields its characters);
    [None] is the [TypeError] for an object that is not iterable. *)
Definition list_ (x : object) : option (list object) :=
  match x with
  | OInt _ => None
  | OStr s => Some ((fun c => OStr (String c EmptyString)) <$> list_ascii_of_string s)
  | OList items | OTuple items | ODictKeys items => Some items
  end.

(** [to_list(x, item_type)]; [item_type] is [None], a class or a tuple
    of classes. *)
Definition to_list (x : object) (item_type : option (list class)) : option object :=
  match item_type with
  | None => if isinstance x [Clist; Ctuple] then Some x else Some (OList [x])
  | Some item_type =>
      if isinstance x item_type then Some (OList [x]) else OList <$> list_ x
  end.

(** The argument [names] of [get_dataset] as a Python object. *)
Definition of_names (names : names_arg) : option object :=
  match names with
  | NoneArg => None
  | StrArg name => Some (OStr name)
  | ListArg names => Some (OList (OStr <$> names))
  end.

End ToList.

(** ** class HybridASRDatabaseTemplate *)

Module HybridASRDatabaseTemplate.
Import Database lazy_dataset.

(** A [pathlib.Path] as the list of its components, an absolute path
    starting with the empty component; [p / name] for a name that is one
    relative component, and [str(p)]. *)
Definition truediv (p : list string) (name : string) : list string := p ++ [name].
Definition str (p : list string) : string := String.concat "/" p.

(** An instance of a class that derives from the template: the flag [lfr],
    what its properties return that the template leaves to the subclass
    (in the template itself each raises [NotImplementedError]), and the
    tables that [kaldi.io] reads from [words_txt] and [phones]. *)
Record template : Type := {
  lfr : bool;
  ali_path_train_ffr : result (list string);
  ali_path_train_lfr : result (list string);
  hclg_path_ffr : result (list string);
  _word2id_dict : dict Z;
  _id2word_dict : list (Z * string);
  _phone2id_dict : dict string;
}.

(** The properties of the class [HybridASRDatabaseTemplate] itself. *)
Definition abstract : result (list string) := Exc NotImplementedError.

Definition on_path {A} (f : list string -> A) (p : result (list string)) : result A :=
  match p with
  | Val p => Val (f p)
  | Exc e => Exc e
  end.

Definition ali_path_train (self : template) : result (list string) :=
  if lfr self then ali_path_train_lfr self else ali_path_train_ffr self.

Definition hclg_path_lfr (self : template) : result (list string) :=
  on_path (fun p => truediv p "graph_tgpr_5k") (ali_path_train_lfr self).

Definition hclg_path (self : template) : result (list string) :=
  if lfr self then hclg_path_lfr self else hclg_path_ffr self.

Definition decode_fst (self : template) : result string :=
  on_path (fun p => str (truediv p "HCLG.fst")) (hclg_path self).

Definition words_txt (self : template) : result string :=
  on_path (fun p => str (truediv p "words.txt")) (hclg_path self).

Definition model_file (self : template) : result string :=
  on_path (fun p => str (truediv p "final.mdl")) (ali_path_train self).

Definition tree_file (self : template) : result string :=
  on_path (fun p => str (truediv p "tree")) (ali_path_train self).

Definition phones (self : template) : result string :=
  on_path (fun p => str (truediv p "phones.txt")) (ali_path_train self).

Definition occs_file_ffr (self : template) : result string :=
  on_path (fun p => str (truediv p "final.occs")) (ali_path_train_ffr self).

Definition occs_file_lfr (self : template) : result string :=
  on_path (fun p => str (truediv p "1.occs")) (ali_path_train_lfr self).

Definition occs_file (self : template) : result string :=
  if lfr self then occs_file_lfr self else occs_file_ffr self.

(** A dictionary with [int] keys. *)
Fixpoint int_dict_get {V} (k : Z) (d : list (Z * V)) : option V :=
  match d with
  | [] => None
  | (k', v) :: d' => if decide (k = k') then Some v else int_dict_get k d'
  end.

Fixpoint int_dict_set {V} (k : Z) (v : V) (d : list (Z * V)) : list (Z * V) :=
  match d with
  | [] => [(k, v)]
  | (k', v') :: d' =>
      if decide (k = k') then (k', v) :: d' else (k', v') :: int_dict_set k v d'
  end.

(** [word2id(word)]: "If the word is not found, it returns the ID for
    [<UNK>]". *)
Definition word2id (self : template) (word : string) : result Z :=
  match dict_get word (_word2id_dict self) with
  | Some i => Val i
  | None =>
      match dict_get "<UNK>" (_word2id_dict self) with
      | Some i => Val i
      | None => Exc (KeyError "<UNK>")
      end
  end.

(** [id2word(_id)]; [None] is [KeyError(_id)]. *)
Definition id2word (self : template) (_id : Z) : option string :=
  int_dict_get _id (_id2word_dict self).

(** [phone2id(phone)]: the identifier as [phones.txt] spells it; [None] is
    [KeyError(phone)]. *)
Definition phone2id (self : template) (phone : string) : option string :=
  dict_get phone (_phone2id_dict self).

(** What [id2phone] returns or raises. *)
Inductive id2phone_result : Type :=
| Phone (phone : string)
| KeyError_id (id_ : Z)
| ValueError (literal : string).

Section Phones.
(** Python's [int] on a [str]; [None] is its [ValueError]. *)
Variable int : string -> option Z.

(** The dict comprehension [{int(v): k for k, v in ...items()}]; it stops
    at the first [v] that [int] rejects. *)
Fixpoint invert (items : dict string) (acc : list (Z * string))
    : string + list (Z * string) :=
  match items with
  | [] => inr acc
  | (k, v) :: rest =>
      match int v with
      | None => inl v
      | Some i => invert rest (int_dict_set i k acc)
      end
  end.

Definition _id2phone_dict (self : template) : string + list (Z * string) :=
  invert (_phone2id_dict self) [].

(** [id2phone(id_)]. *)
Definition id2phone (self : template) (id_ : Z) : id2phone_result :=
  match _id2phone_dict self with
  | inl v => ValueError v
  | inr d =>
      match int_dict_get id_ d with
      | Some phone => Phone phone
      | None => KeyError_id id_
      end
  end.

End Phones.

(** The list comprehension [[ex[EXAMPLE_ID] for ex in iterator]]. *)
Fixpoint example_ids `{K : Keys} (iterator : list record) : result (list value) :=
  match iterator with
  | [] => Val []
  | ex :: rest =>
      match dict_get EXAMPLE_ID ex with
      | None => Exc (KeyError EXAMPLE_ID)
      | Some example_id =>
          match example_ids rest with
          | Exc e => Exc e
          | Val ids => Val (example_id :: ids)
          end
      end
  end.

(** [utterances_for_dataset(dataset)], for a class that also derives from
    [Database]. *)
Definition utterances_for_dataset `{K : Keys} (D : database_doc)
    (dataset : names_arg) : M (list value) :=
  (iterator <- get_iterator_by_names D dataset;;
   examples <- iterate iterator;;
   lift (fun _ => example_ids examples))%py.

End HybridASRDatabaseTemplate.

(** ** Further notions used to state properties *)

Module Notions.
Import Database KaldiDatabase lazy_dataset Spec.

(** The name resolves to a mapping that is not empty. *)
Definition resolves (D : database_doc) (name : string) (examples : dict ref) : Prop :=
  _get_dataset_from_database_dict D name = Val examples /\ examples <> [].

(** The identifier [k] is a key of two of the dictionaries [ds]. *)
Definition shared_at (ds : list (dict ref)) (k : string) : Prop :=
  exists i j di dj,
    i < j /\ ds !! i = Some di /\ ds !! j = Some dj /\
    k ∈ dict_keys di /\ k ∈ dict_keys dj.

(** No record object of the document is stored under two different
    identifiers, in one dataset or in two. *)
Definition ids_consistent (D : database_doc) : Prop :=
  forall n1 n2 ex1 ex2 id1 id2 r,
    dict_get n1 (datasets D) = Some ex1 -> (id1, r) ∈ ex1 ->
    dict_get n2 (datasets D) = Some ex2 -> (id2, r) ∈ ex2 ->
    id1 = id2.

(** Every record of the document that has a field [EXAMPLE_ID] holds its
    own identifier there. *)
Definition example_ids_in_place `{K : Keys} (D : database_doc) (h : list record)
    : Prop :=
  forall n ex id r e v,
    dict_get n (datasets D) = Some ex -> (id, r) ∈ ex ->
    h !! r = Some e -> dict_get EXAMPLE_ID e = Some v ->
    v = VStr id.

(** Every record the document refers to is an object of the store. *)
Definition doc_refs_valid (D : database_doc) (h : list record) : Prop :=
  forall n ex id r,
    dict_get n (datasets D) = Some ex -> (id, r) ∈ ex -> r < length h.

(** The record [s] that a wrapper built for [name] over the mapping
    [examples] yields for the item [kv]: a copy of the record object
    [kv.2], made when the wrapper was built.  It carries the name the
    wrapper was built for and an identifier under which [examples] stores
    the record object (the key [kv.1], when [examples] stores no record
    under two keys); its other fields are those the record object has in
    the store [h]. *)
Definition yielded `{K : Keys} (name : string) (examples : dict ref)
    (h : list record) (kv : string * ref) (s : record) : Prop :=
  dict_get DATASET_NAME s = Some (VStr name) /\
  (exists example_id,
     (example_id, kv.2) ∈ examples /\
     dict_get EXAMPLE_ID s = Some (VStr example_id)) /\
  exists example, h !! kv.2 = Some example /\ same_other_fields example s.

(** [ys] are the records of the dataset [name], one for every item of
    [examples], in the order of [examples]. *)
Definition yields_dataset `{K : Keys} (name : string) (examples : dict ref)
    (h : list record) (ys : list record) : Prop :=
  Forall2 (yielded name examples h) examples ys.

(** Every wrapper of the weak dictionary holds the records of the dataset
    of its name, under the keys of the resolved mapping. *)
Definition wrappers_hold `{K : Keys} (D : database_doc) (st : state) : Prop :=
  forall name w,
    (name, w) ∈ cache st ->
    exists examples snap,
      resolves D name examples /\
      wrappers st !! w = Some snap /\
      dict_keys snap = dict_keys examples /\
      yields_dataset name examples (heap st) (dict_values snap).

(** The fields of a record that [get_examples_from_dataset] builds. *)
Definition record_fields `{K : Keys} : list string :=
  [AUDIO_PATH; SPEAKER_ID; GENDER; KALDI_TRANSCRIPTION].

(** [example] holds what the tables say about the line [line] of
    [wav.scp]: its path, its speaker, its transcription, the gender of the
    speaker when there is a gender table, and nothing else. *)
Definition built_from `{K : Keys} (u : dict string) (t : dict value)
    (g : option (dict string)) (line : string * list string) (example : record)
    : Prop :=
  exists p spk tr,
    _audio_path line.2 = Val p /\
    dict_get line.1 u = Some spk /\
    dict_get line.1 t = Some tr /\
    dict_get AUDIO_PATH example = Some (VDict [(OBSERVATION, VStr p)]) /\
    dict_get SPEAKER_ID example = Some (VStr spk) /\
    dict_get KALDI_TRANSCRIPTION example = Some tr /\
    dict_get GENDER example = VStr <$> (g ≫= dict_get spk) /\
    forall k, k ∈ dict_keys example -> k ∈ record_fields.

(** A line of [wav.scp] that has a speaker but cannot be turned into a
    record, and the exception this raises: no token at all, a speaker the
    gender table lacks, or no transcription. *)
Definition line_defect (u : dict string) (t : dict value)
    (g : option (dict string)) (line : string * list string) (e : exn) : Prop :=
  (line.2 = [] /\ e = IndexError) \/
  (exists p spk table,
     _audio_path line.2 = Val p /\ dict_get line.1 u = Some spk /\
     g = Some table /\ dict_get spk table = None /\ e = KeyError spk) \/
  (exists p spk,
     _audio_path line.2 = Val p /\ dict_get line.1 u = Some spk /\
     match g with
     | None => True
     | Some table => is_Some (dict_get spk table)
     end /\
     dict_get line.1 t = None /\ e = KeyError line.1).

(** The duration the recipe gives for the identifier [k] when the
    [utt2dur] tables of the datasets [names] are read in this order: that
    of the last dataset whose table lists [k]. *)
Fixpoint last_duration (egs_path : egs) (names : list string) (k : string)
    : option string :=
  match names with
  | [] => None
  | name :: rest =>
      match last_duration egs_path rest k with
      | Some v => Some v
      | None => (dict_get name egs_path ≫= utt2dur) ≫= dict_get k
      end
  end.

(** The dataset [name] of the recipe has a [utt2dur] table. *)
Definition has_durations (egs_path : egs) (name : string) : Prop :=
  exists table, dict_get name egs_path ≫= utt2dur = Some table /\ dict_wf table.

(** [items'] is [items] with the field [NUM_SAMPLES] of every record set
    to what [num_samples] gives for its identifier. *)
Definition with_num_samples `{K : Keys} (num_samples : string -> option value)
    (items items' : dict record) : Prop :=
  Forall2 (fun kv kv' =>
             kv'.1 = kv.1 /\
             exists n, num_samples kv.1 = Some n /\
               kv'.2 = dict_set NUM_SAMPLES n kv.2)
          items items'.

End Notions.

(** ** Further concrete documents *)

Module Fixtures.
Import Database KaldiDatabase lazy_dataset Examples HybridASRDatabaseTemplate.

(** An alias that lists another alias. *)
Definition nested_db : database_doc :=
  {| datasets := [("train", [("u1", 0)])];
     alias := Some [("all", ["train"]); ("everything", ["train"; "all"])] |}.

Definition nested_st : state :=
  {| heap := [[("speaker_id", VStr "s1")]]; wrappers := []; cache := [] |}.

(** The scenario with a second alias that lists the datasets the other
    way round. *)
Definition reordered_db : database_doc :=
  {| datasets := datasets scenario_db;
     alias := Some [("all", ["train"; "test"]); ("lla", ["test"; "train"])] |}.

(** The records of [conflict_db]. *)
Definition conflict_st : state :=
  {| heap := [[]; []; []; []]; wrappers := []; cache := [] |}.

(** A dataset whose records have sample counts, one of them as a [dict]
    with the entry [observation]. *)
Definition sized_db : database_doc :=
  {| datasets := [("train", [("u1", 0); ("u2", 1)])]; alias := None |}.

Definition sized_st : state :=
  {| heap := [[("num_samples", VNum 16000)];
              [("num_samples", VDict [("observation", VNum 8000)])]];
     wrappers := []; cache := [] |}.

(** A recipe with two datasets that both list [u1], with different
    durations. *)
Definition dir_a : dataset_dir :=
  {| wav_scp := [("u1", ["/a/u1.wav"])];
     utt2spk := Some [("u1", "s1")];
     text := Some [("u1", VStr "hello")];
     spk2gender := None;
     utt2dur := Some [("u1", "1")] |}.

Definition dir_b : dataset_dir :=
  {| wav_scp := [("u1", ["/b/u1.wav"]); ("u2", ["/b/u2.wav"])];
     utt2spk := Some [("u1", "s1"); ("u2", "s2")];
     text := Some [("u1", VStr "hello"); ("u2", VStr "world")];
     spk2gender := None;
     utt2dur := Some [("u1", "2"); ("u2", "3")] |}.

Definition egs_durations : egs := [("a", dir_a); ("b", dir_b)].



(** The documents scanned from these recipes. *)
Definition doc_durations : document :=
  Eval vm_compute in
    match get_dataset_dict_from_kaldi egs_durations with
    | (Val doc, _) => doc
    | _ => []
    end.


(** [int] on a [str] of decimal digits. *)
Definition digit (c : ascii) : option Z :=
  let n := nat_of_ascii c in
  if (48 <=? n) && (n <=? 57) then Some (Z.of_nat (n - 48)) else None.

Fixpoint int_digits (s : string) (acc : Z) : option Z :=
  match s with
  | EmptyString => Some acc
  | String c s' =>
      match digit c with
      | Some d => int_digits s' (10 * acc + d)%Z
      | None => None
      end
  end.

Definition int_decimal (s : string) : option Z :=
  match s with
  | EmptyString => None
  | _ => int_digits s 0%Z
  end.

(** [float] on the literals of whole numbers of seconds, which is all
    these recipes use; any other text is rejected. *)
Definition float_seconds (s : string) : option value := VNum <$> int_decimal s.

(** A seconds-to-samples transform, for a sample rate of 16 kHz. *)
Definition seconds (v : value) : value :=
  match v with
  | VNum n => VNum (16000 * n)
  | _ => v
  end.

(** A recipe whose only [utt2dur] has a line that is no number. *)
Definition dir_text_duration : dataset_dir :=
  {| wav_scp := [("u1", ["/c/u1.wav"])];
     utt2spk := Some [("u1", "s1")];
     text := Some [("u1", VStr "hello")];
     spk2gender := None;
     utt2dur := Some [("u1", "n/a")] |}.

Definition egs_text_duration : egs := [("c", dir_text_duration)].

(** An instance of the template with a vocabulary of two words and three
    phones. *)
Definition small_template : template :=
  {| lfr := true;
     ali_path_train_ffr := abstract;
     ali_path_train_lfr := Val [""; "exp"; "tri_lfr"];
     hclg_path_ffr := abstract;
     _word2id_dict := [("<eps>", 0%Z); ("<UNK>", 1%Z); ("hello", 2%Z)];
     _id2word_dict := [(0%Z, "<eps>"); (1%Z, "<UNK>"); (2%Z, "hello")];
     _phone2id_dict := [("sil", "1"); ("a", "2"); ("b", "3")] |}.

(** An instance whose [phones.txt] gives the phone [a] an identifier that
    is no number. *)
Definition broken_template : template :=
  {| lfr := true;
     ali_path_train_ffr := abstract;
     ali_path_train_lfr := Val [""; "exp"; "tri_lfr"];
     hclg_path_ffr := abstract;
     _word2id_dict := [];
     _id2word_dict := [];
     _phone2id_dict := [("sil", "1"); ("a", "2 x")] |}.

End Fixtures.

(** Well-formedness of a list of concrete dictionaries, by computation. *)
Ltac solve_dict_wf :=
  repeat (apply Forall_cons; split; [unfold dict_wf, dict_keys; compute_done|]);
  constructor.

(** * Properties *)

Import Database KaldiDatabase lazy_dataset Examples Spec.

(** ** Facts about dictionaries *)

Section DictFacts.
Context {V : Type}.
Implicit Types (d : dict V) (k : string) (v : V).

Lemma dict_get_None k d : dict_get k d = None <-> k ∉ dict_keys d.
Proof.
  unfold dict_keys. induction d as [|[k' v'] d IH]; simpl.
  - split; [intros _; apply not_elem_of_nil | done].
  - rewrite not_elem_of_cons. destruct (decide (k = k')); [split; [done|tauto]|].
    rewrite IH. tauto.
Qed.

Lemma dict_get_Some_elem k v d : dict_get k d = Some v -> (k, v) ∈ d.
Proof.
  induction d as [|[k' v'] d IH]; simpl; [done|].
  destruct (decide (k = k')) as [->|Hne].
  - intros [= ->]. apply list_elem_of_here.
  - intros H. apply list_elem_of_further. auto.
Qed.

Lemma dict_get_is_Some k d : is_Some (dict_get k d) <-> k ∈ dict_keys d.
Proof.
  destruct (dict_get k d) eqn:E.
  - split; [intros _|eauto]. apply dict_get_Some_elem in E.
    unfold dict_keys. apply list_elem_of_fmap. by exists (k, v).
  - apply dict_get_None in E. split; [intros [? [=]]|done].
Qed.

Lemma dict_get_elem_wf k v d : dict_wf d -> (k, v) ∈ d -> dict_get k d = Some v.
Proof.
  unfold dict_wf, dict_keys.
  induction d as [|[k' v'] d IH]; simpl; intros Hwf Hin.
  - by apply elem_of_nil in Hin.
  - apply NoDup_cons in Hwf as [Hk' Hwf].
    apply elem_of_cons in Hin as [[= -> ->]|Hin].
    + by rewrite decide_True.
    + rewrite decide_False; [auto|]. intros ->. apply Hk'.
      apply list_elem_of_fmap. by exists (k', v).
Qed.

Lemma dict_get_set_eq k v d : dict_get k (dict_set k v d) = Some v.
Proof.
  induction d as [|[k' v'] d IH]; simpl.
  - by rewrite decide_True.
  - destruct (decide (k = k')) as [->|Hne]; simpl.
    + by rewrite decide_True.
    + by rewrite decide_False.
Qed.

Lemma dict_get_set_ne k k' v d :
  k <> k' -> dict_get k' (dict_set k v d) = dict_get k' d.
Proof.
  intros Hne. induction d as [|[k0 v0] d IH]; simpl.
  - by rewrite decide_False.
  - destruct (decide (k = k0)) as [->|Hne0]; simpl.
    + by rewrite !decide_False.
    + by rewrite IH.
Qed.

Lemma dict_set_set k v w d : dict_set k v (dict_set k w d) = dict_set k v d.
Proof.
  induction d as [|[k0 v0] d IH]; simpl.
  - by rewrite decide_True.
  - destruct (decide (k = k0)) as [->|Hne]; simpl.
    + by rewrite decide_True.
    + by rewrite decide_False, IH.
Qed.

Lemma dict_set_fresh k v d : k ∉ dict_keys d -> dict_set k v d = d ++ [(k, v)].
Proof.
  unfold dict_keys. induction d as [|[k0 v0] d IH]; simpl; [done|].
  rewrite not_elem_of_cons. intros [Hne Hnin].
  by rewrite decide_False, IH.
Qed.

Lemma dict_keys_app d1 d2 : dict_keys (d1 ++ d2) = dict_keys d1 ++ dict_keys d2.
Proof. unfold dict_keys. apply fmap_app. Qed.

(** [{**d1, **d2}] for dictionaries that share no key: the items of [d1],
    then the items of [d2]. *)
Lemma dict_merge_disjoint d1 d2 :
  dict_wf d2 ->
  (forall k, k ∈ dict_keys d2 -> k ∉ dict_keys d1) ->
  dict_merge d1 d2 = d1 ++ d2.
Proof.
  unfold dict_merge, dict_wf. revert d1.
  induction d2 as [|[k v] d2 IH]; intros d1 Hwf Hdis; simpl.
  - by rewrite app_nil_r.
  - unfold dict_keys in Hwf. simpl in Hwf. apply NoDup_cons in Hwf as [Hk Hwf].
    rewrite dict_set_fresh by (apply Hdis; unfold dict_keys; simpl; apply list_elem_of_here).
    rewrite IH; [by rewrite <- app_assoc| done |].
    intros k' Hk'. rewrite dict_keys_app. rewrite elem_of_app.
    intros [Hin|Hin].
    + eapply Hdis; [|done]. unfold dict_keys. simpl. by apply list_elem_of_further.
    + simpl in Hin. apply list_elem_of_singleton in Hin as ->. done.
Qed.

Lemma keys_intersection_nil d1 d2 :
  keys_intersection d1 d2 = [] <->
  (forall k, k ∈ dict_keys d1 -> k ∉ dict_keys d2).
Proof.
  unfold keys_intersection. split.
  - intros Hnil k Hin1 Hin2.
    exact (filter_nil_not_elem_of (fun k => k ∈ dict_keys d2) _ k Hnil Hin2 Hin1).
  - generalize (dict_keys d1) as l. intros l Hdis.
    induction l as [|k l IH]; [done|].
    rewrite filter_cons_False by (apply Hdis, list_elem_of_here).
    apply IH. intros k' Hk'. by apply Hdis, list_elem_of_further.
Qed.

End DictFacts.

(** ** Resolution of an alias *)

Section AliasResolution.
Variable D : database_doc.

Lemma shared_id_cons d ds : shared_id (d :: ds) <-> touches d ds \/ shared_id ds.
Proof.
  unfold shared_id, touches. split.
  - intros (i & j & di & dj & k & Hij & Hi & Hj & Hki & Hkj).
    destruct j as [|j]; [lia|]. simpl in Hj. destruct i as [|i].
    + simpl in Hi. injection Hi as <-. left. exists k, dj.
      split; [by eapply list_elem_of_lookup_2|done].
    + simpl in Hi. right. exists i, j, di, dj, k. repeat split; try done. lia.
  - intros [(k & dj & Hdj & Hk & Hkj)|(i & j & di & dj & k & Hij & Hi & Hj & Hki & Hkj)].
    + apply list_elem_of_lookup_1 in Hdj as [j Hj].
      exists 0, (S j), d, dj, k. repeat split; try done. lia.
    + exists (S i), (S j), di, dj, k. repeat split; try done. lia.
Qed.

Lemma touches_cons acc d ds :
  touches acc (d :: ds) <-> keys_intersection acc d <> [] \/ touches acc ds.
Proof.
  unfold touches. split.
  - intros (k & dj & Hdj & Hk & Hkj). apply elem_of_cons in Hdj as [->|Hdj].
    + left. intros Hnil. eapply keys_intersection_nil in Hnil; eauto.
    + right. eauto.
  - intros [Hne|(k & dj & Hdj & Hk & Hkj)].
    + destruct (keys_intersection acc d) as [|k l] eqn:E; [done|].
      assert (Hk : k ∈ keys_intersection acc d) by (rewrite E; apply list_elem_of_here).
      unfold keys_intersection in Hk. apply list_elem_of_filter in Hk as [Hk2 Hk1].
      exists k, d. split; [apply list_elem_of_here|done].
    + exists k, dj. split; [by apply list_elem_of_further|done].
Qed.

Lemma touches_app acc d ds :
  touches (acc ++ d) ds <-> touches acc ds \/ touches d ds.
Proof.
  unfold touches. setoid_rewrite dict_keys_app. setoid_rewrite elem_of_app.
  split.
  - intros (k & dj & Hdj & [Hk|Hk] & Hkj); [left|right]; eauto.
  - intros [(k & dj & Hdj & Hk & Hkj)|(k & dj & Hdj & Hk & Hkj)]; exists k, dj; tauto.
Qed.

(** One turn of the loop either stops on a common key or goes on with the
    concatenation. *)
Lemma shared_id_step acc d ds :
  shared_id (acc :: d :: ds) <->
  keys_intersection acc d <> [] \/ shared_id ((acc ++ d) :: ds).
Proof.
  rewrite !shared_id_cons, touches_cons, touches_app. tauto.
Qed.

Lemma merge_alias_conflict names ds acc :
  Forall2 (fun n d => dict_get n (datasets D) = Some d) names ds ->
  Forall dict_wf ds ->
  shared_id (acc :: ds) ->
  exists intersection,
    intersection <> [] /\
    merge_alias D names acc = Exc (AssertionError (VList (VStr <$> intersection))).
Proof.
  intros Hds. revert acc. induction Hds as [|n d names ds Hn Hds IH]; intros acc Hwf Hsh.
  - apply shared_id_cons in Hsh as [(k & dj & Hdj & _)|(i & j & di & dj & k & _ & Hi & _)].
    + by apply elem_of_nil in Hdj.
    + done.
  - simpl. rewrite Hn. apply Forall_cons in Hwf as [Hd Hwf].
    destruct (keys_intersection acc d) as [|k0 l] eqn:E.
    + simpl. rewrite dict_merge_disjoint; [|done|].
      * apply IH; [done|]. apply shared_id_step in Hsh as [Hne|Hsh]; [by rewrite E in Hne|done].
      * intros k Hk2 Hk1. eapply keys_intersection_nil in E; eauto.
    + exists (k0 :: l). split; [done|]. done.
Qed.

Lemma merge_alias_disjoint names ds acc :
  Forall2 (fun n d => dict_get n (datasets D) = Some d) names ds ->
  Forall dict_wf ds ->
  ~ shared_id (acc :: ds) ->
  merge_alias D names acc = Val (acc ++ concat ds).
Proof.
  intros Hds. revert acc. induction Hds as [|n d names ds Hn Hds IH]; intros acc Hwf Hsh.
  - simpl. by rewrite app_nil_r.
  - simpl. rewrite Hn. apply Forall_cons in Hwf as [Hd Hwf].
    rewrite shared_id_step in Hsh.
    destruct (keys_intersection acc d) as [|k0 l] eqn:E.
    + simpl. rewrite dict_merge_disjoint; [|done|].
      * rewrite IH; [by rewrite <- app_assoc|done|tauto].
      * intros k Hk2 Hk1. eapply keys_intersection_nil in E; eauto.
    + exfalso. apply Hsh. by left.
Qed.

Lemma shared_id_nil_cons ds : shared_id ([] :: ds) <-> shared_id ds.
Proof.
  rewrite shared_id_cons. unfold touches. split; [|tauto].
  intros [(k & dj & _ & Hk & _)|H]; [|done].
  by apply elem_of_nil in Hk.
Qed.

(** C1. Resolving an alias walks its underlying dataset names in declared
    order and unions their example mappings: when some example identifier
    is a key of two of the underlying datasets the resolution raises the
    [AssertionError] that carries the (non-empty) intersection, and when no
    identifier is shared it returns the mappings laid end to end, in the
    declared order, whose size is the sum of the sizes. *)
Theorem alias_resolution_conflict_or_union (name : string) (names : list string)
    (ds : list (dict ref)) :
  dict_get name (default [] (alias D)) = Some names ->
  Forall2 (fun n d => dict_get n (datasets D) = Some d) names ds ->
  Forall dict_wf ds ->
  (shared_id ds ->
   exists intersection,
     intersection <> [] /\
     _get_dataset_from_database_dict D name
       = Exc (AssertionError (VList (VStr <$> intersection))))
  /\
  (~ shared_id ds ->
   _get_dataset_from_database_dict D name = Val (concat ds) /\
   length (concat ds) = sum_list (length <$> ds)).
Proof.
  intros Halias Hds Hwf. unfold _get_dataset_from_database_dict. rewrite Halias.
  split.
  - intros Hsh. eapply merge_alias_conflict; eauto. by apply shared_id_nil_cons.
  - intros Hsh. split.
    + erewrite merge_alias_disjoint; eauto. by rewrite shared_id_nil_cons.
    + clear. induction ds as [|d ds' IH]; simpl; [done|].
      by rewrite length_app, IH.
Qed.

End AliasResolution.

(** ** The weak dictionary and the loop of [get_dataset] *)

Section Fetch.
Context `{K : Keys}.
Variable D : database_doc.

Lemma elem_of_dict_set {V} (k k' : string) (v v' : V) (d : dict V) :
  (k', v') ∈ dict_set k v d -> (k', v') = (k, v) \/ (k', v') ∈ d.
Proof.
  induction d as [|[k0 v0] d IH]; simpl.
  - intros ->%list_elem_of_singleton. by left.
  - destruct (decide (k = k0)) as [->|Hne]; rewrite !elem_of_cons.
    + intros [->|Hin]; [by left|by right; right].
    + intros [->|[->|Hin]%IH]; [by right; left|by left|by right; right].
Qed.

Lemma build_Val name examples st :
  _get_dataset_from_database_dict D name = Val examples ->
  examples <> [] ->
  build D name st =
    Ok (length (wrappers st))
       {| heap := augment name examples (heap st);
          wrappers :=
            wrappers st ++ [snapshot (augment name examples (heap st)) examples];
          cache := dict_set name (length (wrappers st)) (cache st) |}.
Proof.
  intros Hres Hne. unfold build. rewrite Hres.
  destruct examples; [done|]. reflexivity.
Qed.

Lemma build_Val_nil name st :
  _get_dataset_from_database_dict D name = Val [] ->
  build D name st = Raise (RuntimeError name) st.
Proof. intros Hres. unfold build. by rewrite Hres. Qed.

(** A build that raises leaves the store as it found it. *)
Lemma build_Raise name st e st' :
  build D name st = Raise e st' -> st' = st.
Proof.
  unfold build. destruct (_get_dataset_from_database_dict D name) as [examples|e0].
  - destruct examples; simpl; [by intros [= _ <-]|done].
  - destruct e0; by intros [= _ <-].
Qed.

Lemma build_Ok name st w st' :
  build D name st = Ok w st' ->
  exists examples,
    _get_dataset_from_database_dict D name = Val examples /\ examples <> [] /\
    w = length (wrappers st) /\
    st' = {| heap := augment name examples (heap st);
             wrappers :=
               wrappers st ++ [snapshot (augment name examples (heap st)) examples];
             cache := dict_set name (length (wrappers st)) (cache st) |}.
Proof.
  unfold build. destruct (_get_dataset_from_database_dict D name) as [examples|e0].
  - destruct examples as [|kv examples]; simpl; [done|].
    intros [= <- <-]. exists (kv :: examples). done.
  - destruct e0; done.
Qed.

Lemma fetch_hit name st w :
  dict_get name (cache st) = Some w -> fetch D name st = Ok w st.
Proof. intros H. unfold fetch. by rewrite H. Qed.

Lemma fetch_miss name st :
  dict_get name (cache st) = None -> fetch D name st = build D name st.
Proof. intros H. unfold fetch. by rewrite H. Qed.

(** Whatever [fetch] returns is in the weak dictionary afterwards. *)
Lemma fetch_Ok_cached name st w st' :
  fetch D name st = Ok w st' -> dict_get name (cache st') = Some w.
Proof.
  unfold fetch. destruct (dict_get name (cache st)) as [w0|] eqn:E.
  - by intros [= <- <-].
  - intros (examples & _ & _ & -> & ->)%build_Ok. simpl. apply dict_get_set_eq.
Qed.

Lemma fetch_Raise name st e st' :
  fetch D name st = Raise e st' ->
  st' = st /\ dict_get name (cache st) = None.
Proof.
  unfold fetch. destruct (dict_get name (cache st)) as [w0|] eqn:E; [done|].
  intros H%build_Raise. done.
Qed.

(** No call removes an entry of the weak dictionary or changes a wrapper. *)
Lemma fetch_keeps name st o n w :
  fetch D name st = o ->
  dict_get n (cache st) = Some w ->
  dict_get n (cache (final_state o)) = Some w.
Proof.
  intros <- Hn. unfold fetch. destruct (dict_get name (cache st)) as [w0|] eqn:E; [exact Hn|].
  destruct (build D name st) as [w' st'|e st'] eqn:Hb.
  - apply build_Ok in Hb as (examples & _ & _ & -> & ->). simpl.
    rewrite dict_get_set_ne; [done|]. intros ->. congruence.
  - apply build_Raise in Hb as ->. done.
Qed.

Lemma fetch_all_keeps names st acc n w :
  dict_get n (cache st) = Some w ->
  dict_get n (cache (final_state (fetch_all D names acc st))) = Some w.
Proof.
  revert st acc. induction names as [|name names IH]; intros st acc Hn; simpl; [done|].
  unfold bind. pose proof (fetch_keeps name st _ n w eq_refl Hn) as Hk.
  destruct (fetch D name st) as [w' st'|e st']; simpl in *; [by apply IH|done].
Qed.

Lemma get_dataset_final_state names st :
  final_state (get_dataset D names st) =
    match names with
    | NoneArg => st
    | _ => final_state (fetch_all D (to_list names) [] st)
    end.
Proof.
  destruct names as [|name|names]; [done| |];
    unfold get_dataset, bind; destruct (fetch_all D _ [] st) as [ws st'|e st'];
    try done; unfold lift, concatenate; by destruct ws.
Qed.

Lemma get_dataset_keeps names st n w :
  dict_get n (cache st) = Some w ->
  dict_get n (cache (final_state (get_dataset D names st))) = Some w.
Proof.
  intros Hn. rewrite get_dataset_final_state.
  destruct names; [done| |]; by apply fetch_all_keeps.
Qed.

Lemma dict_get_filter {V} (P : string * V -> Prop) `{forall x, Decision (P x)}
    (n : string) (w : V) (c : dict V) :
  dict_get n c = Some w -> P (n, w) -> dict_get n (filter P c) = Some w.
Proof.
  intros Hn Hw. induction c as [|[k v] c IH]; [done|].
  rewrite filter_cons. cbn [dict_get] in Hn.
  destruct (decide (n = k)) as [->|Hne].
  - injection Hn as ->. rewrite decide_True by done. cbn [dict_get]. by rewrite decide_True.
  - destruct (decide (P (k, v))); [cbn [dict_get]; rewrite decide_False by done|]; auto.
Qed.

Lemma collect_keeps alive st n w :
  dict_get n (cache st) = Some w -> alive w = true ->
  dict_get n (cache (collect alive st)) = Some w.
Proof. intros Hn Hw. unfold collect. cbn [cache]. by apply dict_get_filter. Qed.

Lemma survives_keeps w st st' n :
  survives D w st st' ->
  dict_get n (cache st) = Some w ->
  dict_get n (cache st') = Some w.
Proof.
  induction 1; intros Hn; [done| |].
  - apply get_dataset_keeps. auto.
  - apply collect_keeps; auto.
Qed.

(** *** The invariant of the weak dictionary *)

Lemma fetch_cache_ok name st :
  cache_ok D st -> cache_ok D (final_state (fetch D name st)).
Proof.
  intros Hok. unfold fetch. destruct (dict_get name (cache st)) as [w0|] eqn:E; [done|].
  destruct (build D name st) as [w' st'|e st'] eqn:Hb.
  - apply build_Ok in Hb as (examples & Hres & Hne & -> & ->). cbn [final_state].
    intros n w [[= -> ->]|Hin]%elem_of_dict_set; cbn [wrappers].
    + exists examples, (augment name examples (heap st)). split; [done|]. split; [done|].
      by rewrite lookup_app_r, Nat.sub_diag.
    + destruct (Hok n w Hin) as (ex & h & ? & ? & Hw). exists ex, h.
      split; [done|]. split; [done|]. by apply lookup_app_l_Some.
  - apply build_Raise in Hb as ->. done.
Qed.

Lemma fetch_all_cache_ok names acc st :
  cache_ok D st -> cache_ok D (final_state (fetch_all D names acc st)).
Proof.
  revert st acc. induction names as [|name names IH]; intros st acc Hok; [done|].
  cbn [fetch_all]. unfold bind.
  pose proof (fetch_cache_ok name st Hok) as Hok'.
  destruct (fetch D name st) as [w' st'|e st']; cbn [final_state] in *; auto.
Qed.

Lemma collect_cache_ok alive st : cache_ok D st -> cache_ok D (collect alive st).
Proof.
  intros Hok n w Hin. unfold collect in *. cbn [cache wrappers] in *.
  apply list_elem_of_filter in Hin as [_ Hin]. by apply Hok.
Qed.

Lemma reachable_cache_ok st : reachable D st -> cache_ok D st.
Proof.
  induction 1 as [h|st names Hst IH|st alive Hst IH].
  - intros n w Hin. by apply elem_of_nil in Hin.
  - rewrite get_dataset_final_state. destruct names; [done| |]; by apply fetch_all_cache_ok.
  - by apply collect_cache_ok.
Qed.

(** A name that does not resolve, or resolves to an empty mapping, is
    never in the weak dictionary. *)
Lemma reachable_not_cached name st :
  reachable D st ->
  (forall examples,
     _get_dataset_from_database_dict D name = Val examples -> examples = []) ->
  dict_get name (cache st) = None.
Proof.
  intros Hst Hbad. destruct (dict_get name (cache st)) as [w|] eqn:E; [|done].
  apply dict_get_Some_elem in E.
  destruct (reachable_cache_ok st Hst name w E) as (ex & h & Hres & Hne & _).
  by apply Hbad in Hres.
Qed.

Lemma get_dataset_StrArg name st :
  get_dataset D (StrArg name) st =
    match fetch D name st with
    | Ok w st' => Ok (Concatenate [w]) st'
    | Raise e st' => Raise e st'
    end.
Proof. unfold get_dataset. cbn. unfold bind. by destruct (fetch D name st). Qed.

(** A list of names that is not empty is answered with the concatenation
    of the wrappers fetched for them. *)
Lemma get_dataset_ListArg names st :
  names <> [] ->
  get_dataset D (ListArg names) st =
    match fetch_all D names [] st with
    | Ok ws st' =>
        match ws with
        | [] => Raise (ValueError EmptyString) st'
        | _ => Ok (Concatenate ws) st'
        end
    | Raise e st' => Raise e st'
    end.
Proof.
  intros _. unfold get_dataset, bind. cbn [to_list].
  destruct (fetch_all D names [] st) as [ws st'|e st']; [|done].
  unfold lift. by destruct ws.
Qed.

Lemma fetch_empty name st :
  cache_ok D st ->
  _get_dataset_from_database_dict D name = Val [] ->
  fetch D name st = Raise (RuntimeError name) st.
Proof.
  intros Hok Hres. rewrite fetch_miss; [by apply build_Val_nil|].
  destruct (dict_get name (cache st)) as [w|] eqn:E; [|done].
  apply dict_get_Some_elem in E. destruct (Hok name w E) as (ex & h & Hex & Hne & _).
  congruence.
Qed.

Lemma fetch_all_empty name names acc st :
  cache_ok D st ->
  _get_dataset_from_database_dict D name = Val [] ->
  name ∈ names ->
  exists e st', fetch_all D names acc st = Raise e st'.
Proof.
  intros Hok Hres Hin. revert st acc Hok.
  induction names as [|n names IH]; intros st acc Hok; [by apply elem_of_nil in Hin|].
  cbn [fetch_all]. unfold bind.
  pose proof (fetch_cache_ok n st Hok) as Hok'.
  destruct (fetch D n st) as [w st'|e st'] eqn:Hf; [|eauto].
  apply elem_of_cons in Hin as [->|Hin].
  - rewrite fetch_empty in Hf; done.
  - apply IH; done.
Qed.

(** C2. Fetching a name returns one wrapper; as long as that wrapper stays
    referenced from outside, through any later calls and collections,
    fetching the name again returns the identical wrapper (the same
    address) and leaves the store untouched, so nothing is resolved or
    wrapped a second time.  A fetch that raises leaves the store as it
    was, with no entry for the name, so the next call for the name goes
    through the build again, whatever the document then holds. *)
Theorem weak_cache_identity_and_retry (name : string) (st : state) :
  (forall ds st1,
     get_dataset D (StrArg name) st = Ok ds st1 ->
     exists w, ds = Concatenate [w] /\
       forall st2, survives D w st1 st2 ->
         get_dataset D (StrArg name) st2 = Ok (Concatenate [w]) st2)
  /\
  (forall e st1,
     get_dataset D (StrArg name) st = Raise e st1 ->
     st1 = st /\ dict_get name (cache st1) = None /\
     forall D', fetch D' name st1 = build D' name st1).
Proof.
  rewrite get_dataset_StrArg. split.
  - intros ds st1 Hget. destruct (fetch D name st) as [w st'|e st'] eqn:Hf; [|done].
    injection Hget as <- <-. exists w. split; [done|].
    intros st2 Hsurv. rewrite get_dataset_StrArg.
    apply fetch_Ok_cached in Hf.
    by rewrite (fetch_hit name st2 w (survives_keeps w st' st2 name Hsurv Hf)).
  - intros e st1 Hget. destruct (fetch D name st) as [w st'|e' st'] eqn:Hf; [done|].
    injection Hget as <- <-. apply fetch_Raise in Hf as [-> Hnone].
    split; [done|]. split; [done|]. intros D'. unfold fetch. by rewrite Hnone.
Qed.

(** C4. In every store the database can be in, fetching a name whose
    resolved mapping has no entry raises the [RuntimeError] that names it,
    and leaves the store untouched; a list of names that contains such a
    name is not answered either. *)
Theorem empty_dataset_raises (name : string) (st : state) :
  reachable D st ->
  _get_dataset_from_database_dict D name = Val [] ->
  get_dataset D (StrArg name) st = Raise (RuntimeError name) st /\
  forall names, name ∈ names ->
    exists e st', get_dataset D (ListArg names) st = Raise e st'.
Proof.
  intros Hst%reachable_cache_ok Hres. split.
  - rewrite get_dataset_StrArg. by rewrite fetch_empty.
  - intros names Hin. unfold get_dataset, bind. cbn [to_list].
    destruct (fetch_all_empty name names [] st Hst Hres Hin) as (e & st' & ->).
    eauto.
Qed.

(** C10. Called without names ([names=None]), [get_dataset] raises the
    [TypeError] that lists the valid dataset names, whatever the store; it
    returns no dataset and changes nothing. *)
Theorem get_dataset_None_raises (st : state) :
  get_dataset D NoneArg st = Raise (TypeError (dataset_names D)) st.
Proof. reflexivity. Qed.

End Fetch.

(** ** Writing the identifier and the dataset name into the records *)

Section Normalization.
Context `{K : Keys}.

Lemma dict_set_same {V} (k : string) (v : V) (d : dict V) :
  dict_get k d = Some v -> dict_set k v d = d.
Proof.
  induction d as [|[k0 v0] d IH]; simpl; [done|].
  destruct (decide (k = k0)) as [->|Hne].
  - by intros [= ->].
  - intros Hd. by rewrite IH.
Qed.

Lemma set_example_fields_DATASET_NAME example_id name example :
  dict_get DATASET_NAME (set_example_fields example_id name example) = Some (VStr name).
Proof. apply dict_get_set_eq. Qed.

Lemma set_example_fields_EXAMPLE_ID example_id name example :
  EXAMPLE_ID <> DATASET_NAME ->
  dict_get EXAMPLE_ID (set_example_fields example_id name example)
    = Some (VStr example_id).
Proof.
  intros Hne. unfold set_example_fields.
  rewrite dict_get_set_ne by done. apply dict_get_set_eq.
Qed.

Lemma set_example_fields_other example_id name example :
  same_other_fields example (set_example_fields example_id name example).
Proof.
  intros k Hk1 Hk2. unfold set_example_fields.
  by rewrite !dict_get_set_ne.
Qed.

(** Writing the same two values a second time changes nothing. *)
Lemma set_example_fields_idemp example_id name example :
  set_example_fields example_id name (set_example_fields example_id name example)
    = set_example_fields example_id name example.
Proof.
  unfold set_example_fields.
  destruct (decide (EXAMPLE_ID = DATASET_NAME)) as [Heq|Hne].
  - rewrite Heq. by rewrite !dict_set_set.
  - rewrite (dict_set_same EXAMPLE_ID).
    + by rewrite dict_set_set.
    + rewrite dict_get_set_ne by done. apply dict_get_set_eq.
Qed.

Lemma same_other_fields_refl example : same_other_fields example example.
Proof. by intros k _ _. Qed.

Lemma same_other_fields_trans e1 e2 e3 :
  same_other_fields e1 e2 -> same_other_fields e2 e3 -> same_other_fields e1 e3.
Proof. intros H12 H23 k Hk1 Hk2. by rewrite H23, H12. Qed.

Lemma heap_frame_refl h : heap_frame h h.
Proof. split; [done|]. intros r e Hr. exists e. split; [done|apply same_other_fields_refl]. Qed.

Lemma heap_frame_trans h1 h2 h3 :
  heap_frame h1 h2 -> heap_frame h2 h3 -> heap_frame h1 h3.
Proof.
  intros [Hl12 H12] [Hl23 H23]. split; [congruence|].
  intros r e1 Hr. destruct (H12 r e1 Hr) as (e2 & Hr2 & He12).
  destruct (H23 r e2 Hr2) as (e3 & Hr3 & He23).
  exists e3. split; [done|by eapply same_other_fields_trans].
Qed.

Lemma heap_frame_alter example_id name r' h :
  heap_frame h (alter (set_example_fields example_id name) r' h).
Proof.
  split; [apply length_alter|]. intros r e Hr.
  destruct (decide (r' = r)) as [->|Hne].
  - rewrite list_lookup_alter_eq, Hr. eexists. split; [done|].
    apply set_example_fields_other.
  - rewrite list_lookup_alter_ne by done. exists e. split; [done|].
    apply same_other_fields_refl.
Qed.

Lemma augment_cons name kv examples h :
  augment name (kv :: examples) h
    = augment name examples (alter (set_example_fields kv.1 name) kv.2 h).
Proof. reflexivity. Qed.

Lemma augment_frame name examples h : heap_frame h (augment name examples h).
Proof.
  revert h. induction examples as [|kv examples IH]; intros h.
  - apply heap_frame_refl.
  - rewrite augment_cons. eapply heap_frame_trans; [apply heap_frame_alter|apply IH].
Qed.

(** A record that the mapping does not name is not touched. *)
Lemma augment_lookup_notin name examples h r :
  r ∉ examples.*2 -> augment name examples h !! r = h !! r.
Proof.
  revert h. induction examples as [|[k r'] examples IH]; intros h Hnin; [done|].
  rewrite augment_cons. cbn in *. apply not_elem_of_cons in Hnin as [Hne Hnin].
  rewrite IH by done. by rewrite list_lookup_alter_ne.
Qed.

(** A record stored under one key gets exactly the two fields written. *)
Lemma augment_lookup_in name examples h example_id r :
  (forall example_id', (example_id', r) ∈ examples -> example_id' = example_id) ->
  (example_id, r) ∈ examples ->
  augment name examples h !! r = set_example_fields example_id name <$> h !! r.
Proof.
  revert h. induction examples as [|[k r'] examples IH]; intros h Huniq Hin.
  - by apply elem_of_nil in Hin.
  - rewrite augment_cons. cbn [fst snd].
    assert (Huniq' : forall id', (id', r) ∈ examples -> id' = example_id)
      by (intros id' Hid'; apply Huniq; by apply list_elem_of_further).
    destruct (decide (r ∈ examples.*2)) as [Hr|Hr].
    + apply list_elem_of_fmap in Hr as ([k2 r2] & -> & Hin2). cbn [snd] in *.
      pose proof (Huniq' _ Hin2) as ->.
      rewrite IH by done.
      destruct (decide (r' = r2)) as [->|Hne].
      * rewrite list_lookup_alter_eq.
        rewrite (Huniq k) by apply list_elem_of_here.
        destruct (h !! r2); cbn; [|done]. by rewrite set_example_fields_idemp.
      * by rewrite list_lookup_alter_ne.
    + rewrite augment_lookup_notin by done.
      apply elem_of_cons in Hin as [[= -> ->]|Hin].
      * by rewrite list_lookup_alter_eq.
      * exfalso. apply Hr. apply list_elem_of_fmap. by exists (example_id, r).
Qed.

(** Whatever a record of the mapping held before, it carries the requested
    name afterwards. *)
Lemma augment_DATASET_NAME name examples h example_id r :
  (example_id, r) ∈ examples -> r < length h ->
  exists example',
    augment name examples h !! r = Some example' /\
    dict_get DATASET_NAME example' = Some (VStr name).
Proof.
  revert h example_id. induction examples as [|[k r'] examples IH]; intros h example_id Hin Hr.
  - by apply elem_of_nil in Hin.
  - rewrite augment_cons. cbn [fst snd].
    destruct (decide (r ∈ examples.*2)) as [Hr2|Hr2].
    + apply list_elem_of_fmap in Hr2 as ([k2 r2] & -> & Hin2).
      apply (IH _ k2 Hin2). by rewrite length_alter.
    + rewrite augment_lookup_notin by done.
      apply elem_of_cons in Hin as [[= -> ->]|Hin].
      * rewrite list_lookup_alter_eq.
        destruct (lookup_lt_is_Some_2 h r' Hr) as [e ->]. cbn.
        eexists. split; [done|]. apply set_example_fields_DATASET_NAME.
      * exfalso. apply Hr2. apply list_elem_of_fmap. by exists (example_id, r).
Qed.

Lemma augment_idemp name examples h :
  one_key_per_record examples ->
  augment name examples (augment name examples h) = augment name examples h.
Proof.
  intros Huniq. apply list_eq. intros r.
  destruct (decide (r ∈ examples.*2)) as [Hr|Hr].
  - apply list_elem_of_fmap in Hr as ([k r'] & -> & Hin). cbn [snd].
    assert (Hk : forall id', (id', r') ∈ examples -> id' = k)
      by (intros id' Hid'; by apply (Huniq id' k r')).
    rewrite !(augment_lookup_in name examples _ k r') by done.
    destruct (h !! r'); cbn; [|done]. by rewrite set_example_fields_idemp.
  - by rewrite !augment_lookup_notin.
Qed.

(** C6. The loop that normalizes the records of a resolved mapping writes,
    into the very record object stored under [example_id] (the same address
    of the store), the identifier [example_id] and the requested name;
    every other field of the record keeps its value, and running the loop
    a second time with the same mapping and name changes nothing at all. *)
Theorem normalization_in_place_idempotent (name example_id : string) (r : ref)
    (examples : dict ref) (h : list record) (example : record) :
  EXAMPLE_ID <> DATASET_NAME ->
  one_key_per_record examples ->
  (example_id, r) ∈ examples ->
  h !! r = Some example ->
  let h' := augment name examples h in
  let example' := set_example_fields example_id name example in
  h' !! r = Some example' /\
  dict_get EXAMPLE_ID example' = Some (VStr example_id) /\
  dict_get DATASET_NAME example' = Some (VStr name) /\
  same_other_fields example example' /\
  augment name examples h' = h'.
Proof.
  intros Hne Huniq Hin Hr h' example'. repeat split.
  - unfold h'. rewrite (augment_lookup_in name examples h example_id r); [by rewrite Hr|..|done].
    intros id' Hid'. by apply (Huniq id' example_id r).
  - by apply set_example_fields_EXAMPLE_ID.
  - apply set_example_fields_DATASET_NAME.
  - intros k Hk1 Hk2. by apply set_example_fields_other.
  - by apply augment_idemp.
Qed.

End Normalization.

(** ** What a call of [get_dataset] changes, and what it returns *)

Section GetDataset.
Context `{K : Keys}.
Variable D : database_doc.

Lemma fetch_frame name st :
  wrappers st `prefix_of` wrappers (final_state (fetch D name st)) /\
  heap_frame (heap st) (heap (final_state (fetch D name st))).
Proof.
  unfold fetch. destruct (dict_get name (cache st)) as [w|].
  - split; [done|apply heap_frame_refl].
  - destruct (build D name st) as [w st'|e st'] eqn:Hb.
    + apply build_Ok in Hb as (examples & _ & _ & -> & ->). cbn.
      split; [by apply prefix_app_r|apply augment_frame].
    + apply build_Raise in Hb as ->. split; [done|apply heap_frame_refl].
Qed.

Lemma fetch_all_frame names acc st :
  wrappers st `prefix_of` wrappers (final_state (fetch_all D names acc st)) /\
  heap_frame (heap st) (heap (final_state (fetch_all D names acc st))).
Proof.
  revert st acc. induction names as [|name names IH]; intros st acc.
  - split; [done|apply heap_frame_refl].
  - cbn [fetch_all]. unfold bind. destruct (fetch_frame name st) as [Hp Hf].
    destruct (fetch D name st) as [w st'|e st']; cbn [final_state] in *; [|done].
    destruct (IH st' (acc ++ [w])) as [Hp' Hf']. split.
    + by etrans.
    + by eapply heap_frame_trans.
Qed.

(** A dataset made of wrappers that exist in [st] yields in a later store
    what it yields in [st]. *)
Lemma list_of_prefix st st' parts :
  wrappers st `prefix_of` wrappers st' ->
  Forall (fun w => w < length (wrappers st)) parts ->
  list_of st' (Concatenate parts) = list_of st (Concatenate parts).
Proof.
  intros Hp Hall. unfold list_of, iter, drain. f_equal.
  apply Forall_fmap_ext_1. eapply Forall_impl; [exact Hall|].
  intros w Hw. cbn beta.
  destruct (lookup_lt_is_Some_2 _ _ Hw) as [snap Hsnap].
  by rewrite Hsnap, (prefix_lookup_Some _ _ _ _ Hsnap Hp).
Qed.

(** C5 (as the code has it). A call of [get_dataset], whether it returns
    or raises, leaves every wrapper built before as it was, so a dataset
    made of such wrappers yields the same records after the call as
    before; the call adds and removes no record object of the document, and
    changes no field of any of them other than the identifier and the
    dataset name.  Those two fields of the document's record objects are
    assigned unconditionally: when a name is built, every record object of
    its resolved mapping carries that name afterwards, whatever it carried
    before. *)
Theorem get_dataset_frame_and_overwrite (names : names_arg) (st : state) :
  let st' := final_state (get_dataset D names st) in
  wrappers st `prefix_of` wrappers st' /\
  (forall parts,
     Forall (fun w => w < length (wrappers st)) parts ->
     list_of st' (Concatenate parts) = list_of st (Concatenate parts)) /\
  heap_frame (heap st) (heap st') /\
  (forall name examples example_id r,
     names = StrArg name ->
     dict_get name (cache st) = None ->
     _get_dataset_from_database_dict D name = Val examples ->
     (example_id, r) ∈ examples ->
     r < length (heap st) ->
     exists example',
       heap st' !! r = Some example' /\
       dict_get DATASET_NAME example' = Some (VStr name)).
Proof.
  intros st'. unfold st'. rewrite get_dataset_final_state.
  assert (Hp : wrappers st `prefix_of`
                 wrappers match names with
                          | NoneArg => st
                          | _ => final_state (fetch_all D (to_list names) [] st)
                          end).
  { destruct names; [done| |]; apply fetch_all_frame. }
  split; [exact Hp|]. split; [|split].
  - intros parts Hparts. by apply list_of_prefix.
  - destruct names; [apply heap_frame_refl| |]; apply fetch_all_frame.
  - intros name examples example_id r -> Hmiss Hres Hin Hr.
    cbn [to_list fetch_all]. unfold bind. rewrite fetch_miss by done.
    rewrite (build_Val D name examples st Hres) by (intros ->; by apply elem_of_nil in Hin).
    cbn. by eapply augment_DATASET_NAME.
Qed.

(** *** Iterating over the result *)

(** [drain] is what calling [next] until [StopIteration] yields. *)
Lemma drain_next it :
  drain it =
    match next it with
    | Some (example, it') => example :: drain it'
    | None => []
    end.
Proof.
  induction it as [|rs it IH]; [done|].
  destruct rs as [|r rs]; cbn; [exact IH|done].
Qed.

(** Names that all resolve to non-empty mappings are all fetched, and
    every wrapper returned is the one the weak dictionary holds for its
    name afterwards. *)
Lemma fetch_all_Ok names exs acc st :
  cache_ok D st ->
  Forall2 (fun n ex => _get_dataset_from_database_dict D n = Val ex /\ ex <> [])
          names exs ->
  exists ws st',
    fetch_all D names acc st = Ok (acc ++ ws) st' /\
    Forall2 (fun n w => dict_get n (cache st') = Some w) names ws.
Proof.
  intros Hok Hres. revert st acc Hok.
  induction Hres as [|n ex names exs [Hn Hne] Hres IH]; intros st acc Hok.
  - exists [], st. cbn. by rewrite app_nil_r.
  - cbn [fetch_all]. unfold bind.
    pose proof (fetch_cache_ok D n st Hok) as Hok'.
    assert (Hw : exists w st1, fetch D n st = Ok w st1).
    { unfold fetch. destruct (dict_get n (cache st)) as [w|] eqn:E; [by eauto|].
      rewrite (build_Val D n ex st Hn Hne). by eauto. }
    destruct Hw as (w & st1 & Hf). rewrite Hf in *. cbn [final_state] in *.
    destruct (IH st1 (acc ++ [w]) Hok') as (ws & st' & Hall & Hws).
    exists (w :: ws), st'. split; [by rewrite Hall, <- app_assoc|].
    constructor; [|done].
    pose proof (fetch_all_keeps D names st1 (acc ++ [w]) n w
                  (fetch_Ok_cached D n st w st1 Hf)) as Hk.
    by rewrite Hall in Hk.
Qed.

End GetDataset.

(** ** The suggestions of [difflib.get_close_matches] *)

Section CloseMatches.
Import difflib.

(** *** The model against the examples of the Python documentation *)

Example ratio_abcd_bcde : ratio "abcd" "bcde" = (6, 8).
Proof. reflexivity. Qed.

Example ratio_tide_diet : ratio "tide" "diet" = (2, 8) /\ ratio "diet" "tide" = (4, 8).
Proof. split; reflexivity. Qed.

Example find_longest_match_abcd :
  find_longest_match (fun _ => false) (chars " abcd") (chars "abcd abcd") = (0, 4, 5).
Proof. reflexivity. Qed.

Example get_close_matches_appel :
  get_close_matches "appel" ["ape"; "apple"; "peach"; "puppy"] 3 (6, 10)
    = ["apple"; "ape"].
Proof. vm_compute. reflexivity. Qed.

(** *** The fuel of [matches_in] is enough *)

Lemma run_le skip a b : run skip a b <= length a.
Proof.
  revert b. induction a as [|x a IH]; intros [|y b]; cbn; try lia.
  destruct (_ && _); [|lia]. specialize (IH b). lia.
Qed.

Lemma scan_b_within n skip a b i j best :
  i + length a <= n -> block_within n best ->
  block_within n (scan_b skip a b i j best).
Proof.
  intros Hn. revert j best. induction b as [|y b IH]; intros j best Hbest; [done|].
  cbn [scan_b]. apply IH.
  destruct (best.2 <? run skip a (y :: b)) eqn:E; [|done].
  right. apply Nat.ltb_lt in E. pose proof (run_le skip a (y :: b)). cbn [fst snd]. lia.
Qed.

Lemma scan_a_within n skip a b i best :
  i + length a <= n -> block_within n best ->
  block_within n (scan_a skip a b i best).
Proof.
  revert i best. induction a as [|x a IH]; intros i best Hn Hbest; [done|].
  cbn [scan_a]. cbn [length] in Hn. apply IH; [lia|].
  apply scan_b_within; [cbn [length]; lia|done].
Qed.

Lemma find_longest_match_within pop a b i j k :
  find_longest_match pop a b = (i, j, k) -> i + k <= length a.
Proof.
  unfold find_longest_match.
  assert (Hin : block_within (length a) (scan_a pop a b 0 (0, 0, 0)))
    by (apply scan_a_within; [lia|by left]).
  destruct (scan_a pop a b 0 (0, 0, 0)) as [[i0 j0] k0].
  intros [= <- <- <-].
  pose proof (run_le (fun _ => false) (rev (take i0 a)) (rev (take j0 b))) as Hl.
  pose proof (run_le (fun _ => false) (drop (i0 + k0) a) (drop (j0 + k0) b)) as Hr.
  rewrite length_rev, length_take in Hl. rewrite length_drop in Hr.
  destruct Hin as [[= -> -> ->]|[_ Hin]]; cbn [fst snd] in *; lia.
Qed.

Lemma matches_in_enough pop fuel1 fuel2 a b :
  length a < fuel1 -> length a < fuel2 ->
  matches_in fuel1 pop a b = matches_in fuel2 pop a b.
Proof.
  revert fuel2 a b. induction fuel1 as [|fuel1 IH]; intros [|fuel2] a b H1 H2; try lia.
  cbn [matches_in].
  destruct (find_longest_match pop a b) as [[i j] k] eqn:E.
  apply find_longest_match_within in E.
  destruct (k =? 0) eqn:Hk; [done|]. apply Nat.eqb_neq in Hk.
  rewrite (IH fuel2 (take i a)), (IH fuel2 (drop (i + k) a));
    rewrite ?length_take, ?length_drop; lia.
Qed.

Lemma ascii_compare_refl (a : ascii) : Ascii.compare a a = Eq.
Proof. unfold Ascii.compare. apply N.compare_refl. Qed.

Lemma ascii_compare_lt_trans (a b c : ascii) :
  Ascii.compare a b = Lt -> Ascii.compare b c = Lt -> Ascii.compare a c = Lt.
Proof.
  unfold Ascii.compare. rewrite !N.compare_lt_iff. apply N.lt_trans.
Qed.

Lemma string_leb_refl (s : string) : String.leb s s = true.
Proof.
  unfold String.leb. induction s as [|a s IH]; cbn; [done|].
  by rewrite ascii_compare_refl.
Qed.

Lemma string_leb_trans (s1 s2 s3 : string) :
  String.leb s1 s2 = true -> String.leb s2 s3 = true -> String.leb s1 s3 = true.
Proof.
  unfold String.leb. revert s2 s3.
  induction s1 as [|a s1 IH]; intros [|b s2] [|c s3]; cbn; try done.
  destruct (Ascii.compare a b) eqn:Hab; [| |done].
  - apply Ascii.compare_eq_iff in Hab as ->.
    destruct (Ascii.compare b c); [apply IH|done|done].
  - intros _. destruct (Ascii.compare b c) eqn:Hbc; [| |done].
    + apply Ascii.compare_eq_iff in Hbc as ->. by rewrite Hab.
    + by rewrite (ascii_compare_lt_trans a b c).
Qed.

Lemma _calculate_ratio_proper matches length x : proper (_calculate_ratio matches length, x).
Proof.
  unfold proper, _calculate_ratio. destruct (length =? 0) eqn:E; cbn; [lia|].
  apply Nat.eqb_neq in E. lia.
Qed.

Lemma scored_le_refl p : scored_le p p = true.
Proof.
  unfold scored_le, frac_eq. rewrite Nat.eqb_refl, string_leb_refl.
  by rewrite orb_true_r.
Qed.

Lemma scored_le_total p q : scored_le p q = true \/ scored_le q p = true.
Proof.
  unfold scored_le, frac_lt, frac_eq.
  destruct (Nat.lt_trichotomy (p.1.1 * q.1.2) (q.1.1 * p.1.2)) as [Hlt|[Heq|Hgt]].
  - left. apply Nat.ltb_lt in Hlt. by rewrite Hlt.
  - destruct (String.leb_total p.2 q.2) as [Hs|Hs]; [left|right]; rewrite Hs.
    + apply Nat.eqb_eq in Heq. rewrite Heq. by rewrite orb_true_r.
    + symmetry in Heq. apply Nat.eqb_eq in Heq. rewrite Heq. by rewrite orb_true_r.
  - right. apply Nat.ltb_lt in Hgt. by rewrite Hgt.
Qed.

Lemma scored_le_trans p q r :
  proper p -> proper q -> proper r ->
  scored_le p q = true -> scored_le q r = true -> scored_le p r = true.
Proof.
  unfold proper, scored_le, frac_lt, frac_eq.
  destruct p as [[a b] s1], q as [[c d] s2], r as [[e f] s3]. cbn [fst snd].
  intros Hb Hd Hf.
  rewrite !orb_true_iff, !andb_true_iff, !Nat.ltb_lt, !Nat.eqb_eq.
  intros [H1|[H1 Hs1]] [H2|[H2 Hs2]].
  - left. nia.
  - left. nia.
  - left. nia.
  - right. split; [nia|by eapply string_leb_trans].
Qed.

Lemma insert_desc_elem p q l : q ∈ insert_desc p l <-> q = p \/ q ∈ l.
Proof.
  induction l as [|x l IH]; cbn.
  - rewrite list_elem_of_singleton, elem_of_nil. tauto.
  - destruct (scored_le x p); rewrite !elem_of_cons; [tauto|]. rewrite IH. tauto.
Qed.

Lemma insert_desc_Permutation p l : insert_desc p l ≡ₚ p :: l.
Proof.
  induction l as [|x l IH]; cbn; [done|].
  destruct (scored_le x p); [done|]. rewrite IH. apply Permutation_swap.
Qed.

Lemma sort_desc_Permutation l : sort_desc l ≡ₚ l.
Proof.
  induction l as [|x l IH]; cbn; [done|].
  by rewrite insert_desc_Permutation, IH.
Qed.

Lemma insert_desc_sorted p l :
  proper p -> Forall proper l ->
  StronglySorted desc l -> StronglySorted desc (insert_desc p l).
Proof.
  intros Hp Hl Hs. induction Hs as [|x l Hs IH Hx]; cbn.
  - repeat constructor.
  - apply Forall_cons in Hl as [Hpx Hl].
    destruct (scored_le x p) eqn:E.
    + constructor; [by constructor|]. constructor; [done|].
      apply Forall_forall. intros y Hy. unfold desc.
      eapply (scored_le_trans y x p); try done.
      * by eapply Forall_forall in Hl.
      * by eapply Forall_forall in Hx.
    + constructor; [by apply IH|].
      apply Forall_forall. intros y [->|Hy]%insert_desc_elem.
      * unfold desc. destruct (scored_le_total p x); congruence.
      * by eapply Forall_forall in Hx.
Qed.

Lemma sort_desc_sorted l : Forall proper l -> StronglySorted desc (sort_desc l).
Proof.
  induction 1 as [|x l Hx Hl IH]; cbn; [constructor|].
  apply insert_desc_sorted; [done| |done].
  by rewrite sort_desc_Permutation.
Qed.

(** An element that at most [n] elements rank at least as high as (itself
    included) is among the [n] largest. *)
Lemma _nlargest_rank n l p :
  Forall proper l -> p ∈ l ->
  length (filter (fun q => scored_le p q = true) l) <= n ->
  p ∈ _nlargest n l.
Proof.
  intros Hl Hp Hrank. unfold _nlargest.
  pose proof (sort_desc_sorted l Hl) as Hs.
  rewrite <- (sort_desc_Permutation l) in Hp, Hrank.
  rewrite <- (take_drop n (sort_desc l)) in Hp, Hrank, Hs.
  apply elem_of_app in Hp as [Hp|Hp]; [done|]. exfalso.
  rewrite filter_app, length_app in Hrank.
  assert (Hn : length (take n (sort_desc l)) = n).
  { apply length_take_le. destruct (decide (n <= length (sort_desc l))); [done|].
    rewrite drop_ge in Hp by lia. by apply elem_of_nil in Hp. }
  assert (Hall : filter (fun q => scored_le p q = true) (take n (sort_desc l))
                 = take n (sort_desc l)).
  { pose proof (fun x1 x2 => StronglySorted_app_1_elem_of desc _ _ x1 x2 Hs) as Hle.
    revert Hle.
    generalize (take n (sort_desc l)) as l1. intros l1 Hle. clear -Hle Hp.
    induction l1 as [|x l1 IH]; [done|].
    rewrite filter_cons_True.
    - f_equal. apply IH. intros x1 x2 H1 H2. apply Hle; [by apply list_elem_of_further|done].
    - apply (Hle x p); [apply list_elem_of_here|done]. }
  rewrite Hall, Hn in Hrank.
  assert (Hpos : 0 < length (filter (fun q => scored_le p q = true) (drop n (sort_desc l)))).
  { assert (Hin : p ∈ filter (fun q => scored_le p q = true) (drop n (sort_desc l)))
      by (apply list_elem_of_filter; split; [apply scored_le_refl|done]).
    destruct (filter _ (drop n (sort_desc l))); [by apply elem_of_nil in Hin|cbn; lia]. }
  lia.
Qed.

(** With [cutoff=0] every possibility is scored. *)
Lemma get_close_matches_cutoff_0 word possibilities n :
  get_close_matches word possibilities n cutoff_0
    = (_nlargest n ((fun x => (ratio x word, x)) <$> possibilities)).*2.
Proof.
  unfold get_close_matches.
  replace (omap _ possibilities) with ((fun x => (ratio x word, x)) <$> possibilities);
    [done|].
  induction possibilities as [|x l IH]; [done|]. cbn. by rewrite IH.
Qed.

Lemma get_close_matches_length word possibilities n cutoff :
  length (get_close_matches word possibilities n cutoff) <= n.
Proof.
  unfold get_close_matches, _nlargest. rewrite length_fmap, length_take. lia.
Qed.

Lemma get_close_matches_subset word possibilities n cutoff x :
  x ∈ get_close_matches word possibilities n cutoff -> x ∈ possibilities.
Proof.
  unfold get_close_matches, _nlargest.
  intros ([r y] & -> & Hin)%list_elem_of_fmap. cbn.
  apply subseteq_take in Hin. rewrite sort_desc_Permutation in Hin.
  apply list_elem_of_omap in Hin as (z & Hz & Hsome).
  destruct (_ && _); [|done]. by injection Hsome as _ <-.
Qed.

Lemma ratio_proper x word : proper (ratio x word, x).
Proof. apply _calculate_ratio_proper. Qed.

Lemma get_close_matches_rank word possibilities n valid :
  valid ∈ possibilities ->
  length (filter (fun x => scored_le (ratio valid word, valid) (ratio x word, x) = true)
                 possibilities) <= n ->
  valid ∈ get_close_matches word possibilities n cutoff_0.
Proof.
  intros Hin Hrank. rewrite get_close_matches_cutoff_0.
  apply list_elem_of_fmap. exists (ratio valid word, valid). split; [done|].
  apply _nlargest_rank.
  - apply Forall_forall. intros p (x & -> & _)%list_elem_of_fmap. apply ratio_proper.
  - apply list_elem_of_fmap. by exists valid.
  - etrans; [|exact Hrank]. clear. induction possibilities as [|x l IH]; [done|].
    rewrite fmap_cons, !filter_cons.
    destruct (decide _); cbn; lia.
Qed.

End CloseMatches.

(** ** A name that is neither a dataset nor an alias *)

Section NameNotFound.
Context `{K : Keys}.
Variable D : database_doc.

Lemma unknown_name_KeyError name :
  name ∉ dict_keys (datasets D) ->
  name ∉ dict_keys (default [] (alias D)) ->
  _get_dataset_from_database_dict D name = Exc (KeyError name).
Proof.
  intros Hd%dict_get_None Ha%dict_get_None.
  unfold _get_dataset_from_database_dict. by rewrite Ha, Hd.
Qed.

(** C3 (as the code has it). In every store the database can be in,
    fetching a name that is neither a dataset nor an alias raises the
    [KeyError] that carries the queried name, the suggestions and the
    database itself (which knows the valid names).  The suggestions are at
    most five valid names, in descending order of similarity to the
    queried name; a valid name is among them whenever at most five entries
    of the list of valid names rank at least as high as it does, and so
    whenever there are at most five valid names. *)
Theorem unknown_name_raises_with_suggestions (name : string) (st : state) :
  reachable D st ->
  name ∉ dict_keys (datasets D) ->
  name ∉ dict_keys (default [] (alias D)) ->
  let similar := difflib.get_close_matches name (dataset_names D) 5 cutoff_0 in
  get_dataset D (StrArg name) st = Raise (KeyErrorCloseMatches name similar D) st /\
  length similar <= 5 /\
  (forall x, x ∈ similar -> x ∈ dataset_names D) /\
  StronglySorted desc (score name <$> similar) /\
  (forall valid,
     valid ∈ dataset_names D ->
     length (filter (ranks_at_least name valid) (dataset_names D)) <= 5 ->
     valid ∈ similar) /\
  (length (dataset_names D) <= 5 ->
   forall valid, valid ∈ dataset_names D -> valid ∈ similar).
Proof.
  intros Hst Hd Ha similar.
  assert (Hrank : forall valid,
     valid ∈ dataset_names D ->
     length (filter (ranks_at_least name valid) (dataset_names D)) <= 5 ->
     valid ∈ similar) by (intros valid; apply get_close_matches_rank).
  split; [|split; [|split; [|split; [|split]]]].
  - rewrite get_dataset_StrArg.
    rewrite fetch_miss.
    + unfold build. by rewrite unknown_name_KeyError.
    + apply (reachable_not_cached D); [done|]. intros examples.
      by rewrite unknown_name_KeyError.
  - apply get_close_matches_length.
  - intros x. apply get_close_matches_subset.
  - unfold similar. rewrite get_close_matches_cutoff_0.
    set (l := (fun x => (difflib.ratio x name, x)) <$> dataset_names D).
    assert (Hl : Forall proper l).
    { apply Forall_forall. intros p (x & -> & _)%list_elem_of_fmap. apply ratio_proper. }
    pose proof (sort_desc_sorted l Hl) as Hs.
    rewrite <- (take_drop 5 (difflib.sort_desc l)) in Hs.
    apply StronglySorted_app_1_l in Hs.
    replace (score name <$> (difflib._nlargest 5 l).*2) with (difflib._nlargest 5 l); [done|].
    unfold difflib._nlargest.
    assert (Hfix : Forall (fun p => score name p.2 = p) (take 5 (difflib.sort_desc l))).
    { apply Forall_forall. intros p Hp%subseteq_take.
      rewrite sort_desc_Permutation in Hp.
      by apply list_elem_of_fmap in Hp as (x & -> & _). }
    clear Hs. induction Hfix as [|p s Hp Hfix IH]; [done|].
    rewrite !fmap_cons. by rewrite Hp, <- IH.
  - done.
  - intros Hlen valid Hin. apply Hrank; [done|].
    etrans; [apply length_filter|done].
Qed.

End NameNotFound.

(** ** Scanning a Kaldi recipe directory *)

Section KaldiScan.
Context `{K : Keys}.

Lemma examples_loop_complete path u t g pre rest examples :
  Forall (complete_entry u t g) pre ->
  exists examples',
    examples_loop path u t g (pre ++ rest) examples
      = examples_loop path u t g rest examples'.
Proof.
  intros Hpre. revert examples.
  induction Hpre as [|[example_id s] pre Hc Hpre IH]; intros examples; [by eexists|].
  destruct Hc as ((p & Hp) & (spk & Hspk & Hg) & (tr & Ht)). cbn in *.
  rewrite Hp, Hspk, Ht.
  destruct g as [table|].
  - destruct Hg as [gender ->]. apply IH.
  - apply IH.
Qed.

(** A directory that lacks the speaker of one identifier raises
    [MalformedDatasetError] for it. *)
Lemma lacks_speaker_raises name dir example_id :
  lacks_speaker dir example_id ->
  get_examples_from_dataset name dir = Exc (MalformedDatasetError example_id name).
Proof.
  intros (u & t & pre & s & post & Hu & Ht & Hscp & Hpre & (p & Hp) & Hnone).
  unfold get_examples_from_dataset. rewrite Hu, Ht, Hscp. cbn.
  destruct (examples_loop_complete name u t (spk2gender dir) pre
              ((example_id, s) :: post) [] Hpre) as (ex' & ->).
  cbn. by rewrite Hp, Hnone.
Qed.

Lemma scan_loop_spec (scp_paths : egs) (dataset_dict : document) log :
  Forall loads_or_malformed scp_paths ->
  scan_loop scp_paths dataset_dict log
    = (Val (dict_merge dataset_dict (omap loaded_entry scp_paths)),
       log ++ omap skipped_entry scp_paths).
Proof.
  intros Hok. revert dataset_dict log.
  induction Hok as [|[name dir] rest Hhd Hok IH]; intros dataset_dict log.
  - cbn. by rewrite app_nil_r.
  - unfold loads_or_malformed, loaded_entry, skipped_entry in *. cbn in *.
    destruct (get_examples_from_dataset name dir) as [examples|e].
    + rewrite IH. done.
    + destruct e; try done. rewrite IH. by rewrite <- app_assoc.
Qed.

Lemma NoDup_fst_functional {A B} (l : list (A * B)) x y1 y2 :
  NoDup l.*1 -> (x, y1) ∈ l -> (x, y2) ∈ l -> y1 = y2.
Proof.
  induction l as [|[a b] l IH]; intros Hnd Hy1 Hy2; [by apply elem_of_nil in Hy1|].
  cbn in Hnd. apply NoDup_cons in Hnd as [Ha Hl].
  apply elem_of_cons in Hy1 as [Heq1|Hy1]; apply elem_of_cons in Hy2 as [Heq2|Hy2].
  - congruence.
  - injection Heq1 as -> ->. contradict Ha. apply list_elem_of_fmap. by exists (a, y2).
  - injection Heq2 as -> ->. contradict Ha. apply list_elem_of_fmap. by exists (a, y1).
  - by apply IH.
Qed.

Lemma loaded_entry_keys (scp_paths : egs) name :
  name ∈ (omap loaded_entry scp_paths).*1 -> name ∈ scp_paths.*1.
Proof.
  intros ([n ex] & -> & Hin)%list_elem_of_fmap.
  apply list_elem_of_omap in Hin as ([n' dir] & Hin & Hl).
  unfold loaded_entry in Hl. cbn in *.
  destruct (get_examples_from_dataset n' dir); [|done].
  injection Hl as <- <-. apply list_elem_of_fmap. by exists (n', dir).
Qed.

Lemma loaded_entry_wf (scp_paths : egs) :
  NoDup scp_paths.*1 -> dict_wf (omap loaded_entry scp_paths).
Proof.
  unfold dict_wf, dict_keys.
  induction scp_paths as [|[name dir] rest IH]; cbn; [constructor|].
  intros [Hnin Hnd]%NoDup_cons.
  unfold loaded_entry at 1. cbn.
  destruct (get_examples_from_dataset name dir); [|by apply IH].
  cbn. apply NoDup_cons. split; [|by apply IH].
  intros Hin. by apply Hnin, loaded_entry_keys.
Qed.

(** C8 (as the code has it). A dataset directory that lacks the speaker
    of an identifier of its [wav.scp], and is complete up to that line,
    raises [MalformedDatasetError].  In a scan in which every directory
    either loads or is malformed in this way, the error is logged as a
    warning, the malformed dataset is left out of the result altogether,
    the scan goes on to the end, and every directory that loads is in the
    result with all of its examples. *)
Theorem malformed_dataset_skipped (egs_path : egs) :
  NoDup egs_path.*1 ->
  Forall loads_or_malformed egs_path ->
  exists dataset_dict log,
    get_dataset_dict_from_kaldi egs_path = (Val dataset_dict, log) /\
    (forall name dir example_id,
       (name, dir) ∈ egs_path -> lacks_speaker dir example_id ->
       loads_or_malformed (name, dir) /\
       get_examples_from_dataset name dir
         = Exc (MalformedDatasetError example_id name) /\
       Warning (MalformedDatasetError example_id name) ∈ log /\
       dict_get name dataset_dict = None) /\
    (forall name dir examples,
       (name, dir) ∈ egs_path ->
       get_examples_from_dataset name dir = Val examples ->
       dict_get name dataset_dict = Some examples).
Proof.
  intros Hnd Hok. unfold get_dataset_dict_from_kaldi.
  rewrite scan_loop_spec by done.
  rewrite dict_merge_disjoint;
    [|by apply loaded_entry_wf|intros k _ Hk; by apply elem_of_nil in Hk].
  eexists _, _. split; [done|]. cbn [app]. split.
  - intros name dir example_id Hin Hlack.
    pose proof (lacks_speaker_raises name dir example_id Hlack) as Hraise.
    split; [|split; [done|split]].
    + unfold loads_or_malformed. cbn. by rewrite Hraise.
    + apply list_elem_of_omap. exists (name, dir). split; [done|].
      unfold skipped_entry. cbn. by rewrite Hraise.
    + apply dict_get_None. intros Hk.
      apply list_elem_of_fmap in Hk as ([n ex] & -> & Hex). cbn in *.
      apply list_elem_of_omap in Hex as ([n' dir'] & Hin' & Hl).
      unfold loaded_entry in Hl. cbn in Hl.
      destruct (get_examples_from_dataset n' dir') as [ex'|] eqn:E; [|done].
      injection Hl as -> ->.
      assert (dir' = dir) as -> by (by eapply NoDup_fst_functional).
      congruence.
  - intros name dir examples Hin Hload.
    apply dict_get_elem_wf; [by apply loaded_entry_wf|].
    apply list_elem_of_omap. exists (name, dir). split; [done|].
    unfold loaded_entry. cbn. by rewrite Hload.
Qed.

End KaldiScan.

(** ** Lengths without duration data *)

Section KaldiLengths.
Context `{K : Keys}.
Variable float : string -> option value.


Lemma durations_convert_table egs_path name table :
  durations_convert float egs_path ->
  dict_get name egs_path ≫= utt2dur = Some table ->
  Forall (fun kv => is_Some (float kv.2)) table.
Proof.
  intros Hconv Htable. apply Forall_forall. intros [k v] Hin. by eapply Hconv.
Qed.



Lemma lengths_of_cases fn items acc :
  (exists lengths, lengths_of fn items acc = Val lengths) \/
  lengths_of fn items acc = Exc (KeyError NUM_SAMPLES).
Proof.
  revert acc. induction items as [|[k v] items IH]; intros acc; cbn; [by eauto|].
  destruct (dict_get NUM_SAMPLES v); [apply IH|by right].
Qed.


(** *** The records a scan builds carry no sample count *)


Lemma elem_of_dict_merge {V} (d1 d2 : dict V) kv :
  kv ∈ dict_merge d1 d2 -> kv ∈ d1 \/ kv ∈ d2.
Proof.
  unfold dict_merge. revert d1. induction d2 as [|[k v] d2 IH]; intros d1; cbn; [by left|].
  intros [Hin|Hin]%IH.
  - destruct kv as [k' v']. apply elem_of_dict_set in Hin as [->|Hin]; [|by left].
    right. apply list_elem_of_here.
  - right. by apply list_elem_of_further.
Qed.

Lemma scan_loop_Val_inv (scp_paths : egs) dataset_dict log doc log' :
  scan_loop scp_paths dataset_dict log = (Val doc, log') ->
  Forall loads_or_malformed scp_paths.
Proof.
  revert dataset_dict log. induction scp_paths as [|[name dir] rest IH];
    intros dataset_dict log; [constructor|].
  cbn. intros Hscan. constructor.
  - unfold loads_or_malformed. cbn.
    destruct (get_examples_from_dataset name dir) as [|e]; [done|].
    destruct e; done.
  - destruct (get_examples_from_dataset name dir) as [|e]; [by eapply IH|].
    destruct e; try done. by eapply IH.
Qed.


(** *** Loading the document into the store *)




End KaldiLengths.

(** ** The properties on the concrete documents *)

Section Instances.

Lemma not_shared_two_singletons (k1 k2 : string) (r1 r2 : ref) :
  k1 <> k2 -> ~ shared_id [[(k1, r1)]; [(k2, r2)]].
Proof.
  intros Hne. rewrite !shared_id_cons. unfold touches.
  intros [(k & dj & Hdj & Hk & Hkj)|[(k & dj & Hdj & _)|(i & j & di & dj & k & _ & Hi & _)]].
  - apply list_elem_of_singleton in Hdj as ->. cbn in Hk, Hkj.
    apply list_elem_of_singleton in Hk as ->. by apply list_elem_of_singleton in Hkj.
  - by apply elem_of_nil in Hdj.
  - done.
Qed.

(** C1 on the scenario document (disjoint datasets) and on a document
    whose two datasets share an identifier. *)
Lemma alias_resolution_witness :
  (_get_dataset_from_database_dict scenario_db "all" = Val [("u1", 0); ("u2", 1)] /\
   length [("u1", 0); ("u2", 1)] = 1 + 1) /\
  (exists intersection,
     intersection <> [] /\
     _get_dataset_from_database_dict conflict_db "both"
       = Exc (AssertionError (VList (VStr <$> intersection)))).
Proof.
  split.
  - refine (proj2 (alias_resolution_conflict_or_union scenario_db "all"
              ["train"; "test"] [[("u1", 0)]; [("u2", 1)]] eq_refl _ _) _).
    + repeat constructor.
    + solve_dict_wf.
    + by apply not_shared_two_singletons.
  - refine (proj1 (alias_resolution_conflict_or_union conflict_db "both"
              ["A"; "B"] [[("u1", 0); ("u2", 1)]; [("u2", 2); ("u3", 3)]] eq_refl _ _) _).
    + repeat constructor.
    + solve_dict_wf.
    + exists 0, 1, [("u1", 0); ("u2", 1)], [("u2", 2); ("u3", 3)], "u2".
      repeat split; [lia|compute_done..].
Defined.

(** C2 on the scenario: [train] is fetched, then [all] is fetched and a
    collection runs that keeps the wrapper of [train]; fetching [train]
    again returns the wrapper at the same address.  Fetching a name that
    does not exist raises and leaves no entry behind. *)
Lemma weak_cache_witness :
  get_dataset scenario_db (StrArg "train") (collect (fun w => w =? 0) after_all)
    = Ok (Concatenate [0]) (collect (fun w => w =? 0) after_all) /\
  dict_get "missing" (cache scenario_st) = None.
Proof.
  split.
  - assert (Hfirst : get_dataset scenario_db (StrArg "train") scenario_st
                       = Ok (Concatenate [0]) after_train) by (vm_compute; reflexivity).
    destruct (proj1 (weak_cache_identity_and_retry scenario_db "train" scenario_st)
                (Concatenate [0]) after_train Hfirst) as (w & Hw & Hagain).
    injection Hw as <-. apply Hagain.
    apply (survives_collect scenario_db 0 after_train after_all); [|done].
    exact (survives_call scenario_db 0 after_train after_train (StrArg "all")
             (survives_refl scenario_db 0 after_train)).
  - assert (Hfail : get_dataset scenario_db (StrArg "missing") scenario_st
                      = Raise (KeyErrorCloseMatches "missing" ["train"; "test"; "all"]
                                 scenario_db) scenario_st) by (vm_compute; reflexivity).
    destruct (proj2 (weak_cache_identity_and_retry scenario_db "missing" scenario_st)
                _ _ Hfail) as (_ & Hnone & _).
    exact Hnone.
Defined.

(** C3 (as the code has it) on the scenario: the misspelt [tain] gets
    [train] among its suggestions. *)
Lemma unknown_name_witness :
  get_dataset scenario_db (StrArg "tain") scenario_st
    = Raise (KeyErrorCloseMatches "tain" ["train"; "all"; "test"] scenario_db)
            scenario_st /\
  "train" ∈ difflib.get_close_matches "tain" (dataset_names scenario_db) 5 cutoff_0.
Proof.
  pose proof (unknown_name_raises_with_suggestions scenario_db "tain" scenario_st
                (reachable_init _ _)) as H.
  cbv zeta in H.
  destruct H as (Hraise & _ & _ & _ & _ & Hfew); [compute_done..|].
  split; [exact Hraise|]. apply Hfew; compute_done.
Defined.

(** C3 as stated fails: [dev] is one character short of each of six valid
    names, and only five names are suggested; [dev1] is left out. *)
Lemma unknown_name_counterexample :
  single_character_typo "dev" "dev1" = true /\
  "dev1" ∈ dataset_names six_db /\
  get_dataset six_db (StrArg "dev") six_st
    = Raise (KeyErrorCloseMatches "dev" ["dev6"; "dev5"; "dev4"; "dev3"; "dev2"] six_db)
            six_st /\
  "dev1" ∉ ["dev6"; "dev5"; "dev4"; "dev3"; "dev2"].
Proof. repeat split; compute_done. Qed.

(** C4 on a document with an empty dataset. *)
Lemma empty_dataset_witness :
  get_dataset empty_db (StrArg "empty") empty_st = Raise (RuntimeError "empty") empty_st.
Proof.
  exact (proj1 (empty_dataset_raises empty_db "empty" empty_st
                  (reachable_init _ _) eq_refl)).
Defined.

(** C5 (as the code has it) on the scenario: after [train], fetching [all]
    leaves what the wrapper of [train] yields as it was, and writes [all]
    into the record object of the document. *)
Lemma get_dataset_frame_witness :
  list_of after_all (Concatenate [0]) = list_of after_train (Concatenate [0]) /\
  exists example',
    heap after_all !! 0 = Some example' /\
    dict_get DATASET_NAME example' = Some (VStr "all").
Proof.
  pose proof (get_dataset_frame_and_overwrite scenario_db (StrArg "all") after_train) as H.
  cbv zeta in H. destruct H as (_ & Hsame & _ & Hover).
  split.
  - apply (Hsame [0]). repeat constructor.
  - apply (Hover "all" [("u1", 0); ("u2", 1)] "u1" 0); [done|done|done|compute_done|cbn; lia].
Defined.

(** C5 as stated fails: after [train] is fetched, the record object 0 of
    the document carries the dataset name [train]; fetching the alias
    [all] afterwards returns, with no error, and has overwritten that
    field of the same record object with the differing value [all]. *)
Lemma augmentation_overwrites_counterexample :
  get_dataset scenario_db (StrArg "train") scenario_st
    = Ok (Concatenate [0]) after_train /\
  (dict_get DATASET_NAME <$> heap after_train !! 0) = Some (Some (VStr "train")) /\
  get_dataset scenario_db (StrArg "all") after_train
    = Ok (Concatenate [1]) after_all /\
  (dict_get DATASET_NAME <$> heap after_all !! 0) = Some (Some (VStr "all")).
Proof. repeat split. Qed.

(** C6 on the first record of the scenario. *)
Lemma normalization_witness :
  augment "train" [("u1", 0)] (heap scenario_st) !! 0
    = Some [("speaker_id", VStr "s1"); ("example_id", VStr "u1"); ("dataset", VStr "train")] /\
  augment "train" [("u1", 0)] (augment "train" [("u1", 0)] (heap scenario_st))
    = augment "train" [("u1", 0)] (heap scenario_st).
Proof.
  pose proof (normalization_in_place_idempotent "train" "u1" 0 [("u1", 0)]
                (heap scenario_st) [("speaker_id", VStr "s1")]) as H.
  cbv zeta in H. destruct H as (Hlook & _ & _ & _ & Hidem).
  - done.
  - intros k k' r Hk Hk'. apply list_elem_of_singleton in Hk, Hk'. congruence.
  - apply list_elem_of_here.
  - done.
  - split; [exact Hlook|exact Hidem].
Defined.

(** C8 (as the code has it) on a recipe directory with a malformed
    dataset and a well-formed sibling. *)
Lemma malformed_dataset_witness :
  exists dataset_dict log,
    get_dataset_dict_from_kaldi egs_mixed = (Val dataset_dict, log) /\
    Warning (MalformedDatasetError "u3" "bad") ∈ log /\
    dict_get "bad" dataset_dict = None /\
    is_Some (dict_get "good" dataset_dict).
Proof.
  destruct (malformed_dataset_skipped egs_mixed) as (doc & log & Hscan & Hbad & Hgood).
  - compute_done.
  - repeat constructor.
  - exists doc, log. split; [exact Hscan|].
    destruct (Hbad "bad" dir_bad "u3") as (_ & _ & Hlog & Hnone).
    + apply list_elem_of_here.
    + exists [("u1", "s1")], [("u1", VStr "hello"); ("u3", VStr "world")],
        [("u1", ["/a/u1.wav"])], ["/a/u3.wav"], [].
      repeat split; try done.
      * repeat constructor; cbn; eauto.
      * by eexists.
    + split; [exact Hlog|]. split; [exact Hnone|].
      eexists. apply (Hgood "good" dir_good); [|reflexivity].
      apply list_elem_of_further, list_elem_of_here.
Defined.

(** C8 as stated fails: [wav.scp] names [u3], which [utt2spk] lacks, but
    the line of [u1] before it has no transcription; the scan stops with
    the [KeyError] of that lookup, logs nothing and loads no sibling. *)
Lemma malformed_dataset_counterexample :
  is_Some (dict_get "u3" (wav_scp dir_bad_text)) /\
  (utt2spk dir_bad_text ≫= dict_get "u3") = None /\
  get_examples_from_dataset "good" dir_good
    = Val [("u2",
            [("audio_path", VDict [("observation", VStr "/a/u2.sph")]);
             ("speaker_id", VStr "s2"); ("gender", VStr "f");
             ("kaldi_transcription", VStr "good")])] /\
  get_dataset_dict_from_kaldi egs_abort = (Exc (KeyError "u1"), []).
Proof. repeat split. by eexists. Qed.




End Instances.

(** * Further properties of the module *)

Import Notions Fixtures.

(** ** Resolution of a name: lookups, order of an alias, errors *)

Section Resolution.
Variable D : database_doc.

Lemma dict_get_app {V} (k : string) (d1 d2 : dict V) :
  dict_get k (d1 ++ d2) =
    match dict_get k d1 with
    | Some v => Some v
    | None => dict_get k d2
    end.
Proof.
  induction d1 as [|[k' v'] d1 IH]; simpl; [done|].
  by destruct (decide (k = k')).
Qed.

Lemma elem_of_dict_keys {V} (k : string) (d : dict V) :
  k ∈ dict_keys d <-> exists v, (k, v) ∈ d.
Proof.
  unfold dict_keys. rewrite list_elem_of_fmap. split.
  - intros ([k' v] & -> & Hin). by exists v.
  - intros (v & Hin). by exists (k, v).
Qed.

Lemma elem_of_concat {A} (x : A) (ls : list (list A)) :
  x ∈ concat ls <-> exists l, x ∈ l /\ l ∈ ls.
Proof.
  induction ls as [|l ls IH]; simpl.
  - split; [by intros ?%elem_of_nil|]. by intros (l & _ & ?%elem_of_nil).
  - rewrite elem_of_app, IH. split.
    + intros [Hx|(l' & Hx & Hl)].
      * exists l. split; [done|apply list_elem_of_here].
      * exists l'. split; [done|by apply list_elem_of_further].
    + intros (l' & Hx & [->|Hl]%elem_of_cons); [by left|]. right. by exists l'.
Qed.

Lemma elem_of_keys_concat {V} (k : string) (ds : list (dict V)) :
  k ∈ dict_keys (concat ds) <-> exists d, d ∈ ds /\ k ∈ dict_keys d.
Proof.
  rewrite elem_of_dict_keys. split.
  - intros (v & Hin). apply elem_of_concat in Hin as (d & Hin & Hd).
    exists d. split; [done|]. apply elem_of_dict_keys. by exists v.
  - intros (d & Hd & Hk). apply elem_of_dict_keys in Hk as (v & Hin).
    exists v. apply elem_of_concat. by exists d.
Qed.

Lemma not_touches_concat (d : dict ref) ds k :
  ~ touches d ds -> k ∈ dict_keys d -> k ∉ dict_keys (concat ds).
Proof.
  intros Hnt Hk Hc. apply elem_of_keys_concat in Hc as (dj & Hdj & Hkj).
  apply Hnt. by exists k, dj.
Qed.

Lemma concat_wf (ds : list (dict ref)) :
  Forall dict_wf ds -> ~ shared_id ds -> dict_wf (concat ds).
Proof.
  induction ds as [|d ds IH]; intros Hwf Hsh; simpl.
  - apply NoDup_nil_2.
  - apply Forall_cons in Hwf as [Hd Hwf]. rewrite shared_id_cons in Hsh.
    unfold dict_wf. rewrite dict_keys_app. apply NoDup_app. split; [done|].
    split; [|apply IH; tauto].
    intros k Hk. apply (not_touches_concat d); tauto.
Qed.

Lemma concat_get (ds : list (dict ref)) d k r :
  Forall dict_wf ds -> ~ shared_id ds -> d ∈ ds ->
  dict_get k d = Some r -> dict_get k (concat ds) = Some r.
Proof.
  intros Hwf Hsh Hd Hget. apply dict_get_elem_wf; [by apply concat_wf|].
  apply elem_of_concat. exists d. split; [|done]. by apply dict_get_Some_elem.
Qed.

(** A resolution that returns has met no shared identifier. *)
Lemma merge_alias_Val_not_shared names ds acc examples :
  Forall2 (fun n d => dict_get n (datasets D) = Some d) names ds ->
  Forall dict_wf ds ->
  merge_alias D names acc = Val examples ->
  ~ shared_id (acc :: ds).
Proof.
  intros Hds Hwf Hval Hsh.
  destruct (merge_alias_conflict D names ds acc Hds Hwf Hsh) as (i & _ & Hexc).
  congruence.
Qed.

Lemma merge_alias_Val_found names acc examples :
  merge_alias D names acc = Val examples ->
  exists ds, Forall2 (fun n d => dict_get n (datasets D) = Some d) names ds.
Proof.
  revert acc. induction names as [|n names IH]; intros acc Hval.
  - exists []. constructor.
  - simpl in Hval. destruct (dict_get n (datasets D)) as [d|] eqn:Hn; [|done].
    destruct (length (keys_intersection acc d) =? 0); [|done].
    apply IH in Hval as (ds & Hds). exists (d :: ds). by constructor.
Qed.

Lemma merge_alias_app names ds acc rest :
  Forall2 (fun n d => dict_get n (datasets D) = Some d) names ds ->
  Forall dict_wf ds ->
  ~ shared_id (acc :: ds) ->
  merge_alias D (names ++ rest) acc = merge_alias D rest (acc ++ concat ds).
Proof.
  intros Hds. revert acc. induction Hds as [|n d names ds Hn Hds IH]; intros acc Hwf Hsh.
  - simpl. by rewrite app_nil_r.
  - simpl. rewrite Hn. apply Forall_cons in Hwf as [Hd Hwf].
    rewrite shared_id_step in Hsh.
    destruct (keys_intersection acc d) as [|k0 l] eqn:E.
    + simpl. rewrite dict_merge_disjoint; [|done|].
      * rewrite IH; [by rewrite <- app_assoc|done|tauto].
      * intros k Hk2 Hk1. eapply keys_intersection_nil in E; eauto.
    + exfalso. apply Hsh. by left.
Qed.

Lemma touches_Permutation (acc : dict ref) ds ds' :
  ds ≡ₚ ds' -> touches acc ds <-> touches acc ds'.
Proof.
  intros Hp. unfold touches. by setoid_rewrite Hp.
Qed.

Lemma shared_id_Permutation (ds ds' : list (dict ref)) :
  ds ≡ₚ ds' -> shared_id ds <-> shared_id ds'.
Proof.
  induction 1 as [|x l l' Hp IH|x y l|l1 l2 l3 _ IH1 _ IH2].
  - done.
  - rewrite !shared_id_cons, IH, (touches_Permutation x l l' Hp). tauto.
  - rewrite !shared_id_cons. unfold touches.
    repeat setoid_rewrite elem_of_cons. firstorder (subst; eauto 10).
  - by rewrite IH1.
Qed.

Lemma concat_Permutation {A} (ls ls' : list (list A)) :
  ls ≡ₚ ls' -> concat ls ≡ₚ concat ls'.
Proof.
  induction 1 as [|x l l' Hp IH|x y l|l1 l2 l3 _ IH1 _ IH2]; simpl.
  - done.
  - by rewrite IH.
  - rewrite !app_assoc. f_equiv. apply Permutation_app_comm.
  - by rewrite IH1.
Qed.

Lemma Forall2_lookup_Permutation {A B} (f : A -> option B) names names' ds :
  names ≡ₚ names' ->
  Forall2 (fun n d => f n = Some d) names ds ->
  exists ds', ds ≡ₚ ds' /\ Forall2 (fun n d => f n = Some d) names' ds'.
Proof.
  intros Hp. revert ds.
  induction Hp as [|x l l' Hp IH|x y l|l1 l2 l3 _ IH1 _ IH2]; intros ds Hds.
  - apply Forall2_nil_inv_l in Hds as ->. by exists [].
  - apply Forall2_cons_inv_l in Hds as (d & ds0 & Hx & Hds & ->).
    destruct (IH _ Hds) as (ds' & Hp' & Hds'). exists (d :: ds').
    split; [by constructor|by constructor].
  - apply Forall2_cons_inv_l in Hds as (d1 & ds0 & Hy & Hds & ->).
    apply Forall2_cons_inv_l in Hds as (d2 & ds1 & Hx & Hds & ->).
    exists (d2 :: d1 :: ds1). split; [apply perm_swap|by repeat constructor].
  - destruct (IH1 _ Hds) as (ds2 & Hp2 & Hds2).
    destruct (IH2 _ Hds2) as (ds3 & Hp3 & Hds3).
    exists ds3. split; [by etrans|done].
Qed.

Lemma dict_get_Permutation {V} (k : string) (d d' : dict V) :
  dict_wf d -> d ≡ₚ d' -> dict_get k d' = dict_get k d.
Proof.
  intros Hwf Hp.
  assert (Hwf' : dict_wf d') by (unfold dict_wf, dict_keys in *; by rewrite <- Hp).
  destruct (dict_get k d) as [v|] eqn:Hget.
  - apply dict_get_elem_wf; [done|]. rewrite <- Hp. by apply dict_get_Some_elem.
  - apply dict_get_None. apply dict_get_None in Hget.
    unfold dict_keys in *. by rewrite <- Hp.
Qed.

Lemma Forall2_lookup_values (names : list string) (ds : list (dict ref)) :
  Forall2 (fun n d => dict_get n (datasets D) = Some d) names ds ->
  Forall dict_wf (dict_values (datasets D)) ->
  Forall dict_wf ds.
Proof.
  intros Hds Hwf. rewrite Forall_forall in Hwf.
  induction Hds as [|n d names ds Hn Hds IH]; constructor; [|done].
  apply Hwf. apply dict_get_Some_elem in Hn.
  unfold dict_values. apply list_elem_of_fmap. by exists (n, d).
Qed.

(** X1. The mapping an alias resolves to is a dictionary again (no
    identifier twice), and looking an identifier up in it gives exactly
    the record that one of the underlying datasets holds under that
    identifier. *)
Theorem alias_lookup_through_datasets (name : string) (names : list string)
    (ds : list (dict ref)) (examples : dict ref) :
  dict_get name (default [] (alias D)) = Some names ->
  Forall2 (fun n d => dict_get n (datasets D) = Some d) names ds ->
  Forall dict_wf ds ->
  _get_dataset_from_database_dict D name = Val examples ->
  dict_wf examples /\
  forall k r,
    dict_get k examples = Some r <-> exists d, d ∈ ds /\ dict_get k d = Some r.
Proof.
  intros Halias Hds Hwf Hval. unfold _get_dataset_from_database_dict in Hval.
  rewrite Halias in Hval.
  pose proof (merge_alias_Val_not_shared _ _ _ _ Hds Hwf Hval) as Hsh.
  rewrite (merge_alias_disjoint D _ _ _ Hds Hwf Hsh) in Hval.
  simpl in Hval. injection Hval as <-. rewrite shared_id_nil_cons in Hsh.
  split; [by apply concat_wf|]. intros k r. split.
  - intros Hget. apply dict_get_Some_elem, elem_of_concat in Hget as (d & Hin & Hd).
    exists d. split; [done|]. apply dict_get_elem_wf; [|done].
    rewrite Forall_forall in Hwf. by apply Hwf.
  - intros (d & Hd & Hget). by eapply concat_get.
Qed.

(** X2. The order in which an alias lists its datasets decides the order
    of the merged mapping and nothing else: an alias that lists the same
    names in another order resolves whenever the first one does, to the
    same items in another order, with the same record under every
    identifier. *)
Theorem alias_order_irrelevant (a a' : string) (names names' : list string)
    (examples : dict ref) :
  dict_get a (default [] (alias D)) = Some names ->
  dict_get a' (default [] (alias D)) = Some names' ->
  names ≡ₚ names' ->
  Forall dict_wf (dict_values (datasets D)) ->
  _get_dataset_from_database_dict D a = Val examples ->
  exists examples',
    _get_dataset_from_database_dict D a' = Val examples' /\
    examples' ≡ₚ examples /\
    forall k, dict_get k examples' = dict_get k examples.
Proof.
  intros Ha Ha' Hp Hwf Hval. unfold _get_dataset_from_database_dict in *.
  rewrite Ha in Hval. rewrite Ha'.
  destruct (merge_alias_Val_found _ _ _ Hval) as (ds & Hds).
  pose proof (Forall2_lookup_values _ _ Hds Hwf) as Hwfds.
  pose proof (merge_alias_Val_not_shared _ _ _ _ Hds Hwfds Hval) as Hsh.
  rewrite (merge_alias_disjoint D _ _ _ Hds Hwfds Hsh) in Hval.
  simpl in Hval. injection Hval as <-.
  destruct (Forall2_lookup_Permutation _ _ _ _ Hp Hds) as (ds' & Hpds & Hds').
  pose proof (Forall2_lookup_values _ _ Hds' Hwf) as Hwfds'.
  rewrite shared_id_nil_cons in Hsh.
  assert (Hsh' : ~ shared_id ([] :: ds')).
  { rewrite shared_id_nil_cons. by rewrite <- (shared_id_Permutation _ _ Hpds). }
  exists (concat ds'). rewrite (merge_alias_disjoint D _ _ _ Hds' Hwfds' Hsh').
  split; [done|].
  assert (Hpc : concat ds ≡ₚ concat ds') by by apply concat_Permutation.
  split; [done|]. intros k. apply dict_get_Permutation; [|done].
  by apply concat_wf.
Qed.

Lemma merge_alias_missing (name missing : string) (pre post : list string)
    (ds : list (dict ref)) :
  dict_get name (default [] (alias D)) = Some (pre ++ missing :: post) ->
  Forall2 (fun n d => dict_get n (datasets D) = Some d) pre ds ->
  Forall dict_wf ds ->
  ~ shared_id ds ->
  dict_get missing (datasets D) = None ->
  _get_dataset_from_database_dict D name = Exc (KeyError missing).
Proof.
  intros Halias Hds Hwf Hsh Hmiss.
  unfold _get_dataset_from_database_dict. rewrite Halias.
  rewrite (merge_alias_app _ ds); [|done|done|by rewrite shared_id_nil_cons].
  simpl. by rewrite Hmiss.
Qed.

Lemma shared_id_at (ds : list (dict ref)) : shared_id ds <-> exists k, shared_at ds k.
Proof.
  unfold shared_id, shared_at. split.
  - intros (i & j & di & dj & k & H). exists k, i, j, di, dj. tauto.
  - intros (k & i & j & di & dj & H). exists i, j, di, dj, k. tauto.
Qed.

Lemma shared_at_step (acc d : dict ref) ds k :
  shared_at ((acc ++ d) :: ds) k -> shared_at (acc :: d :: ds) k.
Proof.
  intros (i & j & di & dj & Hij & Hi & Hj & Hki & Hkj).
  destruct j as [|j]; [lia|]. simpl in Hj. destruct i as [|i].
  - simpl in Hi. injection Hi as <-. rewrite dict_keys_app in Hki.
    apply elem_of_app in Hki as [Hki|Hki].
    + exists 0, (S (S j)), acc, dj. repeat split; try done. lia.
    + exists 1, (S (S j)), d, dj. repeat split; try done. lia.
  - simpl in Hi. exists (S (S i)), (S (S j)), di, dj. repeat split; try done. lia.
Qed.

Lemma merge_alias_conflict_ids names ds acc :
  Forall2 (fun n d => dict_get n (datasets D) = Some d) names ds ->
  Forall dict_wf ds ->
  shared_id (acc :: ds) ->
  exists intersection,
    intersection <> [] /\
    (forall k, k ∈ intersection -> shared_at (acc :: ds) k) /\
    merge_alias D names acc = Exc (AssertionError (VList (VStr <$> intersection))).
Proof.
  intros Hds. revert acc. induction Hds as [|n d names ds Hn Hds IH]; intros acc Hwf Hsh.
  - apply shared_id_cons in Hsh as [(k & dj & Hdj & _)|(i & j & di & dj & k & _ & Hi & _)].
    + by apply elem_of_nil in Hdj.
    + done.
  - simpl. rewrite Hn. apply Forall_cons in Hwf as [Hd Hwf].
    destruct (keys_intersection acc d) as [|k0 l] eqn:E.
    + simpl. rewrite dict_merge_disjoint; [|done|].
      * destruct (IH (acc ++ d) Hwf) as (inter & Hne & Hall & Hexc).
        { apply shared_id_step in Hsh as [Hne|Hsh]; [by rewrite E in Hne|done]. }
        exists inter. split; [done|]. split; [|done].
        intros k Hk. by apply shared_at_step, Hall.
      * intros k Hk2 Hk1. eapply keys_intersection_nil in E; eauto.
    + exists (k0 :: l). split; [done|]. split; [|done].
      intros k Hk. rewrite <- E in Hk. unfold keys_intersection in Hk.
      apply list_elem_of_filter in Hk as [Hk2 Hk1].
      exists 0, 1, acc, d. repeat split; try done. lia.
Qed.

Lemma resolved_name_listed (name : string) (examples : dict ref) :
  _get_dataset_from_database_dict D name = Val examples ->
  name ∈ dataset_names D.
Proof.
  unfold _get_dataset_from_database_dict, dataset_names. intros Hval.
  apply elem_of_app.
  destruct (dict_get name (default [] (alias D))) as [names|] eqn:Ha.
  - right. apply dict_get_is_Some. by rewrite Ha.
  - left. apply dict_get_is_Some.
    by destruct (dict_get name (datasets D)).
Qed.

Lemma merge_alias_elem names acc examples kv :
  merge_alias D names acc = Val examples ->
  kv ∈ examples ->
  kv ∈ acc \/ exists n ex, dict_get n (datasets D) = Some ex /\ kv ∈ ex.
Proof.
  revert acc. induction names as [|n names IH]; intros acc Hval Hin.
  - simpl in Hval. injection Hval as <-. by left.
  - simpl in Hval. destruct (dict_get n (datasets D)) as [d|] eqn:Hn; [|done].
    destruct (length (keys_intersection acc d) =? 0); [|done].
    destruct (IH _ Hval Hin) as [Hm|Hex]; [|by right].
    apply elem_of_dict_merge in Hm as [Hacc|Hd]; [by left|].
    right. by exists n, d.
Qed.

Lemma resolved_elem (name : string) (examples : dict ref) kv :
  _get_dataset_from_database_dict D name = Val examples ->
  kv ∈ examples ->
  exists n ex, dict_get n (datasets D) = Some ex /\ kv ∈ ex.
Proof.
  unfold _get_dataset_from_database_dict. intros Hval Hin.
  destruct (dict_get name (default [] (alias D))) as [names|].
  - destruct (merge_alias_elem _ _ _ _ Hval Hin) as [Hnil|Hex]; [|done].
    by apply elem_of_nil in Hnil.
  - destruct (dict_get name (datasets D)) as [ex|] eqn:Hn; [|done].
    injection Hval as <-. by exists name, ex.
Qed.

End Resolution.

(** ** [get_dataset]: failures, repeated names, what a call leaves behind *)

Section Calls.
Context `{K : Keys}.
Variable D : database_doc.

Lemma shared_at_nil_cons (ds : list (dict ref)) k :
  shared_at ([] :: ds) k -> shared_at ds k.
Proof.
  intros (i & j & di & dj & Hij & Hi & Hj & Hki & Hkj).
  destruct i as [|i].
  - simpl in Hi. injection Hi as <-. by apply elem_of_nil in Hki.
  - destruct j as [|j]; [lia|]. exists i, j, di, dj. repeat split; try done. lia.
Qed.

Lemma fetch_all_app names1 names2 acc st :
  fetch_all D (names1 ++ names2) acc st =
    match fetch_all D names1 acc st with
    | Ok ws st1 => fetch_all D names2 ws st1
    | Raise e st1 => Raise e st1
    end.
Proof.
  revert acc st. induction names1 as [|n names1 IH]; intros acc st; [done|].
  simpl. unfold bind. destruct (fetch D n st) as [w st1|e st1]; [|done].
  apply IH.
Qed.

(** What a name that builds no wrapper raises does not depend on the store. *)
Lemma build_error name :
  (forall examples,
     _get_dataset_from_database_dict D name = Val examples -> examples = []) ->
  exists e, forall st, build D name st = Raise e st.
Proof.
  intros Hnone. unfold build.
  destruct (_get_dataset_from_database_dict D name) as [examples|e] eqn:Hres.
  - rewrite (Hnone examples eq_refl). by exists (RuntimeError name).
  - destruct e; eauto.
Qed.

Lemma cache_ok_not_cached name st :
  cache_ok D st ->
  (forall examples,
     _get_dataset_from_database_dict D name = Val examples -> examples = []) ->
  dict_get name (cache st) = None.
Proof.
  intros Hok Hnone. destruct (dict_get name (cache st)) as [w|] eqn:Hc; [|done].
  apply dict_get_Some_elem, Hok in Hc as (examples & h & Hres & Hne & _).
  by apply Hnone in Hres.
Qed.

Lemma fetch_Ok_resolves name st w st' :
  cache_ok D st ->
  fetch D name st = Ok w st' ->
  exists examples h,
    resolves D name examples /\ wrappers st' !! w = Some (snapshot h examples).
Proof.
  intros Hok Hf. unfold fetch in Hf.
  destruct (dict_get name (cache st)) as [w0|] eqn:Hc.
  - injection Hf as <- <-.
    apply dict_get_Some_elem, Hok in Hc as (examples & h & Hres & Hne & Hw).
    by exists examples, h.
  - apply build_Ok in Hf as (examples & Hres & Hne & -> & ->).
    exists examples, (augment name examples (heap st)). split; [done|]. simpl.
    by rewrite lookup_app_r, Nat.sub_diag.
Qed.

(** A call that returns has fetched a wrapper for every name, and returns
    their concatenation. *)
Lemma get_dataset_Ok_inv names st ds st' :
  get_dataset D names st = Ok ds st' ->
  exists ws,
    fetch_all D (to_list names) [] st = Ok ws st' /\ ds = Concatenate ws /\ ws <> [].
Proof.
  intros Hget. destruct names as [|name|names]; [done| |];
    unfold get_dataset, bind in Hget;
    destruct (fetch_all D _ [] st) as [ws st1|e st1]; try done;
    unfold lift, concatenate in Hget; destruct ws as [|w ws]; try done;
    injection Hget as <- <-; by exists (w :: ws).
Qed.

Lemma fetch_all_Ok_inv names acc st ws st' :
  cache_ok D st ->
  fetch_all D names acc st = Ok ws st' ->
  exists ws',
    ws = acc ++ ws' /\
    Forall2 (fun n w =>
               dict_get n (cache st') = Some w /\
               exists examples h,
                 resolves D n examples /\
                 wrappers st' !! w = Some (snapshot h examples))
            names ws'.
Proof.
  revert acc st. induction names as [|n names IH]; intros acc st Hok Hfa.
  - simpl in Hfa. injection Hfa as <- <-. exists []. by rewrite app_nil_r.
  - simpl in Hfa. unfold bind in Hfa.
    destruct (fetch D n st) as [w st1|e st1] eqn:Hf; [|done].
    assert (Hok1 : cache_ok D st1).
    { pose proof (fetch_cache_ok D n st Hok) as H1. by rewrite Hf in H1. }
    destruct (IH _ _ Hok1 Hfa) as (ws' & -> & Hall).
    exists (w :: ws'). split; [by rewrite <- app_assoc|].
    constructor; [|done].
    pose proof (fetch_all_keeps D names st1 (acc ++ [w]) n w
                  (fetch_Ok_cached D _ _ _ _ Hf)) as Hkeep.
    rewrite Hfa in Hkeep. simpl in Hkeep. split; [done|].
    destruct (fetch_Ok_resolves _ _ _ _ Hok Hf) as (examples & h & Hres & Hw).
    exists examples, h. split; [done|].
    destruct (fetch_all_frame D names (acc ++ [w]) st1) as [Hpre _].
    rewrite Hfa in Hpre. simpl in Hpre. by eapply prefix_lookup_Some.
Qed.

(** X3. An alias that lists a name which is no dataset of the document
    (another alias, for instance) cannot be fetched, although
    [dataset_names] lists it: when the datasets listed before that name
    share no identifier, [get_dataset] raises, in every store the database
    can be in, the [KeyError] with close matches that names the alias
    itself, and leaves the store as it was. *)
Theorem alias_of_missing_dataset (name missing : string) (pre post : list string)
    (ds : list (dict ref)) (st : state) :
  reachable D st ->
  dict_get name (default [] (alias D)) = Some (pre ++ missing :: post) ->
  Forall2 (fun n d => dict_get n (datasets D) = Some d) pre ds ->
  Forall dict_wf ds ->
  ~ shared_id ds ->
  dict_get missing (datasets D) = None ->
  name ∈ dataset_names D /\
  get_dataset D (StrArg name) st
    = Raise (KeyErrorCloseMatches name
               (difflib.get_close_matches name (dataset_names D) 5 cutoff_0) D) st.
Proof.
  intros Hreach Halias Hds Hwf Hsh Hmiss.
  pose proof (merge_alias_missing D _ _ _ _ _ Halias Hds Hwf Hsh Hmiss) as Hres.
  split.
  - unfold dataset_names. apply elem_of_app. right.
    apply dict_get_is_Some. by rewrite Halias.
  - rewrite get_dataset_StrArg, fetch_miss.
    + unfold build. by rewrite Hres.
    + apply (reachable_not_cached D); [done|]. intros examples. by rewrite Hres.
Qed.

(** X4. The [AssertionError] of an alias whose datasets share an
    identifier is not caught by [get_dataset]: in every store the database
    can be in the call raises it and leaves the store as it was, and every
    identifier the error carries is a key of two of the underlying
    datasets. *)
Theorem alias_conflict_passes_through (name : string) (names : list string)
    (ds : list (dict ref)) (st : state) :
  reachable D st ->
  dict_get name (default [] (alias D)) = Some names ->
  Forall2 (fun n d => dict_get n (datasets D) = Some d) names ds ->
  Forall dict_wf ds ->
  shared_id ds ->
  exists intersection,
    intersection <> [] /\
    (forall k, k ∈ intersection -> shared_at ds k) /\
    get_dataset D (StrArg name) st
      = Raise (AssertionError (VList (VStr <$> intersection))) st.
Proof.
  intros Hreach Halias Hds Hwf Hsh.
  destruct (merge_alias_conflict_ids D names ds [] Hds Hwf) as (inter & Hne & Hall & Hexc).
  { by apply shared_id_nil_cons. }
  assert (Hres : _get_dataset_from_database_dict D name
                 = Exc (AssertionError (VList (VStr <$> inter)))).
  { unfold _get_dataset_from_database_dict. by rewrite Halias. }
  exists inter. split; [done|]. split.
  - intros k Hk. by apply shared_at_nil_cons, Hall.
  - rewrite get_dataset_StrArg, fetch_miss.
    + unfold build. by rewrite Hres.
    + apply (reachable_not_cached D); [done|]. intros examples. by rewrite Hres.
Qed.

(** X5. A call of [get_dataset] that returns was given listed names only:
    every name asked for is one of [dataset_names] and resolves to a
    mapping that is not empty, and the weak dictionary holds a wrapper for
    each of them when the call returns. *)
Theorem get_dataset_returns_for_listed_names (names : names_arg) (st : state)
    (ds : dataset) (st' : state) :
  reachable D st ->
  get_dataset D names st = Ok ds st' ->
  Forall (fun n =>
            n ∈ dataset_names D /\
            (exists examples, resolves D n examples) /\
            is_Some (dict_get n (cache st')))
         (to_list names).
Proof.
  intros Hreach Hget. apply (reachable_cache_ok D) in Hreach.
  destruct (get_dataset_Ok_inv _ _ _ _ Hget) as (ws & Hfa & _ & _).
  destruct (fetch_all_Ok_inv _ _ _ _ _ Hreach Hfa) as (ws' & _ & Hall).
  clear Hfa Hget. induction Hall as [|n w ns ws0 (Hc & examples & h & Hres & Hw) _ IH];
    constructor; [|done].
  split; [by eapply resolved_name_listed, Hres|]. split; [by exists examples|].
  by rewrite Hc.
Qed.

(** X6. Within one call a name is built at most once: the dataset
    returned for a list of names has one constituent per name, in order,
    each the wrapper the weak dictionary holds for that name when the call
    returns, so a name listed twice contributes the same wrapper twice. *)
Theorem repeated_names_share_wrapper (names : list string) (st : state)
    (ws : list wid) (st' : state) :
  reachable D st ->
  get_dataset D (ListArg names) st = Ok (Concatenate ws) st' ->
  Forall2 (fun n w => dict_get n (cache st') = Some w) names ws /\
  forall i j n wi wj,
    names !! i = Some n -> names !! j = Some n ->
    ws !! i = Some wi -> ws !! j = Some wj ->
    wi = wj.
Proof.
  intros Hreach Hget. apply (reachable_cache_ok D) in Hreach.
  destruct (get_dataset_Ok_inv _ _ _ _ Hget) as (ws0 & Hfa & [= ->] & _).
  cbn [to_list] in Hfa.
  destruct (fetch_all_Ok_inv _ _ _ _ _ Hreach Hfa) as (ws' & -> & Hall).
  simpl. assert (Hc : Forall2 (fun n w => dict_get n (cache st') = Some w) names ws').
  { eapply Forall2_impl; [exact Hall|]. by intros n w [? _]. }
  split; [done|]. intros i j n wi wj Hi Hj Hwi Hwj.
  pose proof (Forall2_lookup_lr _ _ _ _ _ _ Hc Hi Hwi) as H1.
  pose proof (Forall2_lookup_lr _ _ _ _ _ _ Hc Hj Hwj) as H2.
  congruence.
Qed.

(** X7. A call on a list of names is not undone when it fails: when the
    names up to some point resolve and the next one does not (it is
    unknown, empty or in conflict), the call raises the error of that
    name, whatever names follow it, and leaves the store exactly as the
    call on the names before it alone would have: their wrappers are built
    and cached and their records are written to. *)
Theorem failed_call_keeps_earlier_names (pre : list string) (bad : string)
    (exs : list (dict ref)) (st : state) :
  reachable D st ->
  Forall2 (fun n ex => _get_dataset_from_database_dict D n = Val ex /\ ex <> [])
          pre exs ->
  (forall examples,
     _get_dataset_from_database_dict D bad = Val examples -> examples = []) ->
  exists e,
    build D bad st = Raise e st /\
    forall post,
      get_dataset D (ListArg (pre ++ bad :: post)) st
        = Raise e (final_state (get_dataset D (ListArg pre) st)) /\
      Forall (fun n =>
                is_Some (dict_get n (cache (final_state
                           (get_dataset D (ListArg (pre ++ bad :: post)) st)))))
             pre.
Proof.
  intros Hreach Hpre Hbad. apply (reachable_cache_ok D) in Hreach.
  destruct (build_error bad Hbad) as (e & He). exists e. split; [done|].
  intros post.
  destruct (fetch_all_Ok D pre exs [] st Hreach Hpre) as (ws & st1 & Hfa & _).
  assert (Hok1 : cache_ok D st1).
  { pose proof (fetch_all_cache_ok D pre [] st Hreach) as H1. by rewrite Hfa in H1. }
  assert (Hcall : get_dataset D (ListArg (pre ++ bad :: post)) st = Raise e st1).
  { unfold get_dataset, bind. cbn [to_list]. rewrite fetch_all_app, Hfa.
    cbn [fetch_all]. unfold bind.
    rewrite fetch_miss, He; [done|]. by apply cache_ok_not_cached. }
  assert (Hst1 : final_state (get_dataset D (ListArg pre) st) = st1).
  { rewrite get_dataset_final_state. cbn [to_list]. by rewrite Hfa. }
  rewrite Hcall, Hst1. split; [done|]. simpl.
  destruct (fetch_all_Ok_inv _ _ _ _ _ Hreach Hfa) as (ws' & _ & Hall).
  clear -Hall. induction Hall as [|n w ns ws0 (Hc & _) _ IH]; constructor; [|done].
  by rewrite Hc.
Qed.

End Calls.

(** ** The field [EXAMPLE_ID] across calls *)

Section ExampleIds.
Context `{K : Keys}.
Variable D : database_doc.
Hypothesis keys_differ : EXAMPLE_ID <> DATASET_NAME.
Hypothesis consistent : ids_consistent D.

Lemma resolved_record_id name examples n ex id id' r :
  _get_dataset_from_database_dict D name = Val examples ->
  (id', r) ∈ examples ->
  dict_get n (datasets D) = Some ex -> (id, r) ∈ ex ->
  id' = id.
Proof.
  intros Hres Hin Hn Hex.
  destruct (resolved_elem D _ _ _ Hres Hin) as (n2 & ex2 & Hn2 & Hin2).
  exact (consistent _ _ _ _ _ _ _ Hn2 Hin2 Hn Hex).
Qed.

Lemma elem_of_snd_inv {A B} (l : list (A * B)) (y : B) :
  y ∈ l.*2 -> exists x, (x, y) ∈ l.
Proof.
  intros ([x y'] & -> & Hin)%list_elem_of_fmap. by exists x.
Qed.

(** What the loop of [get_dataset] does to a record of the document. *)
Lemma augment_doc_record name examples h n ex id r :
  _get_dataset_from_database_dict D name = Val examples ->
  dict_get n (datasets D) = Some ex -> (id, r) ∈ ex ->
  augment name examples h !! r =
    if decide (r ∈ examples.*2) then set_example_fields id name <$> h !! r
    else h !! r.
Proof.
  intros Hres Hn Hex. destruct (decide (r ∈ examples.*2)) as [Hr|Hr].
  - destruct (elem_of_snd_inv _ _ Hr) as (id' & Hin).
    assert (id' = id) as -> by by eapply resolved_record_id.
    apply augment_lookup_in; [|done].
    intros id'' Hin''. by eapply resolved_record_id.
  - by apply augment_lookup_notin.
Qed.

Lemma augment_in_place name examples h :
  _get_dataset_from_database_dict D name = Val examples ->
  example_ids_in_place D h ->
  example_ids_in_place D (augment name examples h).
Proof.
  intros Hres Hh n ex id r e v Hn Hex Hlook Hget.
  rewrite (augment_doc_record _ _ _ _ _ _ _ Hres Hn Hex) in Hlook.
  destruct (decide (r ∈ examples.*2)) as [Hr|Hr]; [|by eapply Hh].
  destruct (h !! r) as [e0|]; [|done]. injection Hlook as <-.
  rewrite set_example_fields_EXAMPLE_ID in Hget by done. by injection Hget as <-.
Qed.

Lemma fetch_in_place name st :
  example_ids_in_place D (heap st) ->
  example_ids_in_place D (heap (final_state (fetch D name st))).
Proof.
  intros Hh. unfold fetch. destruct (dict_get name (cache st)); [done|].
  destruct (build D name st) as [w st'|e st'] eqn:Hb.
  - apply build_Ok in Hb as (examples & Hres & _ & _ & ->). simpl.
    by apply augment_in_place.
  - apply build_Raise in Hb as ->. done.
Qed.

Lemma fetch_all_in_place names acc st :
  example_ids_in_place D (heap st) ->
  example_ids_in_place D (heap (final_state (fetch_all D names acc st))).
Proof.
  revert acc st. induction names as [|n names IH]; intros acc st Hh; [done|].
  simpl. unfold bind. pose proof (fetch_in_place n st Hh) as H1.
  destruct (fetch D n st) as [w st1|e st1]; [|done]. by apply IH.
Qed.

(** X8. [get_dataset] never writes a wrong identifier: in a document
    that stores no record object under two different identifiers, if
    every record that has a field [EXAMPLE_ID] holds its own identifier
    there before a call, the same is true after it, whatever the names
    and whether the call returns or raises; and a record of a name that
    the call builds holds its identifier afterwards. *)
Theorem example_id_stable (names : names_arg) (st : state) :
  example_ids_in_place D (heap st) ->
  let st' := final_state (get_dataset D names st) in
  example_ids_in_place D (heap st') /\
  forall name examples id r,
    names = StrArg name ->
    dict_get name (cache st) = None ->
    _get_dataset_from_database_dict D name = Val examples ->
    (id, r) ∈ examples ->
    r < length (heap st) ->
    exists e, heap st' !! r = Some e /\ dict_get EXAMPLE_ID e = Some (VStr id).
Proof.
  intros Hh. split.
  - rewrite get_dataset_final_state. destruct names; [done| |];
      by apply fetch_all_in_place.
  - intros name examples id r -> Hc Hres Hin Hr.
    rewrite get_dataset_StrArg, fetch_miss by done.
    destruct examples as [|kv examples']; [by apply elem_of_nil in Hin|].
    rewrite (build_Val D name (kv :: examples')) by done. cbn [final_state heap].
    destruct (resolved_elem D _ _ _ Hres Hin) as (n & ex & Hn & Hex).
    rewrite (augment_doc_record _ _ _ _ _ _ _ Hres Hn Hex).
    rewrite decide_True.
    + destruct (lookup_lt_is_Some_2 (heap st) r Hr) as [e He]. rewrite He. simpl.
      eexists. split; [done|]. by apply set_example_fields_EXAMPLE_ID.
    + apply list_elem_of_fmap. by exists (id, r).
Qed.

End ExampleIds.

(** ** Iterating over a fetched dataset: identifiers and lengths *)

Section Iteration.
Context `{K : Keys}.
Variable D : database_doc.
Hypothesis keys_differ : EXAMPLE_ID <> DATASET_NAME.

Lemma heap_frame_refs_valid h h' :
  length h' = length h -> doc_refs_valid D h <-> doc_refs_valid D h'.
Proof.
  intros Hlen. unfold doc_refs_valid. rewrite Hlen. done.
Qed.

Lemma heap_frame_sym h h' : heap_frame h h' -> heap_frame h' h.
Proof.
  intros [Hlen Hframe]. split; [done|]. intros r e' Hr.
  destruct (lookup_lt_is_Some_2 h r) as [e He].
  { rewrite <- Hlen. by eapply lookup_lt_Some. }
  destruct (Hframe r e He) as (e'' & He'' & Hsame).
  assert (e'' = e') as -> by congruence.
  exists e. split; [done|]. intros k Hk1 Hk2. symmetry. by apply Hsame.
Qed.

Lemma Forall2_impl_elem {A B} (P Q : A -> B -> Prop) (l : list A) (k : list B) :
  Forall2 P l k ->
  (forall x y, x ∈ l -> P x y -> Q x y) ->
  Forall2 Q l k.
Proof.
  induction 1 as [|x y l k Hxy _ IH]; intros HPQ; constructor.
  - apply HPQ; [apply list_elem_of_here|done].
  - apply IH. intros x' y' Hin. apply HPQ. by apply list_elem_of_further.
Qed.

Lemma resolved_refs_valid name examples h kv :
  doc_refs_valid D h ->
  _get_dataset_from_database_dict D name = Val examples ->
  kv ∈ examples -> kv.2 < length h.
Proof.
  intros Hvalid Hres Hin.
  destruct (resolved_elem D _ _ _ Hres Hin) as (n & ex & Hn & Hex).
  destruct kv as [i r]. by eapply Hvalid.
Qed.

(** Whatever a record of the mapping held before, it carries afterwards
    an identifier under which the mapping stores it. *)
Lemma augment_EXAMPLE_ID name examples h example_id r :
  (example_id, r) ∈ examples -> r < length h ->
  exists example' i,
    augment name examples h !! r = Some example' /\
    (i, r) ∈ examples /\
    dict_get EXAMPLE_ID example' = Some (VStr i).
Proof.
  revert h example_id.
  induction examples as [|[k r'] examples IH]; intros h example_id Hin Hr.
  - by apply elem_of_nil in Hin.
  - rewrite augment_cons. cbn [fst snd].
    destruct (decide (r ∈ examples.*2)) as [Hr2|Hr2].
    + apply list_elem_of_fmap in Hr2 as ([k2 r2] & -> & Hin2).
      destruct (IH (alter (set_example_fields k name) r' h) k2 Hin2)
        as (e' & i & He' & Hi & Hid); [by rewrite length_alter|].
      exists e', i. split; [done|]. split; [by apply list_elem_of_further|done].
    + rewrite augment_lookup_notin by done.
      apply elem_of_cons in Hin as [[= -> ->]|Hin].
      * rewrite list_lookup_alter_eq.
        destruct (lookup_lt_is_Some_2 h r' Hr) as [e ->]. cbn.
        eexists _, k. split; [done|]. split; [apply list_elem_of_here|].
        by apply set_example_fields_EXAMPLE_ID.
      * exfalso. apply Hr2. apply list_elem_of_fmap. by exists (example_id, r).
Qed.

(** *** What a wrapper holds *)

Lemma snapshot_keys h (examples : dict ref) :
  dict_keys (snapshot h examples) = dict_keys examples.
Proof.
  unfold dict_keys, snapshot.
  induction examples as [|kv examples IH]; cbn; [done|by rewrite IH].
Qed.

Lemma snapshot_values h (examples : dict ref) :
  dict_values (snapshot h examples) = (fun kv => default [] (h !! kv.2)) <$> examples.
Proof.
  unfold dict_values, snapshot.
  induction examples as [|kv examples IH]; cbn; [done|by rewrite IH].
Qed.

(** The wrapper built for a name holds the records as the loop of
    [get_dataset] has just left them. *)
Lemma snapshot_yields name examples h :
  (forall kv, kv ∈ examples -> kv.2 < length h) ->
  yields_dataset name examples (augment name examples h)
    (dict_values (snapshot (augment name examples h) examples)).
Proof.
  intros Hvalid. rewrite snapshot_values. unfold yields_dataset.
  apply Forall2_fmap_r, Forall_Forall2_diag, Forall_forall. intros [k r] Hin.
  specialize (Hvalid _ Hin). unfold compose. cbn [snd] in *.
  destruct (augment_DATASET_NAME name examples h k r Hin Hvalid) as (e1 & He1 & Hname).
  destruct (augment_EXAMPLE_ID name examples h k r Hin Hvalid)
    as (e2 & i & He2 & Hi & Hid).
  rewrite He1 in He2. injection He2 as <-. rewrite He1. cbn [from_option].
  split; [done|]. split; [by exists i|].
  exists e1. split; [done|]. apply same_other_fields_refl.
Qed.

Lemma yielded_frame name examples h h' kv s :
  heap_frame h h' -> yielded name examples h kv s -> yielded name examples h' kv s.
Proof.
  intros [_ Hframe] (Hname & Hid & e & He & Hsame). split; [done|]. split; [done|].
  destruct (Hframe _ _ He) as (e' & He' & Hsame'). exists e'. split; [done|].
  intros k Hk1 Hk2. rewrite (Hsame k Hk1 Hk2). symmetry. by apply Hsame'.
Qed.

Lemma yields_dataset_frame name examples h h' ys :
  heap_frame h h' ->
  yields_dataset name examples h ys -> yields_dataset name examples h' ys.
Proof.
  intros Hframe Hy. eapply Forall2_impl; [exact Hy|].
  intros kv s. by apply yielded_frame.
Qed.

(** When the mapping stores no record under two keys, the identifier a
    yielded record carries is the key of its item. *)
Lemma yields_dataset_ids name examples h ys :
  one_key_per_record examples ->
  yields_dataset name examples h ys ->
  Forall2 (fun kv s => dict_get EXAMPLE_ID s = Some (VStr kv.1)) examples ys.
Proof.
  intros Huniq Hy. eapply Forall2_impl_elem; [exact Hy|].
  intros [k r] s Hin (_ & (i & Hi & Hid) & _). cbn [fst snd] in *.
  by rewrite (Huniq k i r Hin Hi).
Qed.

(** *** The invariant of the wrappers *)

Lemma build_hold name st :
  doc_refs_valid D (heap st) ->
  wrappers_hold D st ->
  wrappers_hold D (final_state (build D name st)).
Proof.
  intros Hvalid Hhold. destruct (build D name st) as [w st'|e st'] eqn:Hb.
  - apply build_Ok in Hb as (examples & Hres & Hne & -> & ->). cbn [final_state].
    intros n w [[= -> ->]|Hin]%elem_of_dict_set; cbn [wrappers heap].
    + exists examples, (snapshot (augment name examples (heap st)) examples).
      split; [done|]. split; [by rewrite lookup_app_r, Nat.sub_diag|].
      split; [apply snapshot_keys|]. apply snapshot_yields.
      intros kv Hkv. by eapply resolved_refs_valid.
    + destruct (Hhold n w Hin) as (ex & snap & Hr & Hw & Hkeys & Hy).
      exists ex, snap. split; [done|]. split; [by apply lookup_app_l_Some|].
      split; [done|]. eapply yields_dataset_frame; [apply augment_frame|done].
  - by apply build_Raise in Hb as ->.
Qed.

Lemma fetch_hold name st :
  doc_refs_valid D (heap st) ->
  wrappers_hold D st ->
  wrappers_hold D (final_state (fetch D name st)).
Proof.
  intros Hvalid Hhold. unfold fetch. destruct (dict_get name (cache st)); [done|].
  by apply build_hold.
Qed.

Lemma fetch_refs_valid name st :
  doc_refs_valid D (heap st) ->
  doc_refs_valid D (heap (final_state (fetch D name st))).
Proof.
  intros Hvalid. destruct (fetch_frame D name st) as [_ [Hlen _]].
  by apply (heap_frame_refs_valid _ _ Hlen).
Qed.

Lemma fetch_all_hold names acc st :
  doc_refs_valid D (heap st) ->
  wrappers_hold D st ->
  wrappers_hold D (final_state (fetch_all D names acc st)).
Proof.
  revert acc st. induction names as [|n names IH]; intros acc st Hvalid Hhold; [done|].
  simpl. unfold bind.
  pose proof (fetch_hold n st Hvalid Hhold) as H1.
  pose proof (fetch_refs_valid n st Hvalid) as H2.
  destruct (fetch D n st) as [w st1|e st1]; [|done]. by apply IH.
Qed.

Lemma reachable_hold st :
  reachable D st -> doc_refs_valid D (heap st) -> wrappers_hold D st.
Proof.
  induction 1 as [h|st names _ IH|st alive _ IH].
  - intros _ n w Hin. by apply elem_of_nil in Hin.
  - rewrite get_dataset_final_state.
    assert (Hall : forall ns,
              doc_refs_valid D (heap (final_state (fetch_all D ns [] st))) ->
              wrappers_hold D (final_state (fetch_all D ns [] st))).
    { intros ns Hvalid. destruct (fetch_all_frame D ns [] st) as [_ [Hlen _]].
      apply (heap_frame_refs_valid _ _ Hlen) in Hvalid.
      apply fetch_all_hold; auto. }
    destruct names as [|name|names]; [done| |]; apply Hall.
  - intros Hvalid n w Hin. unfold collect in *. cbn [cache wrappers heap] in *.
    apply list_elem_of_filter in Hin as [_ Hin]. by apply IH.
Qed.

(** What the parts of a dataset yield, when the weak dictionary holds every
    part under its name. *)
Lemma hold_iter st names ws exs :
  wrappers_hold D st ->
  Forall2 (fun n ex => _get_dataset_from_database_dict D n = Val ex /\ ex <> [])
          names exs ->
  Forall2 (fun n w => dict_get n (cache st) = Some w) names ws ->
  Forall3 (fun n ex ys => yields_dataset n ex (heap st) ys)
          names exs (iter st (Concatenate ws)).
Proof.
  intros Hhold Hres. revert ws.
  induction Hres as [|n ex names exs [Hn Hne] _ IH]; intros ws Hws.
  - apply Forall2_nil_inv_l in Hws as ->. constructor.
  - apply Forall2_cons_inv_l in Hws as (w & ws' & Hw & Hws & ->).
    change (iter st (Concatenate (w :: ws')))
      with (dict_values (default [] (wrappers st !! w)) :: iter st (Concatenate ws')).
    constructor; [|by apply IH].
    apply dict_get_Some_elem in Hw.
    destruct (Hhold n w Hw) as (ex' & snap & [Hr _] & Hsnap & _ & Hy).
    rewrite Hsnap. cbn [from_option]. assert (ex' = ex) as -> by congruence. done.
Qed.

(** Names that all resolve are fetched, in a store the database can be
    in, as wrappers that yield the datasets of these names. *)
Lemma fetch_all_yields names exs st :
  reachable D st ->
  doc_refs_valid D (heap st) ->
  Forall2 (fun n ex => _get_dataset_from_database_dict D n = Val ex /\ ex <> [])
          names exs ->
  exists ws st',
    fetch_all D names [] st = Ok ws st' /\
    length ws = length names /\
    heap_frame (heap st) (heap st') /\
    Forall3 (fun n ex ys => yields_dataset n ex (heap st') ys)
            names exs (iter st' (Concatenate ws)).
Proof.
  intros Hreach Hvalid Hres.
  destruct (fetch_all_Ok D names exs [] st (reachable_cache_ok D st Hreach) Hres)
    as (ws & st' & Hfa & Hws).
  cbn [app] in Hfa. exists ws, st'. split; [done|].
  split; [symmetry; by eapply Forall2_length|].
  pose proof (reachable_call D st (ListArg names) Hreach) as Hreach'.
  rewrite get_dataset_final_state in Hreach'. cbn [to_list] in Hreach'.
  destruct (fetch_all_frame D names [] st) as [_ Hframe].
  rewrite Hfa in Hreach', Hframe. cbn [final_state] in Hreach', Hframe.
  split; [done|]. apply hold_iter; [|done|done].
  apply reachable_hold; [done|].
  by apply (heap_frame_refs_valid (heap st)); [apply Hframe|].
Qed.

(** C7. For a list of names that all resolve to non-empty mappings,
    [get_dataset] returns a dataset in every store the database can be in;
    one iteration over it yields, for the first name, one record per item
    of the name's mapping, in the mapping's order (the record of the item,
    carrying the name and its identifier), then those of the second name,
    and so on; iterating over it twice yields that same sequence both
    times and leaves the dataset and the store as they were.  For the
    empty list of names there is no dataset: the call raises
    [ValueError]. *)
Theorem get_dataset_concatenates_in_order (names : list string)
    (exs : list (dict ref)) (st : state) :
  reachable D st ->
  doc_refs_valid D (heap st) ->
  Forall2 (fun n ex => _get_dataset_from_database_dict D n = Val ex /\ ex <> [])
          names exs ->
  (names = [] ->
   get_dataset D (ListArg names) st = Raise (ValueError EmptyString) st) /\
  (names <> [] ->
   exists ds st' yss,
     get_dataset D (ListArg names) st = Ok ds st' /\
     Forall3 (fun n ex ys => yields_dataset n ex (heap st') ys) names exs yss /\
     list_of st' ds = concat yss /\
     (first <- iterate ds;; second <- iterate ds;; ret (first, second))%py st'
       = Ok (concat yss, concat yss) st').
Proof.
  intros Hreach Hvalid Hres. split; [by intros ->|]. intros Hne.
  destruct (fetch_all_yields names exs st Hreach Hvalid Hres)
    as (ws & st' & Hfa & Hlen & _ & Hy).
  exists (Concatenate ws), st', (iter st' (Concatenate ws)).
  split; [|split; [done|split; [done|done]]].
  rewrite get_dataset_ListArg, Hfa by done.
  destruct ws as [|w ws]; [|done]. by destruct names.
Qed.

(** A name that resolves is fetched as one wrapper, which yields the
    dataset of the name; the records of the document keep their other
    fields. *)
Lemma get_dataset_one name examples st :
  reachable D st ->
  doc_refs_valid D (heap st) ->
  resolves D name examples ->
  exists w st' ys,
    get_dataset D (StrArg name) st = Ok (Concatenate [w]) st' /\
    heap_frame (heap st) (heap st') /\
    list_of st' (Concatenate [w]) = ys /\
    yields_dataset name examples (heap st) ys.
Proof.
  intros Hreach Hvalid Hres.
  destruct (fetch_all_yields [name] [examples] st Hreach Hvalid)
    as (ws & st' & Hfa & Hlen & Hframe & Hy).
  { constructor; [exact Hres|constructor]. }
  destruct ws as [|w [|w' ws]]; [done| |done].
  exists w, st', (dict_values (default [] (wrappers st' !! w))).
  split; [|split; [done|split]].
  - unfold get_dataset, bind. cbn [to_list]. by rewrite Hfa.
  - unfold list_of, iter, drain. cbn. by rewrite app_nil_r.
  - inversion Hy as [|n ex ys ns exs' yss Hys Hrest]; subst.
    eapply yields_dataset_frame; [apply heap_frame_sym, Hframe|done].
Qed.

End Iteration.

(** ** The identifiers of a dataset *)

Section Identifiers.
Context `{K : Keys}.
Variable D : database_doc.
Hypothesis keys_differ : EXAMPLE_ID <> DATASET_NAME.
Hypothesis consistent : ids_consistent D.

Lemma resolved_one_key name examples :
  _get_dataset_from_database_dict D name = Val examples ->
  one_key_per_record examples.
Proof.
  intros Hres i i' r Hi Hi'.
  destruct (resolved_elem D _ _ _ Hres Hi) as (n1 & ex1 & Hn1 & Hex1).
  destruct (resolved_elem D _ _ _ Hres Hi') as (n2 & ex2 & Hn2 & Hex2).
  exact (consistent _ _ _ _ _ _ _ Hn1 Hex1 Hn2 Hex2).
Qed.

Lemma example_ids_of_keys (examples : dict ref) (ys : list record) :
  Forall2 (fun kv s => dict_get EXAMPLE_ID s = Some (VStr kv.1)) examples ys ->
  HybridASRDatabaseTemplate.example_ids ys = Val (VStr <$> dict_keys examples).
Proof.
  unfold dict_keys.
  induction 1 as [|kv s examples ys Hid _ IH]; [done|].
  cbn [HybridASRDatabaseTemplate.example_ids]. rewrite Hid, IH. by rewrite fmap_cons.
Qed.

(** X9. [utterances_for_dataset] lists the identifiers of the dataset:
    in a document that stores no record under two identifiers and whose
    records are all objects of the store, in every store the database can
    be in (the name may have been fetched before, alone or through an
    alias), the call returns the keys of the mapping the name resolves
    to, as [str], in the order of the mapping. *)
Theorem utterances_for_dataset_lists_ids (name : string) (examples : dict ref)
    (st : state) :
  reachable D st ->
  doc_refs_valid D (heap st) ->
  resolves D name examples ->
  exists st',
    HybridASRDatabaseTemplate.utterances_for_dataset D (StrArg name) st
      = Ok (VStr <$> dict_keys examples) st'.
Proof.
  intros Hreach Hvalid Hres.
  destruct (get_dataset_one D keys_differ name examples st Hreach Hvalid Hres)
    as (w & st' & ys & Hget & _ & Hlist & Hy).
  exists st'. unfold HybridASRDatabaseTemplate.utterances_for_dataset.
  unfold get_iterator_by_names, bind, iterate, lift. rewrite Hget, Hlist.
  rewrite (example_ids_of_keys examples); [done|].
  eapply yields_dataset_ids; [|exact Hy].
  eapply resolved_one_key, Hres.
Qed.

End Identifiers.

(** ** [Database.get_lengths], the method of the base class *)

Section BaseLengths.
Context `{K : Keys}.
Variable D : database_doc.
Hypothesis keys_differ : EXAMPLE_ID <> DATASET_NAME.
Hypothesis num_samples_differs :
  NUM_SAMPLES <> EXAMPLE_ID /\ NUM_SAMPLES <> DATASET_NAME.

Lemma lengths_set_fresh k v (lengths : list (hashable * value)) :
  k ∉ lengths.*1 -> lengths_set k v lengths = lengths ++ [(k, v)].
Proof.
  induction lengths as [|[k' v'] lengths IH]; intros Hk; [done|].
  simpl. rewrite fmap_cons in Hk. apply not_elem_of_cons in Hk as [Hne Hk].
  rewrite decide_False by done. by rewrite IH.
Qed.

Lemma num_samples_of_frame (e e' : record) :
  same_other_fields e e' -> num_samples_of e' = num_samples_of e.
Proof.
  intros Hsame. unfold num_samples_of.
  by rewrite (Hsame NUM_SAMPLES) by tauto.
Qed.

Lemma num_samples_of_cases (e : record) :
  (exists n, num_samples_of e = Val n) \/
  (exists key, num_samples_of e = Exc (KeyError key) /\
     (key = NUM_SAMPLES \/ key = OBSERVATION)).
Proof.
  unfold num_samples_of. destruct (dict_get NUM_SAMPLES e) as [[s|n|l|d]|]; eauto.
  destruct (dict_get OBSERVATION d); eauto.
Qed.

Lemma lengths_loop_raises fn (records : list record) acc :
  Forall (fun e => exists i, dict_get EXAMPLE_ID e = Some (VStr i)) records ->
  (exists e, e ∈ records /\ dict_get NUM_SAMPLES e = None) ->
  exists key,
    lengths_loop fn records acc = Exc (KeyError key) /\
    (key = NUM_SAMPLES \/ key = OBSERVATION).
Proof.
  intros Hann. revert acc. induction Hann as [|e records (i & Hi) _ IH];
    intros acc (e0 & Hin & Hnone); [by apply elem_of_nil in Hin|].
  cbn [lengths_loop].
  destruct (num_samples_of_cases e) as [(n & Hn)|(key & Hkey & Hor)].
  - rewrite Hn, Hi. cbn [hash_key]. apply IH.
    apply elem_of_cons in Hin as [->|Hin]; [|by exists e0].
    unfold num_samples_of in Hn. by rewrite Hnone in Hn.
  - rewrite Hkey. by exists key.
Qed.

Lemma lengths_loop_returns fn (examples : dict ref) (h : list record)
    (ys : list record) acc :
  NoDup examples.*1 ->
  (forall i, i ∈ examples.*1 -> HStr i ∉ acc.*1) ->
  Forall2 (fun kv s =>
             dict_get EXAMPLE_ID s = Some (VStr kv.1) /\
             exists e n, h !! kv.2 = Some e /\ num_samples_of e = Val n /\
               num_samples_of s = Val n)
          examples ys ->
  exists new,
    lengths_loop fn ys acc = Val (acc ++ new) /\
    Forall2 (fun kv l =>
               exists e n, h !! kv.2 = Some e /\ num_samples_of e = Val n /\
                 l = (HStr kv.1, fn n))
            examples new.
Proof.
  intros Hnd Hfresh Hall. revert acc Hnd Hfresh.
  induction Hall as [|[i r] s examples ys (Hid & e & n & He & Hn & Hs) _ IH];
    intros acc Hnd Hfresh.
  - exists []. by rewrite app_nil_r.
  - rewrite !fmap_cons in *. cbn [fst snd] in *. apply NoDup_cons in Hnd as [Hi Hnd].
    cbn [lengths_loop]. rewrite Hs, Hid. cbn [hash_key].
    rewrite lengths_set_fresh by (apply Hfresh, list_elem_of_here).
    destruct (IH (acc ++ [(HStr i, fn n)])) as (new & Hloop & Hnew).
    + done.
    + intros i' Hi'. rewrite fmap_app. intros [Hacc|Hnew]%elem_of_app.
      * by apply (Hfresh i'); [apply list_elem_of_further|].
      * apply list_elem_of_singleton in Hnew. injection Hnew as ->. done.
    + exists ((HStr i, fn n) :: new). rewrite Hloop, <- app_assoc.
      split; [done|]. constructor; [|done]. by exists e, n.
Qed.

(** X10. [Database.get_lengths] on a name whose mapping stores no record
    under two identifiers and whose records all have a sample count
    returns, for the identifiers of the resolved mapping in its order, the
    transformed sample count of the record (the entry [OBSERVATION] of the
    count when the count is a [dict]); this holds in every store the
    database can be in. *)
Theorem base_get_lengths_returns (name : string) (examples : dict ref)
    (fn : value -> value) (st : state) :
  reachable D st ->
  doc_refs_valid D (heap st) ->
  resolves D name examples ->
  dict_wf examples ->
  one_key_per_record examples ->
  (forall i r, (i, r) ∈ examples ->
     exists e n, heap st !! r = Some e /\ num_samples_of e = Val n) ->
  exists lengths st',
    Database.get_lengths D (StrArg name) fn st = Ok lengths st' /\
    Forall2 (fun kv l =>
               exists e n, heap st !! kv.2 = Some e /\ num_samples_of e = Val n /\
                 l = (HStr kv.1, fn n))
            examples lengths.
Proof.
  intros Hreach Hvalid Hres Hwf Huniq Hnum.
  destruct (get_dataset_one D keys_differ name examples st Hreach Hvalid Hres)
    as (w & st' & ys & Hget & _ & Hlist & Hy).
  destruct (lengths_loop_returns fn examples (heap st) ys []) as (new & Hloop & Hnew).
  - done.
  - intros i _. apply not_elem_of_nil.
  - eapply Forall2_impl_elem; [exact Hy|].
    intros [i r] s Hin (_ & (i' & Hi' & Hid) & e & He & Hsame). cbn [fst snd] in *.
    rewrite (Huniq i i' r Hin Hi'). split; [done|].
    destruct (Hnum i r Hin) as (e0 & n & He0 & Hn).
    assert (e0 = e) as -> by congruence.
    exists e, n. by rewrite (num_samples_of_frame e s).
  - exists new, st'. split; [|done].
    unfold Database.get_lengths, get_iterator_by_names, bind, iterate, lift.
    by rewrite Hget, Hlist, Hloop.
Qed.

(** X11. [Database.get_lengths] on a name one of whose records has no
    sample count raises a [KeyError] (of [NUM_SAMPLES], or of [OBSERVATION]
    when an earlier count is a [dict] without that entry), not the
    [NotImplementedError] that [get_bucket_boundaries] catches: with this
    method [get_bucket_boundaries] raises the same [KeyError] for every
    number of buckets, one included. *)
Theorem base_get_lengths_without_num_samples (name : string)
    (examples : dict ref) (fn : value -> value) (st : state)
    (i : string) (r : ref) (e : record) :
  reachable D st ->
  doc_refs_valid D (heap st) ->
  resolves D name examples ->
  (i, r) ∈ examples ->
  heap st !! r = Some e ->
  dict_get NUM_SAMPLES e = None ->
  exists key st',
    (key = NUM_SAMPLES \/ key = OBSERVATION) /\
    Database.get_lengths D (StrArg name) fn st = Raise (KeyError key) st' /\
    forall (render : hashable -> string) np num_buckets,
      get_bucket_boundaries
        (fun datasets length_transform_fn =>
           (lengths <- Database.get_lengths D datasets length_transform_fn;;
            ret ((fun kv => (render kv.1, kv.2)) <$> lengths))%py)
        np (StrArg name) num_buckets fn st
      = Raise (KeyError key) st'.
Proof.
  intros Hreach Hvalid Hres Hin He Hnone.
  destruct (get_dataset_one D keys_differ name examples st Hreach Hvalid Hres)
    as (w & st' & ys & Hget & _ & Hlist & Hy).
  destruct (lengths_loop_raises fn ys []) as (key & Hloop & Hkey).
  - apply Forall_forall. intros s Hs.
    apply list_elem_of_lookup in Hs as (j & Hj).
    destruct (Forall2_lookup_r _ _ _ _ _ Hy Hj) as (kv & _ & _ & (i' & _ & Hid) & _).
    by exists i'.
  - apply list_elem_of_lookup in Hin as (j & Hj).
    destruct (Forall2_lookup_l _ _ _ _ _ Hy Hj) as (s & Hs & _ & _ & e' & He' & Hsame).
    cbn [snd] in He'. assert (e' = e) as -> by congruence.
    exists s. split; [by eapply list_elem_of_lookup_2|].
    by rewrite (Hsame NUM_SAMPLES) by tauto.
  - assert (Hgl : Database.get_lengths D (StrArg name) fn st = Raise (KeyError key) st').
    { unfold Database.get_lengths, get_iterator_by_names, bind, iterate, lift.
      by rewrite Hget, Hlist, Hloop. }
    exists key, st'. split; [done|]. split; [done|].
    intros render np num_buckets. unfold get_bucket_boundaries, bind.
    by rewrite Hgl.
Qed.

End BaseLengths.

(** ** Kaldi: what a directory loads to, and what makes the scan stop *)

Section KaldiRecords.
Context `{K : Keys}.

(** X12. The audio path of a line of [wav.scp] is its only token when it
    has one token, and its last token but one in every other case, so the
    last token of a longer line is never the path; a line without tokens
    raises [IndexError]. *)
Theorem audio_path_is_last_but_one :
  _audio_path [] = Exc IndexError /\
  (forall p, _audio_path [p] = Val p) /\
  (forall pre p last, _audio_path (pre ++ [p; last]) = Val p).
Proof.
  split; [done|]. split; [done|]. intros pre p last. unfold _audio_path.
  rewrite length_app, rev_app_distr. simpl.
  by replace (length pre + 2 =? 1) with false by (symmetry; apply Nat.eqb_neq; lia).
Qed.

Lemma dict_keys_set {V} (k k0 : string) (v : V) (d : dict V) :
  k ∈ dict_keys (dict_set k0 v d) -> k = k0 \/ k ∈ dict_keys d.
Proof.
  intros (v' & Hin)%elem_of_dict_keys.
  apply elem_of_dict_set in Hin as [Heq|Hin].
  - left. by injection Heq.
  - right. apply elem_of_dict_keys. by exists v'.
Qed.

Lemma dict_keys_set_elem {V} (k0 : string) (v : V) (d : dict V) :
  k0 ∈ dict_keys (dict_set k0 v d).
Proof. apply dict_get_is_Some. by rewrite dict_get_set_eq. Qed.

Lemma dict_keys_set_mono {V} (k k0 : string) (v : V) (d : dict V) :
  k ∈ dict_keys d -> k ∈ dict_keys (dict_set k0 v d).
Proof.
  intros Hk. apply dict_get_is_Some. destruct (decide (k0 = k)) as [->|Hne].
  - by rewrite dict_get_set_eq.
  - rewrite dict_get_set_ne by done. by apply dict_get_is_Some.
Qed.

Lemma dict_set_wf {V} (k : string) (v : V) (d : dict V) :
  dict_wf d -> dict_wf (dict_set k v d).
Proof.
  unfold dict_wf. induction d as [|[k' v'] d IH]; intros Hwf; simpl.
  - apply NoDup_singleton.
  - unfold dict_keys in *. rewrite fmap_cons in Hwf. apply NoDup_cons in Hwf as [Hk' Hwf].
    destruct (decide (k = k')) as [->|Hne]; rewrite fmap_cons; apply NoDup_cons.
    + done.
    + split; [|by apply IH]. intros Hin. apply dict_keys_set in Hin as [?|?]; by subst.
Qed.

Section Tables.
Variables (path : string) (u : dict string) (t : dict value)
  (g : option (dict string)).
Hypothesis fields_differ : NoDup record_fields.

Lemma record_fields_differ :
  AUDIO_PATH <> SPEAKER_ID /\ AUDIO_PATH <> GENDER /\
  AUDIO_PATH <> KALDI_TRANSCRIPTION /\ SPEAKER_ID <> GENDER /\
  SPEAKER_ID <> KALDI_TRANSCRIPTION /\ GENDER <> KALDI_TRANSCRIPTION.
Proof.
  pose proof fields_differ as Hnd. unfold record_fields in Hnd.
  apply NoDup_cons in Hnd as [Ha Hnd]. apply NoDup_cons in Hnd as [Hs Hnd].
  apply NoDup_cons in Hnd as [Hge _].
  apply not_elem_of_cons in Ha as [? Ha]. apply not_elem_of_cons in Ha as [? Ha].
  apply not_elem_of_cons in Ha as [? _].
  apply not_elem_of_cons in Hs as [? Hs]. apply not_elem_of_cons in Hs as [? _].
  apply not_elem_of_cons in Hge as [? _]. done.
Qed.

Lemma examples_loop_records scp acc :
  dict_wf scp ->
  (forall i, i ∈ dict_keys scp -> i ∉ dict_keys acc) ->
  Forall (complete_entry u t g) scp ->
  exists new,
    examples_loop path u t g scp acc = Val (acc ++ new) /\
    Forall2 (fun line ex => ex.1 = line.1 /\ built_from u t g line ex.2) scp new.
Proof.
  revert acc. induction scp as [|[i s] scp IH]; intros acc Hwf Hfresh Hall.
  - exists []. by rewrite app_nil_r.
  - apply Forall_cons in Hall as [((p & Hp) & (spk & Hspk & Hg) & [tr Htr]) Hall].
    unfold dict_wf, dict_keys in Hwf. rewrite fmap_cons in Hwf.
    apply NoDup_cons in Hwf as [Hi Hwf]. cbn [fst snd] in *.
    pose (example0 := dict_set SPEAKER_ID (VStr spk)
            (dict_set AUDIO_PATH (VDict (dict_set OBSERVATION (VStr p) [])) [])).
    assert (Hgen : exists example1,
      match g with
      | None => Val example0
      | Some table =>
          match dict_get spk table with
          | Some g0 => Val (dict_set GENDER (VStr g0) example0)
          | None => Exc (KeyError spk)
          end
      end = Val example1 /\
      dict_get AUDIO_PATH example1 = Some (VDict [(OBSERVATION, VStr p)]) /\
      dict_get SPEAKER_ID example1 = Some (VStr spk) /\
      dict_get GENDER example1 = VStr <$> (g ≫= dict_get spk) /\
      dict_get KALDI_TRANSCRIPTION example1 = None /\
      forall k, k ∈ dict_keys example1 -> k ∈ record_fields).
    { pose proof record_fields_differ as Hd. unfold record_fields.
      assert (H0 : forall k, k ∈ dict_keys example0 ->
                 k ∈ [AUDIO_PATH; SPEAKER_ID; GENDER; KALDI_TRANSCRIPTION]).
      { intros k [->|Hk]%dict_keys_set; [rewrite !elem_of_cons; auto 6|].
        apply dict_keys_set in Hk as [->|Hk]; [rewrite !elem_of_cons; auto 6|].
        by apply elem_of_nil in Hk. }
      destruct g as [table|].
      - destruct (dict_get spk table) as [g0|] eqn:Hg0; [|by destruct Hg].
        eexists. split; [done|]. unfold example0. cbn [mbind option_bind].
        rewrite Hg0.
        repeat split;
          repeat (rewrite dict_get_set_eq ||
                  rewrite dict_get_set_ne by (intuition congruence));
          try done.
        intros k [->|Hk]%dict_keys_set; [rewrite !elem_of_cons; auto 6|].
        by apply H0.
      - eexists. split; [done|]. unfold example0. cbn [mbind option_bind].
        repeat split;
          repeat (rewrite dict_get_set_eq ||
                  rewrite dict_get_set_ne by (intuition congruence));
          try done. }
    destruct Hgen as (example1 & Hgen & Ha1 & Hs1 & Hg1 & Ht1 & Hk1).
    destruct (IH (dict_set i (dict_set KALDI_TRANSCRIPTION tr example1) acc))
      as (new & Hloop & Hnew); [done| |done|].
    { intros i' Hi' [->|Hin]%dict_keys_set; [done|].
      by apply (Hfresh i'); [apply list_elem_of_further|]. }
    rewrite dict_set_fresh in Hloop by (apply Hfresh, list_elem_of_here).
    exists ((i, dict_set KALDI_TRANSCRIPTION tr example1) :: new).
    cbn [examples_loop]. rewrite Hp, Hspk. fold example0. rewrite Hgen, Htr.
    rewrite dict_set_fresh by (apply Hfresh, list_elem_of_here).
    rewrite Hloop, <- app_assoc. split; [done|].
    constructor; [|done]. split; [done|]. cbn [fst snd].
    pose proof record_fields_differ as Hd. unfold record_fields.
    exists p, spk, tr.
    repeat split;
      repeat (rewrite dict_get_set_eq ||
              rewrite dict_get_set_ne by (intuition congruence));
      try done.
    intros k [->|Hk]%dict_keys_set; [|by apply Hk1].
    unfold record_fields. rewrite !elem_of_cons. auto 6.
Qed.

Lemma examples_loop_Val_complete scp acc examples :
  examples_loop path u t g scp acc = Val examples ->
  Forall (complete_entry u t g) scp.
Proof.
  revert acc. induction scp as [|[i s] scp IH]; intros acc Hval; [constructor|].
  cbn [examples_loop] in Hval.
  destruct (_audio_path s) as [p|] eqn:Hp; [|done].
  destruct (dict_get i u) as [spk|] eqn:Hspk; [|done].
  destruct (dict_get i t) as [tr|] eqn:Htr.
  - assert (Hg : match g with
                 | None => True
                 | Some table => is_Some (dict_get spk table)
                 end).
    { destruct g as [table|]; [|done]. by destruct (dict_get spk table). }
    constructor.
    + split; [by exists p|]. split; [by exists spk|]. cbn [fst]. by rewrite Htr.
    + destruct g as [table|].
      * destruct (dict_get spk table); [|done]. by eapply IH.
      * by eapply IH.
  - destruct g as [table|]; [|done]. by destruct (dict_get spk table).
Qed.

Lemma examples_loop_defect pre line post acc e :
  Forall (complete_entry u t g) pre ->
  line_defect u t g line e ->
  examples_loop path u t g (pre ++ line :: post) acc = Exc e.
Proof.
  intros Hpre Hdef.
  destruct (examples_loop_complete path u t g pre (line :: post) acc Hpre)
    as (acc' & ->).
  destruct line as [i s]. cbn [examples_loop]. unfold line_defect in Hdef.
  simpl in Hdef.
  destruct Hdef as [[-> ->]|[(p & spk & table & Hp & Hspk & -> & Hnone & ->)|
                             (p & spk & Hp & Hspk & Hg & Hnone & ->)]].
  - done.
  - by rewrite Hp, Hspk, Hnone.
  - rewrite Hp, Hspk. destruct g as [table|].
    + destruct Hg as [g0 ->]. by rewrite Hnone.
    + by rewrite Hnone.
Qed.

End Tables.

(** X13. A directory all of whose lines are complete loads to one record
    per line of [wav.scp], under the identifier of the line and in the
    order of the file; the record holds the path, the speaker and the
    transcription of the line, the gender of the speaker exactly when the
    directory has a gender table, and no other field. *)
Theorem directory_loads_to_records (path : string) (dir : dataset_dir)
    (u : dict string) (t : dict value) :
  NoDup record_fields ->
  utt2spk dir = Some u ->
  text dir = Some t ->
  dict_wf (wav_scp dir) ->
  Forall (complete_entry u t (spk2gender dir)) (wav_scp dir) ->
  exists examples,
    get_examples_from_dataset path dir = Val examples /\
    Forall2 (fun line ex =>
               ex.1 = line.1 /\ built_from u t (spk2gender dir) line ex.2)
            (wav_scp dir) examples.
Proof.
  intros Hnd Hu Ht Hwf Hall.
  destruct (examples_loop_records path u t (spk2gender dir) Hnd (wav_scp dir) [])
    as (new & Hloop & Hnew); [done| |done|].
  { intros i _. apply not_elem_of_nil. }
  exists new. split; [|done].
  unfold get_examples_from_dataset. by rewrite Hu, Ht.
Qed.

(** X14. A directory loads exactly when its [utt2spk] and [text] exist and
    every line of its [wav.scp] is complete: it has a usable path, a
    speaker, a transcription, and a gender for the speaker if there is a
    gender table. *)
Theorem directory_loads_iff_complete (path : string) (dir : dataset_dir) :
  (exists examples, get_examples_from_dataset path dir = Val examples) <->
  (exists u t,
     utt2spk dir = Some u /\ text dir = Some t /\
     Forall (complete_entry u t (spk2gender dir)) (wav_scp dir)).
Proof.
  unfold get_examples_from_dataset. split.
  - intros (examples & Hval).
    destruct (utt2spk dir) as [u|]; [|done]. destruct (text dir) as [t|]; [|done].
    exists u, t. split; [done|]. split; [done|]. cbn [load_keyed_lines] in Hval.
    eapply examples_loop_Val_complete. exact Hval.
  - intros (u & t & -> & -> & Hall). cbn [load_keyed_lines].
    destruct (examples_loop_complete path u t (spk2gender dir) (wav_scp dir) [] []
                Hall) as (examples & Heq).
    rewrite app_nil_r in Heq. by exists examples.
Qed.

(** X15. The failures of a directory that are not [MalformedDatasetError]:
    a missing [utt2spk] or [text] raises [FileNotFoundError] for that file,
    and the first line that is not complete, when it has a speaker, raises
    [IndexError] if it has no token, the [KeyError] of its speaker if the
    gender table lacks the speaker, and the [KeyError] of its identifier if
    [text] lacks it. *)
Theorem directory_defects (path : string) (dir : dataset_dir) :
  (utt2spk dir = None ->
   get_examples_from_dataset path dir
     = Exc (FileNotFoundError (path +:+ "/utt2spk"))) /\
  (forall u, utt2spk dir = Some u -> text dir = None ->
   get_examples_from_dataset path dir
     = Exc (FileNotFoundError (path +:+ "/text"))) /\
  (forall u t pre line post e,
     utt2spk dir = Some u -> text dir = Some t ->
     wav_scp dir = pre ++ line :: post ->
     Forall (complete_entry u t (spk2gender dir)) pre ->
     line_defect u t (spk2gender dir) line e ->
     get_examples_from_dataset path dir = Exc e).
Proof.
  unfold get_examples_from_dataset. split; [by intros ->|]. split.
  - by intros u -> ->.
  - intros u t pre line post e -> -> -> Hpre Hdef. cbn [load_keyed_lines].
    by apply examples_loop_defect.
Qed.

Lemma scan_loop_app (pre rest : egs) (dataset_dict : document) log :
  Forall loads_or_malformed pre ->
  scan_loop (pre ++ rest) dataset_dict log
    = scan_loop rest (dict_merge dataset_dict (omap loaded_entry pre))
        (log ++ omap skipped_entry pre).
Proof.
  intros Hok. revert dataset_dict log.
  induction Hok as [|[name dir] pre Hhd Hok IH]; intros dataset_dict log.
  - cbn. by rewrite app_nil_r.
  - unfold loads_or_malformed, loaded_entry, skipped_entry in *. cbn in *.
    destruct (get_examples_from_dataset name dir) as [examples|e].
    + rewrite IH. done.
    + destruct e; try done. rewrite IH. by rewrite <- app_assoc.
Qed.

(** X16. Any failure of a directory other than [MalformedDatasetError]
    stops the scan: when the directories before it load or are malformed,
    [get_dataset_dict_from_kaldi] and [database_dict] raise the error of
    that directory, having logged the warnings of the malformed
    directories before it, and no directory after it is read. *)
Theorem scan_stops_at_first_error (pre post : egs) (name : string)
    (dir : dataset_dir) (e : exn) (float : string -> option value)
    (f : option (value -> value)) :
  Forall loads_or_malformed pre ->
  get_examples_from_dataset name dir = Exc e ->
  (forall i p, e <> MalformedDatasetError i p) ->
  get_dataset_dict_from_kaldi (pre ++ (name, dir) :: post)
    = (Exc e, omap skipped_entry pre) /\
  database_dict float (pre ++ (name, dir) :: post) f
    = (Exc e, omap skipped_entry pre).
Proof.
  intros Hpre Hexc Hne.
  assert (Hscan : get_dataset_dict_from_kaldi (pre ++ (name, dir) :: post)
                  = (Exc e, omap skipped_entry pre)).
  { unfold get_dataset_dict_from_kaldi. rewrite scan_loop_app by done.
    cbn [scan_loop]. rewrite Hexc. destruct e; try done. by destruct (Hne example_id dataset_path). }
  split; [done|]. unfold database_dict. by rewrite Hscan.
Qed.

End KaldiRecords.

(** ** Kaldi: sample counts from [utt2dur] *)

Section KaldiDurations.
Context `{K : Keys}.
Variable float : string -> option value.

Lemma dict_merge_cons {V} (d1 : dict V) kv d2 :
  dict_merge d1 (kv :: d2) = dict_merge (dict_set kv.1 kv.2 d1) d2.
Proof. done. Qed.

Lemma dict_merge_get {V} (k : string) (d1 d2 : dict V) :
  dict_wf d2 ->
  dict_get k (dict_merge d1 d2) =
    match dict_get k d2 with
    | Some v => Some v
    | None => dict_get k d1
    end.
Proof.
  revert d1. induction d2 as [|[k0 v0] d2 IH]; intros d1 Hwf; [done|].
  unfold dict_wf, dict_keys in Hwf. rewrite fmap_cons in Hwf.
  apply NoDup_cons in Hwf as [Hk0 Hwf].
  assert (Hn : dict_get k0 d2 = None) by by apply dict_get_None.
  rewrite dict_merge_cons, IH by done. cbn [fst snd dict_get].
  destruct (decide (k = k0)) as [->|Hne].
  - by rewrite Hn, dict_get_set_eq.
  - rewrite dict_get_set_ne by done. done.
Qed.

Lemma dict_merge_wf {V} (d1 d2 : dict V) : dict_wf d1 -> dict_wf (dict_merge d1 d2).
Proof.
  revert d1. induction d2 as [|[k0 v0] d2 IH]; intros d1 Hwf; [done|].
  rewrite dict_merge_cons. by apply IH, dict_set_wf.
Qed.

Lemma durations_loop_get f table acc :
  Forall (fun kv => is_Some (float kv.2)) table ->
  exists lengths,
    durations_loop float (Some f) table acc = Val lengths /\
    (dict_wf acc -> dict_wf lengths) /\
    (dict_wf table ->
     forall k, dict_get k lengths =
       match dict_get k table with
       | Some v => f <$> float v
       | None => dict_get k acc
       end).
Proof.
  intros Hconv. revert acc.
  induction Hconv as [|[k0 v0] table [x Hx] _ IH]; intros acc.
  - exists acc. done.
  - cbn [snd] in Hx.
    destruct (IH (dict_set k0 (f x) acc)) as (lengths & Hloop & Hwf & Hget).
    exists lengths. cbn [durations_loop]. rewrite Hx. split; [done|]. split.
    + intros Hacc. by apply Hwf, dict_set_wf.
    + intros Htable k. unfold dict_wf, dict_keys in Htable.
      rewrite fmap_cons in Htable. apply NoDup_cons in Htable as [Hk0 Htable].
      assert (Hn : dict_get k0 table = None) by by apply dict_get_None.
      rewrite Hget by done. cbn [dict_get].
      destruct (decide (k = k0)) as [->|Hne].
      * by rewrite Hn, dict_get_set_eq, Hx.
      * by rewrite dict_get_set_ne.
Qed.

Lemma last_duration_convert (egs_path : egs) names k v :
  durations_convert float egs_path ->
  last_duration egs_path names k = Some v -> is_Some (float v).
Proof.
  intros Hconv. induction names as [|name names IH]; cbn [last_duration]; [done|].
  destruct (last_duration egs_path names k) as [v'|]; [intros [= <-]; by apply IH|].
  destruct (dict_get name egs_path ≫= utt2dur) as [table|] eqn:E; [|done].
  cbn. intros Hv. eapply Hconv; [exact E|]. by apply dict_get_Some_elem.
Qed.

Lemma _get_lengths_from_kaldi_get (egs_path : egs) f names lengths :
  durations_convert float egs_path ->
  Forall (has_durations egs_path) names ->
  exists result,
    _get_lengths_from_kaldi float egs_path (Some f) names lengths = Val result /\
    forall k, dict_get k result =
      match last_duration egs_path names k with
      | Some v => f <$> float v
      | None => dict_get k lengths
      end.
Proof.
  intros Hconv Hall. revert lengths.
  induction Hall as [|name names (table & Htable & Hwf) _ IH]; intros lengths.
  - by exists lengths.
  - cbn [_get_lengths_from_kaldi]. rewrite Htable.
    destruct (durations_loop_get f table []) as (dl & -> & Hdlwf & Hdl).
    { by eapply durations_convert_table. }
    destruct (IH (dict_merge lengths dl)) as (result & -> & Hres).
    exists result. split; [done|]. intros k. rewrite Hres.
    cbn [last_duration]. destruct (last_duration egs_path names k); [done|].
    rewrite dict_merge_get by (apply Hdlwf, NoDup_nil_2).
    rewrite Hdl, Htable by done. cbn [mbind option_bind].
    destruct (dict_get k table) as [v|] eqn:Hv; [|done].
    by destruct (Hconv name table k v Htable (dict_get_Some_elem _ _ _ Hv)) as [x ->].
Qed.

(** X17. When every dataset has a [utt2dur] table, every duration listed
    is the literal of a number and the class has a transform,
    [_get_lengths_from_kaldi] returns one dictionary for all the datasets
    together, keyed by the identifier alone: an identifier that the tables
    of several datasets list gets the transform of the duration, as a
    number, that the last of these datasets gives, and an identifier no
    table lists is not a key. *)
Theorem kaldi_durations_last_dataset_wins (egs_path : egs) (f : value -> value)
    (names : list string) :
  durations_convert float egs_path ->
  Forall (has_durations egs_path) names ->
  exists lengths,
    _get_lengths_from_kaldi float egs_path (Some f) names [] = Val lengths /\
    forall k,
      dict_get k lengths = f <$> (last_duration egs_path names k ≫= float).
Proof.
  intros Hconv Hall.
  destruct (_get_lengths_from_kaldi_get egs_path f names [] Hconv Hall)
    as (l & Hl & Hget).
  exists l. split; [done|]. intros k. rewrite Hget.
  by destruct (last_duration egs_path names k).
Qed.

Lemma add_to_examples_Val (num_samples_dict : dict value) (items : dict record) :
  (forall kv, kv ∈ items -> is_Some (dict_get kv.1 num_samples_dict)) ->
  exists items',
    add_to_examples num_samples_dict items = Val items' /\
    with_num_samples (fun k => dict_get k num_samples_dict) items items'.
Proof.
  induction items as [|[k rec] items IH]; intros Hall.
  - exists []. split; [done|constructor].
  - destruct (Hall (k, rec)) as [n Hn]; [apply list_elem_of_here|].
    destruct IH as (items' & Hrest & Hrel).
    { intros kv Hin. apply Hall. by apply list_elem_of_further. }
    exists ((k, dict_set NUM_SAMPLES n rec) :: items').
    cbn [add_to_examples]. cbn [fst] in Hn. rewrite Hn, Hrest. split; [done|].
    constructor; [|done]. split; [done|]. by exists n.
Qed.


Lemma add_to_datasets_Val (num_samples_dict : dict value) (doc : document) :
  (forall ds kv, ds ∈ doc -> kv ∈ ds.2 ->
     is_Some (dict_get kv.1 num_samples_dict)) ->
  exists doc',
    add_to_datasets num_samples_dict doc = Val doc' /\
    Forall2 (fun ds ds' =>
               ds'.1 = ds.1 /\
               with_num_samples (fun k => dict_get k num_samples_dict) ds.2 ds'.2)
            doc doc'.
Proof.
  induction doc as [|[name items] doc IH]; intros Hall.
  - exists []. split; [done|constructor].
  - destruct (add_to_examples_Val num_samples_dict items) as (items' & Hitems & Hrel).
    { intros kv Hin. by apply (Hall (name, items)); [apply list_elem_of_here|]. }
    destruct IH as (doc' & Hrest & Hrels).
    { intros ds kv Hds Hin. by apply (Hall ds); [apply list_elem_of_further|]. }
    exists ((name, items') :: doc'). cbn [add_to_datasets].
    rewrite Hitems, Hrest. split; [done|]. by constructor.
Qed.



Lemma with_num_samples_impl (ns ns' : string -> option value)
    (items items' : dict record) :
  (forall k n, ns k = Some n -> ns' k = Some n) ->
  with_num_samples ns items items' -> with_num_samples ns' items items'.
Proof.
  intros Himpl Hrel. eapply Forall2_impl; [exact Hrel|].
  intros kv kv' (Hk & n & Hn & Hrec). split; [done|]. exists n. auto.
Qed.

Lemma scanned_doc_lengths (egs_path : egs) (f : value -> value) (doc : document) :
  durations_convert float egs_path ->
  Forall (has_durations egs_path) (dict_keys doc) ->
  exists num_samples_dict,
    _get_lengths_from_kaldi float egs_path (Some f) (dict_keys doc) []
      = Val num_samples_dict /\
    forall k, dict_get k num_samples_dict
              = f <$> (last_duration egs_path (dict_keys doc) k ≫= float).
Proof.
  intros Hconv Hall.
  destruct (_get_lengths_from_kaldi_get egs_path f (dict_keys doc) [] Hconv Hall)
    as (l & Hl & Hget).
  exists l. split; [done|]. intros k. rewrite Hget.
  by destruct (last_duration egs_path (dict_keys doc) k).
Qed.

Lemma listed_duration_converts (egs_path : egs) names k :
  durations_convert float egs_path ->
  is_Some (last_duration egs_path names k) ->
  is_Some (last_duration egs_path names k ≫= float).
Proof.
  intros Hconv [v Hv]. rewrite Hv. cbn. by eapply last_duration_convert.
Qed.

(** X18. When every dataset of the scanned document has a [utt2dur]
    table that, together with the others, lists every identifier of the
    document, and every duration listed is the literal of a number,
    [database_dict] returns the document with the field [NUM_SAMPLES] of
    every record set to the transform of the duration, as a number, of its
    identifier; the names of the datasets, the identifiers, their order
    and the other fields are as scanned.  The duration is looked up by the
    identifier alone, so a record whose identifier another dataset also
    lists gets the duration of the last dataset that lists it. *)
Theorem database_dict_adds_num_samples (egs_path : egs) (f : value -> value)
    (doc : document) (log : list log_record) :
  get_dataset_dict_from_kaldi egs_path = (Val doc, log) ->
  durations_convert float egs_path ->
  Forall (has_durations egs_path) (dict_keys doc) ->
  (forall ds kv, ds ∈ doc -> kv ∈ ds.2 ->
     is_Some (last_duration egs_path (dict_keys doc) kv.1)) ->
  exists doc',
    KaldiDatabase.database_dict float egs_path (Some f) = (Val doc', log) /\
    Forall2 (fun ds ds' =>
               ds'.1 = ds.1 /\
               with_num_samples
                 (fun k => f <$> (last_duration egs_path (dict_keys doc) k ≫= float))
                 ds.2 ds'.2)
            doc doc'.
Proof.
  intros Hscan Hconv Htables Hall.
  destruct (scanned_doc_lengths egs_path f doc Hconv Htables) as (nsd & Hnsd & Hget).
  destruct (add_to_datasets_Val nsd doc) as (doc' & Hadd & Hrel).
  { intros ds kv Hds Hin. rewrite Hget.
    destruct (listed_duration_converts egs_path (dict_keys doc) kv.1 Hconv
                (Hall ds kv Hds Hin)) as [x ->]. by eexists. }
  exists doc'. split.
  - unfold KaldiDatabase.database_dict. rewrite Hscan.
    unfold _add_num_samples_to_database_dict. by rewrite Hnsd, Hadd.
  - eapply Forall2_impl; [exact Hrel|]. intros ds ds' [Hname Hitems].
    split; [done|]. eapply with_num_samples_impl; [|exact Hitems].
    intros k n Hn. by rewrite <- Hget.
Qed.


(** X29. A duration that is no number is an error of its own: when the
    [utt2dur] table of the first dataset of the scanned document starts
    with a line whose duration [float] rejects, [database_dict] raises the
    [ValueError] of that literal, whether the class has a length transform
    or not (the conversion comes before the transform is called); it logs
    no warning and returns no document. *)
Theorem database_dict_duration_no_number (egs_path : egs)
    (f : option (value -> value)) (doc : document) (log : list log_record)
    (name : string) (rest : list string) (k v : string) (table : dict string) :
  get_dataset_dict_from_kaldi egs_path = (Val doc, log) ->
  dict_keys doc = name :: rest ->
  dict_get name egs_path ≫= utt2dur = Some ((k, v) :: table) ->
  float v = None ->
  KaldiDatabase.database_dict float egs_path f = (Exc (ValueError v), log).
Proof.
  intros Hscan Hkeys Htable Hv. unfold KaldiDatabase.database_dict. rewrite Hscan.
  unfold _add_num_samples_to_database_dict. rewrite Hkeys.
  cbn [_get_lengths_from_kaldi]. rewrite Htable. cbn [durations_loop].
  by rewrite Hv.
Qed.

Lemma get_lengths_loop_cases (doc : document) fn names acc :
  (exists lengths, get_lengths_loop doc fn names acc = Val lengths) \/
  get_lengths_loop doc fn names acc = Exc NotImplementedError.
Proof.
  revert acc. induction names as [|name names IH]; intros acc; [left; by eexists|].
  cbn [get_lengths_loop].
  destruct (name ≫= fun name => dict_get name doc) as [items|]; [|by right].
  destruct (lengths_of_cases fn items []) as [(l & Hl)|Hl]; rewrite Hl;
    [apply IH|by right].
Qed.

(** X20. On a database document that has been built (a mapping from the
    names of its datasets to records that are dictionaries), for names
    that are [str] and a transform of the caller that returns for every
    sample count, [KaldiDatabase.get_lengths] returns or raises
    [NotImplementedError]: a name that is no dataset and a record without
    a sample count are both reported as missing length information.  So
    with one bucket [get_bucket_boundaries] of a Kaldi database raises
    only what the percentile computation raises. *)
Theorem kaldi_get_lengths_raises_only_NotImplementedError (doc : document)
    (datasets : names_arg) (fn : value -> value) :
  ((exists lengths, KaldiDatabase.get_lengths doc datasets fn = Val lengths) \/
   KaldiDatabase.get_lengths doc datasets fn = Exc NotImplementedError) /\
  forall np_percentile st,
    (exists boundaries,
       get_bucket_boundaries
         (fun datasets g => lift (fun _ => KaldiDatabase.get_lengths doc datasets g))
         np_percentile datasets 1 fn st = Ok boundaries st) \/
    (exists lengths e,
       KaldiDatabase.get_lengths doc datasets fn = Val lengths /\
       np_percentile (dict_values lengths) 1 = Exc e /\
       get_bucket_boundaries
         (fun datasets g => lift (fun _ => KaldiDatabase.get_lengths doc datasets g))
         np_percentile datasets 1 fn st = Raise e st).
Proof.
  assert (Hcases : (exists lengths,
                      KaldiDatabase.get_lengths doc datasets fn = Val lengths) \/
                   KaldiDatabase.get_lengths doc datasets fn = Exc NotImplementedError).
  { unfold KaldiDatabase.get_lengths. apply get_lengths_loop_cases. }
  split; [done|]. intros np st. unfold get_bucket_boundaries, bind, lift.
  destruct Hcases as [(lengths & Hl)|Hl]; rewrite Hl.
  - destruct (np (dict_values lengths) 1) as [b|e] eqn:Hnp.
    + left. by exists b.
    + destruct e;
        first [ left; by exists []
              | right; exists lengths; eexists; split; [done|]; split; [exact Hnp|done] ].
  - left. by exists [].
Qed.

Lemma examples_loop_wf path u t g scp acc examples :
  dict_wf acc ->
  examples_loop path u t g scp acc = Val examples ->
  dict_wf examples.
Proof.
  revert acc. induction scp as [|[i s] scp IH]; intros acc Hwf Hval.
  - cbn in Hval. by injection Hval as <-.
  - cbn [examples_loop] in Hval.
    destruct (_audio_path s) as [p|]; [|done].
    destruct (dict_get i u) as [spk|]; [|done].
    destruct g as [table|].
    + destruct (dict_get spk table) as [g0|]; [|done].
      destruct (dict_get i t) as [tr|]; [|done].
      eapply IH; [|exact Hval]. by apply dict_set_wf.
    + destruct (dict_get i t) as [tr|]; [|done].
      eapply IH; [|exact Hval]. by apply dict_set_wf.
Qed.

Lemma scanned_items_wf (egs_path : egs) (doc : document) log ds :
  get_dataset_dict_from_kaldi egs_path = (Val doc, log) ->
  ds ∈ doc -> dict_wf ds.2.
Proof.
  unfold get_dataset_dict_from_kaldi. intros Hscan Hds.
  pose proof (scan_loop_Val_inv _ _ _ _ _ Hscan) as Hok.
  rewrite scan_loop_spec in Hscan by done. injection Hscan as <- _.
  apply elem_of_dict_merge in Hds as [Hds|Hds]; [by apply elem_of_nil in Hds|].
  apply list_elem_of_omap in Hds as ([n dir] & _ & Hl).
  unfold loaded_entry in Hl. cbn [fst snd] in Hl.
  destruct (get_examples_from_dataset n dir) as [examples|] eqn:Hex; [|done].
  injection Hl as <-. cbn [snd]. unfold get_examples_from_dataset in Hex.
  destruct (load_keyed_lines (utt2spk dir) _) as [u|]; [|done].
  destruct (load_keyed_lines (text dir) _) as [t|]; [|done].
  eapply examples_loop_wf; [|exact Hex]. apply NoDup_nil_2.
Qed.

Lemma Forall2_dict_get {A B} (R : A -> B -> Prop) (d : dict A) (d' : dict B)
    name items :
  Forall2 (fun ds ds' => ds'.1 = ds.1 /\ R ds.2 ds'.2) d d' ->
  dict_get name d = Some items ->
  exists items', dict_get name d' = Some items' /\ R items items'.
Proof.
  induction 1 as [|[n x] [n' x'] d d' [Hn Hx] _ IH]; intros Hget; [done|].
  cbn [fst snd] in *. subst n'. cbn [dict_get] in *.
  destruct (decide (name = n)); [|by apply IH].
  injection Hget as <-. by exists x'.
Qed.

Lemma lengths_of_with_num_samples fn ns (items items' : dict record) acc :
  with_num_samples ns items items' ->
  NoDup items.*1 ->
  (forall k, k ∈ items.*1 -> k ∉ dict_keys acc) ->
  exists new,
    lengths_of fn items' acc = Val (acc ++ new) /\
    Forall2 (fun kv l => l.1 = kv.1 /\ exists n, ns kv.1 = Some n /\ l.2 = fn n)
            items new.
Proof.
  intros Hrel. revert acc.
  induction Hrel as [|[k rec] [k' rec'] items items' (Hk & n & Hn & Hrec) _ IH];
    intros acc Hnd Hfresh.
  - exists []. by rewrite app_nil_r.
  - cbn [fst snd] in *. subst k' rec'. rewrite fmap_cons in Hnd, Hfresh.
    apply NoDup_cons in Hnd as [Hk Hnd]. cbn [fst] in *.
    destruct (IH (dict_set k (fn n) acc)) as (new & Hloop & Hnew); [done| |].
    { intros k' Hk' [->|Hin]%dict_keys_set; [done|].
      by apply (Hfresh k'); [apply list_elem_of_further|]. }
    rewrite dict_set_fresh in Hloop by (apply Hfresh, list_elem_of_here).
    exists ((k, fn n) :: new). cbn [lengths_of]. rewrite dict_get_set_eq.
    rewrite dict_set_fresh by (apply Hfresh, list_elem_of_here).
    rewrite Hloop, <- app_assoc. split; [done|]. constructor; [|done].
    split; [done|]. by exists n.
Qed.

(** X21. The sample counts that [database_dict] writes are the lengths
    that [get_lengths] reads: when every dataset of the scanned document
    has a [utt2dur] table, the tables together list every identifier and
    every duration listed is the literal of a number,
    [KaldiDatabase.get_lengths] on the document that [database_dict]
    returns gives, for a dataset of the document, one length per
    identifier of the dataset, in the order of the dataset, which is the
    caller's transform applied to the class's transform of the duration,
    as a number, of the identifier. *)
Theorem kaldi_lengths_round_trip (egs_path : egs) (f : value -> value)
    (fn : value -> value) (doc : document) (log : list log_record)
    (name : string) (items : dict record) :
  get_dataset_dict_from_kaldi egs_path = (Val doc, log) ->
  durations_convert float egs_path ->
  Forall (has_durations egs_path) (dict_keys doc) ->
  (forall ds kv, ds ∈ doc -> kv ∈ ds.2 ->
     is_Some (last_duration egs_path (dict_keys doc) kv.1)) ->
  dict_get name doc = Some items ->
  exists doc' lengths,
    KaldiDatabase.database_dict float egs_path (Some f) = (Val doc', log) /\
    KaldiDatabase.get_lengths doc' (StrArg name) fn = Val lengths /\
    Forall2 (fun kv l =>
               l.1 = kv.1 /\
               exists v x,
                 last_duration egs_path (dict_keys doc) kv.1 = Some v /\
                 float v = Some x /\
                 l.2 = fn (f x))
            items lengths.
Proof.
  intros Hscan Hconv Htables Hall Hget.
  destruct (scanned_doc_lengths egs_path f doc Hconv Htables) as (nsd & Hnsd & Hns).
  destruct (add_to_datasets_Val nsd doc) as (doc' & Hadd & Hrel).
  { intros ds kv Hds Hin. rewrite Hns.
    destruct (listed_duration_converts egs_path (dict_keys doc) kv.1 Hconv
                (Hall ds kv Hds Hin)) as [x ->]. by eexists. }
  destruct (Forall2_dict_get _ _ _ _ _ Hrel Hget) as (items' & Hget' & Hitems).
  destruct (lengths_of_with_num_samples fn _ items items' [] Hitems)
    as (new & Hloop & Hnew).
  { apply (scanned_items_wf egs_path doc log (name, items) Hscan).
    by apply dict_get_Some_elem. }
  { intros k _. apply not_elem_of_nil. }
  assert (Hkeys : new.*1 = items.*1).
  { clear -Hnew. induction Hnew as [|kv l items new [Hk _] _ IH]; [done|].
    rewrite !fmap_cons. by rewrite Hk, IH. }
  exists doc', new. split; [|split].
  - unfold KaldiDatabase.database_dict. rewrite Hscan.
    unfold _add_num_samples_to_database_dict. by rewrite Hnsd, Hadd.
  - unfold KaldiDatabase.get_lengths. cbn [get_lengths_loop mbind option_bind].
    rewrite Hget', Hloop. cbn [app]. rewrite dict_merge_disjoint; [done| |].
    + unfold dict_wf, dict_keys. rewrite Hkeys.
      apply (scanned_items_wf egs_path doc log (name, items) Hscan).
      by apply dict_get_Some_elem.
    + intros k _. apply not_elem_of_nil.
  - eapply Forall2_impl; [exact Hnew|]. intros kv l (Hk & n & Hn & Hl).
    split; [done|]. rewrite Hns in Hn.
    destruct (last_duration egs_path (dict_keys doc) kv.1) as [v|]; [|done].
    cbn in Hn. destruct (float v) as [x|] eqn:Hx; [|done].
    injection Hn as <-. by exists v, x.
Qed.

End KaldiDurations.

(** ** The function [to_list] *)

Section ToListFacts.
Import ToList.

(** X22. [to_list] returns a list or a tuple; with an [item_type] the
    result is always a list, while without one a tuple is returned as it
    is.  Applying [to_list] again with the same [item_type] changes nothing
    exactly when the result is not itself an instance of [item_type]; when
    it is ([item_type] is [list], [object], [Sequence], [Iterable], or a
    tuple of classes that contains one of them), the second application
    wraps the result in a new list of one element. *)
Theorem to_list_idempotent (x y : object) (item_type : option (list class)) :
  ToList.to_list x item_type = Some y ->
  isinstance y [Clist; Ctuple] = true /\
  (is_Some item_type -> type y = Clist) /\
  (item_type = None -> type x = Ctuple -> y = x) /\
  ToList.to_list y item_type
    = Some (if match item_type with
               | Some classes => isinstance y classes
               | None => false
               end
            then OList [y] else y).
Proof.
  intros Hy. destruct item_type as [cs|].
  - assert (Hy' : exists items, y = OList items).
    { unfold ToList.to_list in Hy. destruct (isinstance x cs).
      - injection Hy as <-. by eexists.
      - destruct (list_ x) as [items|]; [|done]. injection Hy as <-. by eexists. }
    destruct Hy' as (items & ->). split; [done|]. split; [done|]. split; [done|].
    unfold ToList.to_list. by destruct (isinstance (OList items) cs).
  - unfold ToList.to_list in Hy.
    destruct (isinstance x [Clist; Ctuple]) eqn:Hx; injection Hy as <-.
    + split; [done|]. split; [by intros [? ?]|]. split; [done|].
      unfold ToList.to_list. by rewrite Hx.
    + split; [done|]. split; [by intros [? ?]|]. split; [|done].
      intros _ Ht. unfold isinstance in Hx. rewrite Ht in Hx. done.
Qed.

(** X23. For the arguments [get_dataset] accepts, [to_list(names,
    item_type=str)] is the list of names that the loop of [get_dataset]
    walks: a single [str] gives the list of that one name (not the list
    of its characters), and a list or a tuple of names gives the list of
    the same names in the same order. *)
Theorem to_list_of_names (names : names_arg) :
  (forall o, of_names names = Some o ->
     ToList.to_list o (Some [Cstr]) = Some (OList (OStr <$> Database.to_list names))) /\
  (forall l, ToList.to_list (OTuple (OStr <$> l)) (Some [Cstr])
             = Some (OList (OStr <$> l))).
Proof.
  split.
  - intros o Ho. destruct names as [|name|l]; [done| |]; by injection Ho as <-.
  - done.
Qed.

End ToListFacts.

(** ** class HybridASRDatabaseTemplate *)

Section Template.
Import HybridASRDatabaseTemplate.

(** X24. Which properties a subclass has to provide: with [lfr] set, the
    six file names of the template are all derived from
    [ali_path_train_lfr] (the decoding graph lies in its subdirectory
    [graph_tgpr_5k]) and none of the other properties is read; without
    [lfr], the model files are derived from [ali_path_train_ffr] and the
    graph files from [hclg_path_ffr]. *)
Theorem template_file_names (self : template) (p h : list string) :
  (lfr self = true -> ali_path_train_lfr self = Val p ->
   decode_fst self = Val (str (p ++ ["graph_tgpr_5k"; "HCLG.fst"])) /\
   words_txt self = Val (str (p ++ ["graph_tgpr_5k"; "words.txt"])) /\
   model_file self = Val (str (p ++ ["final.mdl"])) /\
   tree_file self = Val (str (p ++ ["tree"])) /\
   phones self = Val (str (p ++ ["phones.txt"])) /\
   occs_file self = Val (str (p ++ ["1.occs"]))) /\
  (lfr self = false -> ali_path_train_ffr self = Val p -> hclg_path_ffr self = Val h ->
   decode_fst self = Val (str (h ++ ["HCLG.fst"])) /\
   words_txt self = Val (str (h ++ ["words.txt"])) /\
   model_file self = Val (str (p ++ ["final.mdl"])) /\
   tree_file self = Val (str (p ++ ["tree"])) /\
   phones self = Val (str (p ++ ["phones.txt"])) /\
   occs_file self = Val (str (p ++ ["final.occs"]))).
Proof.
  unfold decode_fst, words_txt, model_file, tree_file, phones, occs_file,
    occs_file_lfr, occs_file_ffr, hclg_path, hclg_path_lfr, ali_path_train,
    on_path, truediv.
  split.
  - intros -> ->. by rewrite <- !app_assoc.
  - by intros -> -> ->.
Qed.

(** X25. [word2id] never fails on a vocabulary that has the entry
    [<UNK>]: a word of the vocabulary gets its own identifier and every
    other word gets the identifier of [<UNK>]; when [_id2word_dict] inverts
    [_word2id_dict], [id2word] of the result is the word itself or
    [<UNK>].  On a vocabulary without [<UNK>] an unknown word raises the
    [KeyError] of [<UNK>], not of the word. *)
Theorem word2id_falls_back_to_UNK (self : template) :
  (forall unk,
     dict_get "<UNK>" (_word2id_dict self) = Some unk ->
     (forall word i, dict_get word (_word2id_dict self) = Some i ->
        id2word self i = Some word) ->
     forall word,
       exists i,
         word2id self word = Val i /\
         (dict_get word (_word2id_dict self) = Some i /\ id2word self i = Some word \/
          dict_get word (_word2id_dict self) = None /\ i = unk /\
          id2word self i = Some "<UNK>")) /\
  (dict_get "<UNK>" (_word2id_dict self) = None ->
   forall word,
     dict_get word (_word2id_dict self) = None ->
     word2id self word = Exc (KeyError "<UNK>")).
Proof.
  unfold word2id. split.
  - intros unk Hunk Hinv word.
    destruct (dict_get word (_word2id_dict self)) as [i|] eqn:Hw.
    + exists i. split; [done|]. left. auto.
    + exists unk. rewrite Hunk. split; [done|]. right. auto.
  - by intros -> word ->.
Qed.

Section Phones.
Variable int : string -> option Z.

Lemma int_dict_get_set_eq {V} (k : Z) (v : V) d :
  int_dict_get k (int_dict_set k v d) = Some v.
Proof.
  induction d as [|[k' v'] d IH]; simpl.
  - by rewrite decide_True.
  - destruct (decide (k = k')) as [->|Hne]; simpl.
    + by rewrite decide_True.
    + by rewrite decide_False.
Qed.

Lemma int_dict_get_set_ne {V} (k k' : Z) (v : V) d :
  k <> k' -> int_dict_get k' (int_dict_set k v d) = int_dict_get k' d.
Proof.
  intros Hne. induction d as [|[k0 v0] d IH]; simpl.
  - by rewrite decide_False.
  - destruct (decide (k = k0)) as [->|Hne0]; simpl.
    + by rewrite !decide_False.
    + destruct (decide (k' = k0)); [done|]. apply IH.
Qed.

Lemma invert_untouched items acc d i :
  (forall p v, (p, v) ∈ items -> int v <> Some i) ->
  invert int items acc = inr d ->
  int_dict_get i d = int_dict_get i acc.
Proof.
  revert acc. induction items as [|[k v] items IH]; intros acc Hno Hinv.
  - simpl in Hinv. by injection Hinv as <-.
  - simpl in Hinv. destruct (int v) as [i0|] eqn:Hv; [|done].
    rewrite (IH _ (fun p v' Hin => Hno p v' (list_elem_of_further _ _ _ Hin)) Hinv).
    apply int_dict_get_set_ne. intros ->.
    by apply (Hno k v); [apply list_elem_of_here|].
Qed.

Lemma invert_found items acc d i p v :
  (p, v) ∈ items -> int v = Some i ->
  (forall p' v', (p', v') ∈ items -> int v' = Some i -> p' = p) ->
  invert int items acc = inr d ->
  int_dict_get i d = Some p.
Proof.
  revert acc v. induction items as [|[k v0] items IH]; intros acc v Hin Hv Huniq Hinv;
    [by apply elem_of_nil in Hin|].
  simpl in Hinv. destruct (int v0) as [i0|] eqn:Hv0; [|done].
  destruct (decide (Exists (fun kv => int kv.2 = Some i) items)) as [Hex|Hnex].
  - apply Exists_exists in Hex as ([p' v'] & Hin' & Hv').
    assert (p' = p) as -> by (by apply (Huniq p' v'); [apply list_elem_of_further|]).
    cbn [snd] in Hv'. apply (IH (int_dict_set i0 k acc) v' Hin' Hv'); [|done].
    intros p'' v'' Hin'' Hv''. apply (Huniq p'' v''); [by apply list_elem_of_further|done].
  - rewrite (invert_untouched items (int_dict_set i0 k acc) d i); [|
      intros p' v' Hin' Hv'; apply Hnex, Exists_exists; by exists (p', v') | done].
    apply elem_of_cons in Hin as [Heq|Hin].
    + injection Heq as -> ->. assert (i0 = i) as -> by congruence.
      apply int_dict_get_set_eq.
    + exfalso. apply Hnex, Exists_exists. by exists (p, v).
Qed.

Lemma invert_total items acc :
  (forall p v, (p, v) ∈ items -> is_Some (int v)) ->
  exists d, invert int items acc = inr d.
Proof.
  revert acc. induction items as [|[k v] items IH]; intros acc Hall; [by eexists|].
  simpl. destruct (Hall k v) as [i ->]; [apply list_elem_of_here|].
  apply IH. intros p v' Hin. apply (Hall p v'). by apply list_elem_of_further.
Qed.

Lemma invert_bad items acc p v :
  (p, v) ∈ items -> int v = None ->
  exists v', int v' = None /\ invert int items acc = inl v'.
Proof.
  revert acc. induction items as [|[k v0] items IH]; intros acc Hin Hv;
    [by apply elem_of_nil in Hin|].
  simpl. destruct (int v0) as [i0|] eqn:Hv0; [|by exists v0].
  apply elem_of_cons in Hin as [Heq|Hin]; [injection Heq as -> ->; congruence|].
  by apply IH.
Qed.

(** X26. [id2phone] inverts [phone2id] up to the conversion to [int]:
    when every identifier of [phones.txt] converts and no two phones have
    the same one, the phone of the converted identifier that [phone2id]
    returns is the phone asked for; [phone2id] itself returns the
    identifier as the [str] the file holds. *)
Theorem id2phone_inverts_phone2id (self : template) :
  (forall p v, (p, v) ∈ _phone2id_dict self -> is_Some (int v)) ->
  (forall p1 v1 p2 v2,
     (p1, v1) ∈ _phone2id_dict self -> (p2, v2) ∈ _phone2id_dict self ->
     int v1 = int v2 -> p1 = p2) ->
  forall phone v,
    phone2id self phone = Some v ->
    exists i, int v = Some i /\ id2phone int self i = Phone phone.
Proof.
  intros Hall Hinj phone v Hv. unfold phone2id in Hv.
  apply dict_get_Some_elem in Hv. destruct (Hall _ _ Hv) as [i Hi].
  exists i. split; [done|]. unfold id2phone, _id2phone_dict.
  destruct (invert_total (_phone2id_dict self) [] Hall) as (d & Hd). rewrite Hd.
  rewrite (invert_found _ [] d i phone v Hv Hi); [done| |done].
  intros p' v' Hin' Hv'. apply (Hinj p' v' phone v); [done|done|congruence].
Qed.

(** X27. One identifier of [phones.txt] that does not convert to [int]
    makes [id2phone] raise [ValueError] for every argument, also for the
    identifiers of the other phones. *)
Theorem id2phone_bad_table (self : template) (p v : string) :
  (p, v) ∈ _phone2id_dict self -> int v = None ->
  forall id_, exists v', int v' = None /\ id2phone int self id_ = ValueError v'.
Proof.
  intros Hin Hv id_. unfold id2phone, _id2phone_dict.
  destruct (invert_bad (_phone2id_dict self) [] p v Hin Hv) as (v' & Hv' & ->).
  by exists v'.
Qed.

End Phones.

End Template.

(** ** The weak dictionary after a collection *)

Section Collection.
Context `{K : Keys}.
Variable D : database_doc.

Lemma filter_wf {V} (P : string * V -> Prop) `{forall x, Decision (P x)}
    (d : dict V) :
  dict_wf d -> dict_wf (filter P d).
Proof.
  unfold dict_wf, dict_keys. induction d as [|[k v] d IH]; intros Hwf; [done|].
  rewrite fmap_cons in Hwf. apply NoDup_cons in Hwf as [Hk Hwf].
  rewrite filter_cons. destruct (decide (P (k, v))); [|by apply IH].
  rewrite (fmap_cons fst). apply NoDup_cons. split; [|by apply IH].
  intros ([k' v'] & Heq & Hin)%list_elem_of_fmap. cbn [fst] in Heq. subst k'.
  apply list_elem_of_filter in Hin as [_ Hin].
  apply Hk. apply list_elem_of_fmap. by exists (k, v').
Qed.

Lemma fetch_cache_wf name st :
  dict_wf (cache st) -> dict_wf (cache (final_state (fetch D name st))).
Proof.
  intros Hwf. unfold fetch. destruct (dict_get name (cache st)); [done|].
  destruct (build D name st) as [w st'|e st'] eqn:Hb.
  - apply build_Ok in Hb as (examples & _ & _ & _ & ->). simpl.
    by apply dict_set_wf.
  - by apply build_Raise in Hb as ->.
Qed.

Lemma fetch_all_cache_wf names acc st :
  dict_wf (cache st) -> dict_wf (cache (final_state (fetch_all D names acc st))).
Proof.
  revert acc st. induction names as [|n names IH]; intros acc st Hwf; [done|].
  simpl. unfold bind. pose proof (fetch_cache_wf n st Hwf) as H1.
  destruct (fetch D n st) as [w st1|e st1]; [|done]. by apply IH.
Qed.

Lemma reachable_cache_wf st : reachable D st -> dict_wf (cache st).
Proof.
  induction 1 as [h|st names _ IH|st alive _ IH].
  - apply NoDup_nil_2.
  - rewrite get_dataset_final_state. destruct names; [done| |];
      by apply fetch_all_cache_wf.
  - by apply filter_wf.
Qed.

(** X28. The weak dictionary is only a cache: once the wrapper of a name
    has been collected, fetching the name builds a new wrapper, at a new
    address, over the mapping the name resolves to, caches it, and writes
    the identifiers and the name into the records again (so a dataset name
    that a later alias had overwritten is written back); the new wrapper
    holds the records as they are then. *)
Theorem rebuilt_after_collection (name : string) (w : wid) (alive : wid -> bool)
    (st : state) :
  reachable D st ->
  dict_get name (cache st) = Some w ->
  alive w = false ->
  exists examples h,
    resolves D name examples /\
    wrappers st !! w = Some (snapshot h examples) /\
    w < length (wrappers st) /\
    get_dataset D (StrArg name) (collect alive st)
      = Ok (Concatenate [length (wrappers st)])
           {| heap := augment name examples (heap st);
              wrappers :=
                wrappers st ++ [snapshot (augment name examples (heap st)) examples];
              cache := dict_set name (length (wrappers st))
                         (cache (collect alive st)) |}.
Proof.
  intros Hreach Hc Halive.
  pose proof (reachable_cache_wf st Hreach) as Hwf.
  pose proof (reachable_cache_ok D st Hreach) as Hok.
  destruct (Hok name w (dict_get_Some_elem _ _ _ Hc)) as (examples & h & Hres & Hne & Hw).
  exists examples, h. split; [done|]. split; [done|].
  split; [by eapply lookup_lt_Some|].
  rewrite get_dataset_StrArg, fetch_miss.
  - by rewrite (build_Val D name examples).
  - simpl. apply dict_get_None. intros (w' & Hin)%elem_of_dict_keys.
    apply list_elem_of_filter in Hin as [Hw' Hin]. cbn [snd] in Hw'.
    assert (w' = w) as ->.
    { eapply NoDup_fst_functional; [exact Hwf|exact Hin|].
      by apply dict_get_Some_elem. }
    congruence.
Qed.

End Collection.

(** ** The further properties on concrete documents *)

Section FurtherInstances.

Lemma not_shared_singleton (d : dict ref) : ~ shared_id [d].
Proof.
  intros (i & j & di & dj & k & Hij & Hi & Hj & _).
  destruct j as [|j]; [lia|]. by destruct j.
Qed.

Lemma scenario_consistent : ids_consistent scenario_db.
Proof.
  intros n1 n2 ex1 ex2 id1 id2 r H1 Hin1 H2 Hin2.
  unfold scenario_db in *. cbn in H1, H2.
  repeat case_decide; simplify_eq;
    apply list_elem_of_singleton in Hin1; apply list_elem_of_singleton in Hin2;
    congruence.
Qed.

Lemma scenario_refs_valid : doc_refs_valid scenario_db (heap scenario_st).
Proof.
  intros n ex i r Hn Hin. unfold scenario_db in *. cbn in Hn.
  repeat case_decide; simplify_eq; apply list_elem_of_singleton in Hin;
    simplify_eq; cbn; lia.
Qed.

(** X1 on the alias [all] of the scenario. *)
Lemma alias_lookup_witness :
  dict_wf [("u1", 0); ("u2", 1)] /\
  forall k r,
    dict_get k [("u1", 0); ("u2", 1)] = Some r <->
    exists d, d ∈ [[("u1", 0)]; [("u2", 1)]] /\ dict_get k d = Some r.
Proof.
  apply (alias_lookup_through_datasets scenario_db "all" ["train"; "test"]
           [[("u1", 0)]; [("u2", 1)]]).
  - reflexivity.
  - repeat constructor.
  - solve_dict_wf.
  - reflexivity.
Defined.

(** X2 on the scenario with the alias [lla], which lists [test] before
    [train]. *)
Lemma alias_order_witness :
  exists examples',
    _get_dataset_from_database_dict reordered_db "lla" = Val examples' /\
    examples' ≡ₚ [("u1", 0); ("u2", 1)] /\
    forall k, dict_get k examples' = dict_get k [("u1", 0); ("u2", 1)].
Proof.
  apply (alias_order_irrelevant reordered_db "all" "lla" ["train"; "test"]
           ["test"; "train"]).
  - reflexivity.
  - reflexivity.
  - apply perm_swap.
  - cbn. solve_dict_wf.
  - reflexivity.
Defined.

(** X3 on the alias [everything], which lists the alias [all]. *)
Lemma alias_of_missing_dataset_witness :
  "everything" ∈ dataset_names nested_db /\
  get_dataset nested_db (StrArg "everything") nested_st
    = Raise (KeyErrorCloseMatches "everything"
               (difflib.get_close_matches "everything" (dataset_names nested_db)
                  5 cutoff_0) nested_db) nested_st.
Proof.
  apply (alias_of_missing_dataset nested_db "everything" "all" ["train"] []
           [[("u1", 0)]] nested_st).
  - apply reachable_init.
  - reflexivity.
  - repeat constructor.
  - solve_dict_wf.
  - apply not_shared_singleton.
  - reflexivity.
Defined.

(** X4 on the two datasets that share [u2]. *)
Lemma alias_conflict_witness :
  exists intersection,
    intersection <> [] /\
    (forall k, k ∈ intersection ->
       shared_at [[("u1", 0); ("u2", 1)]; [("u2", 2); ("u3", 3)]] k) /\
    get_dataset conflict_db (StrArg "both") conflict_st
      = Raise (AssertionError (VList (VStr <$> intersection))) conflict_st.
Proof.
  apply (alias_conflict_passes_through conflict_db "both" ["A"; "B"]
           [[("u1", 0); ("u2", 1)]; [("u2", 2); ("u3", 3)]] conflict_st).
  - apply reachable_init.
  - reflexivity.
  - repeat constructor.
  - solve_dict_wf.
  - exists 0, 1, [("u1", 0); ("u2", 1)], [("u2", 2); ("u3", 3)], "u2".
    repeat split; [lia|compute_done..].
Defined.

(** X5 on the scenario, asked for [train] and [all]. *)
Lemma listed_names_witness :
  Forall (fun n =>
            n ∈ dataset_names scenario_db /\
            (exists examples, resolves scenario_db n examples) /\
            is_Some (dict_get n (cache after_all)))
         ["train"; "all"].
Proof.
  apply (get_dataset_returns_for_listed_names scenario_db (ListArg ["train"; "all"])
           scenario_st (Concatenate [0; 1]) after_all).
  - apply reachable_init.
  - vm_compute. reflexivity.
Defined.

(** X6 on the scenario, asked for [train] twice. *)
Lemma repeated_names_witness :
  Forall2 (fun n w => dict_get n (cache after_train) = Some w)
          ["train"; "train"] [0; 0] /\
  forall i j n wi wj,
    ["train"; "train"] !! i = Some n -> ["train"; "train"] !! j = Some n ->
    [0; 0] !! i = Some wi -> [0; 0] !! j = Some wj ->
    wi = wj.
Proof.
  apply (repeated_names_share_wrapper scenario_db ["train"; "train"] scenario_st
           [0; 0] after_train).
  - apply reachable_init.
  - vm_compute. reflexivity.
Defined.

(** X7 on the scenario, asked for [train] and then for a name that does
    not exist. *)
Lemma failed_call_witness :
  exists e,
    build scenario_db "missing" scenario_st = Raise e scenario_st /\
    forall post,
      get_dataset scenario_db (ListArg (["train"] ++ "missing" :: post)) scenario_st
        = Raise e (final_state (get_dataset scenario_db (ListArg ["train"]) scenario_st)) /\
      Forall (fun n =>
                is_Some (dict_get n (cache (final_state
                  (get_dataset scenario_db
                     (ListArg (["train"] ++ "missing" :: post)) scenario_st)))))
             ["train"].
Proof.
  apply (failed_call_keeps_earlier_names scenario_db ["train"] "missing"
           [[("u1", 0)]] scenario_st).
  - apply reachable_init.
  - repeat constructor; done.
  - intros examples Hres. vm_compute in Hres. done.
Defined.

Lemma paderbox_keys_differ :
  @EXAMPLE_ID paderbox_keys <> @DATASET_NAME paderbox_keys.
Proof. done. Qed.

Lemma paderbox_num_samples_differs :
  @NUM_SAMPLES paderbox_keys <> @EXAMPLE_ID paderbox_keys /\
  @NUM_SAMPLES paderbox_keys <> @DATASET_NAME paderbox_keys.
Proof. done. Qed.

(** C7 on the scenario: [train], then the alias [all].  The record [u1]
    is yielded twice, first with the dataset name [train], then with the
    dataset name [all]. *)
Lemma concatenation_witness :
  get_dataset scenario_db (ListArg ["train"; "all"]) scenario_st
    = Ok (Concatenate [0; 1]) after_all /\
  dict_get DATASET_NAME <$> list_of after_all (Concatenate [0; 1])
    = [Some (VStr "train"); Some (VStr "all"); Some (VStr "all")] /\
  exists yss,
    Forall3 (fun n ex ys => yields_dataset n ex (heap after_all) ys)
            ["train"; "all"] [[("u1", 0)]; [("u1", 0); ("u2", 1)]] yss /\
    list_of after_all (Concatenate [0; 1]) = concat yss /\
    (first <- iterate (Concatenate [0; 1]);;
     second <- iterate (Concatenate [0; 1]);;
     ret (first, second))%py after_all
      = Ok (concat yss, concat yss) after_all.
Proof.
  destruct (get_dataset_concatenates_in_order scenario_db paderbox_keys_differ
              ["train"; "all"] [[("u1", 0)]; [("u1", 0); ("u2", 1)]] scenario_st)
    as [_ H].
  - apply reachable_init.
  - apply scenario_refs_valid.
  - repeat constructor; done.
  - destruct H as (ds & st' & yss & Hget & Hy & Hlist & Htwice); [done|].
    assert (Hc : get_dataset scenario_db (ListArg ["train"; "all"]) scenario_st
                 = Ok (Concatenate [0; 1]) after_all) by (vm_compute; reflexivity).
    rewrite Hc in Hget. injection Hget as <- <-.
    split; [exact Hc|]. split; [reflexivity|]. by exists yss.
Defined.

Lemma scenario_ids_in_place : example_ids_in_place scenario_db (heap scenario_st).
Proof.
  intros n ex i r e v Hn Hin He Hv. unfold scenario_db in *. cbn in Hn.
  repeat case_decide; simplify_eq; apply list_elem_of_singleton in Hin;
    simplify_eq; cbn in He; simplify_eq; done.
Qed.

(** X8 on the scenario: after [train] and [all] were fetched, the records
    hold their own identifiers. *)
Lemma example_id_witness :
  example_ids_in_place scenario_db (heap after_all) /\
  exists e, heap after_train !! 0 = Some e /\
    dict_get EXAMPLE_ID e = Some (VStr "u1").
Proof.
  split.
  - apply (example_id_stable scenario_db paderbox_keys_differ scenario_consistent
             (StrArg "all") after_train).
    apply (example_id_stable scenario_db paderbox_keys_differ scenario_consistent
             (StrArg "train") scenario_st).
    apply scenario_ids_in_place.
  - apply (proj2 (example_id_stable scenario_db paderbox_keys_differ scenario_consistent
                    (StrArg "train") scenario_st scenario_ids_in_place)
             "train" [("u1", 0)] "u1" 0); [done|done|done|compute_done|cbn; lia].
Defined.

(** X9 on the alias [all] of the scenario, fetched after [train]. *)
Lemma utterances_witness :
  exists st',
    HybridASRDatabaseTemplate.utterances_for_dataset scenario_db (StrArg "all")
      after_train
    = Ok (VStr <$> dict_keys [("u1", 0); ("u2", 1)]) st'.
Proof.
  apply (utterances_for_dataset_lists_ids scenario_db paderbox_keys_differ scenario_consistent
           "all" [("u1", 0); ("u2", 1)] after_train).
  - assert (Hst : after_train
                  = final_state (get_dataset scenario_db (StrArg "train") scenario_st))
      by (vm_compute; reflexivity).
    rewrite Hst. apply reachable_call, reachable_init.
  - apply scenario_refs_valid.
  - split; done.
Defined.

Lemma sized_one_key : one_key_per_record [("u1", 0); ("u2", 1)].
Proof.
  intros i i' r Hin1 Hin2. rewrite !elem_of_cons in Hin1, Hin2.
  destruct Hin1 as [?|[?|?%elem_of_nil]]; destruct Hin2 as [?|[?|?%elem_of_nil]];
    by simplify_eq.
Qed.

Lemma sized_refs_valid : doc_refs_valid sized_db (heap sized_st).
Proof.
  intros n ex i r Hn Hin. unfold sized_db in *. cbn in Hn.
  repeat case_decide; simplify_eq. rewrite !elem_of_cons in Hin.
  destruct Hin as [?|[?|?%elem_of_nil]]; simplify_eq; cbn; lia.
Qed.

(** X10 on a dataset of two records with sample counts. *)
Lemma base_get_lengths_witness :
  exists lengths st',
    Database.get_lengths sized_db (StrArg "train") (fun x => x) sized_st
      = Ok lengths st' /\
    Forall2 (fun kv l =>
               exists e n, heap sized_st !! kv.2 = Some e /\
                 num_samples_of e = Val n /\ l = (HStr kv.1, n))
            [("u1", 0); ("u2", 1)] lengths.
Proof.
  apply (base_get_lengths_returns sized_db paderbox_keys_differ
           paderbox_num_samples_differs "train" [("u1", 0); ("u2", 1)] (fun x => x) sized_st).
  - apply reachable_init.
  - apply sized_refs_valid.
  - split; done.
  - unfold dict_wf, dict_keys. compute_done.
  - apply sized_one_key.
  - intros i r Hin. rewrite !elem_of_cons in Hin.
    destruct Hin as [?|[?|?%elem_of_nil]]; simplify_eq.
    + by exists [("num_samples", VNum 16000)], (VNum 16000).
    + by exists [("num_samples", VDict [("observation", VNum 8000)])], (VNum 8000).
    + done.
Defined.

(** X11 on the scenario, whose records have no sample count. *)
Lemma base_get_lengths_raises_witness :
  exists key st',
    (key = NUM_SAMPLES \/ key = OBSERVATION) /\
    Database.get_lengths scenario_db (StrArg "train") (fun x => x) scenario_st
      = Raise (KeyError key) st' /\
    forall (render : hashable -> string) np num_buckets,
      get_bucket_boundaries
        (fun datasets length_transform_fn =>
           (lengths <- Database.get_lengths scenario_db datasets length_transform_fn;;
            ret ((fun kv => (render kv.1, kv.2)) <$> lengths))%py)
        np (StrArg "train") num_buckets (fun x => x) scenario_st
      = Raise (KeyError key) st'.
Proof.
  apply (base_get_lengths_without_num_samples scenario_db paderbox_keys_differ
           paderbox_num_samples_differs "train" [("u1", 0)] (fun x => x)
           scenario_st "u1" 0 [("speaker_id", VStr "s1")]).
  - apply reachable_init.
  - apply scenario_refs_valid.
  - split; done.
  - apply list_elem_of_here.
  - reflexivity.
  - reflexivity.
Defined.

(** X13 on the well-formed directory of the mixed recipe. *)
Lemma directory_records_witness :
  exists examples,
    get_examples_from_dataset "good" dir_good = Val examples /\
    Forall2 (fun line ex =>
               ex.1 = line.1 /\
               built_from [("u2", "s2")] [("u2", VStr "good")] (spk2gender dir_good)
                 line ex.2)
            (wav_scp dir_good) examples.
Proof.
  apply (directory_loads_to_records "good" dir_good [("u2", "s2")]
           [("u2", VStr "good")]).
  - unfold record_fields. compute_done.
  - reflexivity.
  - reflexivity.
  - unfold dict_wf, dict_keys. compute_done.
  - repeat constructor; cbn; eauto.
Defined.

(** X16 on the recipe whose first directory lacks a transcription. *)
Lemma scan_stops_witness :
  get_dataset_dict_from_kaldi ([] ++ ("bad", dir_bad_text) :: [("good", dir_good)])
    = (Exc (KeyError "u1"), omap skipped_entry []) /\
  KaldiDatabase.database_dict float_seconds
    ([] ++ ("bad", dir_bad_text) :: [("good", dir_good)]) None
    = (Exc (KeyError "u1"), omap skipped_entry []).
Proof.
  apply (scan_stops_at_first_error [] [("good", dir_good)] "bad" dir_bad_text
           (KeyError "u1") float_seconds None).
  - constructor.
  - reflexivity.
  - done.
Defined.

Lemma egs_durations_tables :
  Forall (has_durations egs_durations) ["a"; "b"].
Proof.
  repeat constructor.
  - exists [("u1", "1")]. split; [done|]. unfold dict_wf, dict_keys. compute_done.
  - exists [("u1", "2"); ("u2", "3")]. split; [done|].
    unfold dict_wf, dict_keys. compute_done.
Qed.

Lemma egs_durations_convert : durations_convert float_seconds egs_durations.
Proof.
  intros name table k v Htable Hin. cbn in Htable.
  repeat case_decide; cbn in Htable; simplify_eq; try done;
    rewrite !elem_of_cons in Hin;
    repeat (destruct Hin as [Hin|Hin]; [simplify_eq; by eexists|]);
    by apply elem_of_nil in Hin.
Qed.



Lemma egs_durations_complete ds kv :
  ds ∈ doc_durations -> kv ∈ ds.2 ->
  is_Some (last_duration egs_durations (dict_keys doc_durations) kv.1).
Proof.
  unfold doc_durations. rewrite !elem_of_cons.
  intros [->|[->|?%elem_of_nil]]; [| |done]; cbn [snd]; rewrite !elem_of_cons;
    intros Hin; repeat (destruct Hin as [->|Hin]; [by eexists|]);
    by apply elem_of_nil in Hin.
Qed.

(** X17 on the recipe whose two datasets both list [u1]: it gets the
    duration of the second. *)
Lemma kaldi_durations_witness :
  exists lengths,
    _get_lengths_from_kaldi float_seconds egs_durations (Some seconds) ["a"; "b"] []
      = Val lengths /\
    forall k,
      dict_get k lengths
        = seconds <$> (last_duration egs_durations ["a"; "b"] k ≫= float_seconds).
Proof.
  apply (kaldi_durations_last_dataset_wins float_seconds egs_durations seconds
           ["a"; "b"]).
  - apply egs_durations_convert.
  - apply egs_durations_tables.
Defined.

(** X18 on the same recipe. *)
Lemma database_dict_witness :
  exists doc',
    KaldiDatabase.database_dict float_seconds egs_durations (Some seconds)
      = (Val doc', []) /\
    Forall2 (fun ds ds' =>
               ds'.1 = ds.1 /\
               with_num_samples
                 (fun k => seconds <$> (last_duration egs_durations
                                          (dict_keys doc_durations) k
                                        ≫= float_seconds))
                 ds.2 ds'.2)
            doc_durations doc'.
Proof.
  apply (database_dict_adds_num_samples float_seconds egs_durations seconds
           doc_durations []).
  - reflexivity.
  - apply egs_durations_convert.
  - apply egs_durations_tables.
  - apply egs_durations_complete.
Defined.


(** X21 on the dataset [b] of the recipe with durations. *)
Lemma kaldi_round_trip_witness :
  exists doc' lengths,
    KaldiDatabase.database_dict float_seconds egs_durations (Some seconds)
      = (Val doc', []) /\
    KaldiDatabase.get_lengths doc' (StrArg "b") (fun x => x) = Val lengths /\
    Forall2 (fun kv l =>
               l.1 = kv.1 /\
               exists v x,
                 last_duration egs_durations (dict_keys doc_durations) kv.1 = Some v /\
                 float_seconds v = Some x /\
                 l.2 = seconds x)
            (default [] (dict_get "b" doc_durations)) lengths.
Proof.
  apply (kaldi_lengths_round_trip float_seconds egs_durations seconds (fun x => x)
           doc_durations [] "b" (default [] (dict_get "b" doc_durations))).
  - reflexivity.
  - apply egs_durations_convert.
  - apply egs_durations_tables.
  - apply egs_durations_complete.
  - reflexivity.
Defined.

(** X29 on a recipe whose [utt2dur] gives [n/a] as a duration, for a class
    without a length transform. *)
Lemma duration_no_number_witness :
  KaldiDatabase.database_dict float_seconds egs_text_duration None
    = (Exc (ValueError "n/a"), []).
Proof.
  eapply (database_dict_duration_no_number float_seconds egs_text_duration None
            _ [] "c" [] "u1" "n/a" []); reflexivity.
Defined.

(** X22 on a single name with [item_type=str], where a second application
    changes nothing, and on a number with [item_type=object], where it
    wraps the list again. *)
Lemma to_list_witness :
  ToList.to_list (ToList.OList [ToList.OStr "train"]) (Some [ToList.Cstr])
    = Some (ToList.OList [ToList.OStr "train"]) /\
  ToList.to_list (ToList.OList [ToList.OInt 1]) (Some [ToList.Cobject])
    = Some (ToList.OList [ToList.OList [ToList.OInt 1]]).
Proof.
  split.
  - exact (proj2 (proj2 (proj2
             (to_list_idempotent (ToList.OStr "train")
                (ToList.OList [ToList.OStr "train"]) (Some [ToList.Cstr]) eq_refl)))).
  - exact (proj2 (proj2 (proj2
             (to_list_idempotent (ToList.OInt 1)
                (ToList.OList [ToList.OInt 1]) (Some [ToList.Cobject]) eq_refl)))).
Defined.

(** X26 on a table of three phones. *)
Lemma id2phone_witness :
  exists i,
    int_decimal "2" = Some i /\
    HybridASRDatabaseTemplate.id2phone int_decimal small_template i
      = HybridASRDatabaseTemplate.Phone "a".
Proof.
  refine (id2phone_inverts_phone2id int_decimal small_template _ _ "a" "2" _).
  - intros p v Hin. cbn in Hin. rewrite !elem_of_cons in Hin.
    destruct Hin as [?|[?|[?|?%elem_of_nil]]]; simplify_eq;
      [by exists 1%Z|by exists 2%Z|by exists 3%Z|done].
  - intros p1 v1 p2 v2 H1 H2. cbn in H1, H2. rewrite !elem_of_cons in H1, H2.
    destruct H1 as [?|[?|[?|?%elem_of_nil]]]; destruct H2 as [?|[?|[?|?%elem_of_nil]]];
      simplify_eq; done.
  - reflexivity.
Defined.

(** X27 on a table with an identifier that is no number. *)
Lemma id2phone_bad_table_witness :
  exists v',
    int_decimal v' = None /\
    HybridASRDatabaseTemplate.id2phone int_decimal broken_template 1
      = HybridASRDatabaseTemplate.ValueError v'.
Proof.
  apply (id2phone_bad_table int_decimal broken_template "a" "2 x").
  - compute_done.
  - reflexivity.
Defined.

(** X28 on the scenario: after [train] and [all] were fetched and both
    wrappers collected, fetching [train] builds the wrapper 2 and writes
    [train] back into the record that [all] had renamed. *)
Lemma rebuilt_witness :
  exists examples h,
    resolves scenario_db "train" examples /\
    wrappers after_all !! 0 = Some (snapshot h examples) /\
    0 < length (wrappers after_all) /\
    get_dataset scenario_db (StrArg "train") (collect (fun _ => false) after_all)
      = Ok (Concatenate [length (wrappers after_all)])
           {| heap := augment "train" examples (heap after_all);
              wrappers :=
                wrappers after_all
                  ++ [snapshot (augment "train" examples (heap after_all)) examples];
              cache := dict_set "train" (length (wrappers after_all))
                         (cache (collect (fun _ => false) after_all)) |}.
Proof.
  apply (rebuilt_after_collection scenario_db "train" 0 (fun _ => false) after_all).
  - assert (Hst : after_all
                  = final_state (get_dataset scenario_db (StrArg "all")
                      (final_state (get_dataset scenario_db (StrArg "train")
                                      scenario_st))))
      by (vm_compute; reflexivity).
    rewrite Hst. apply reachable_call, reachable_call, reachable_init.
  - reflexivity.
  - reflexivity.
Defined.

End FurtherInstances.
